(** * Construction tagger of the Caesar pipeline: a shallow embedding

    Source: [server/scripts/caesar_pipeline/tag_constructions.py].

    The tagger reads one dependency-parsed sentence (a list of token
    dictionaries) and emits construction tags.  Python integers are [Z],
    Python strings are [string], [None] is [option], the feature bag keeps
    the three shapes the source distinguishes, dictionaries are [gmap] and
    the visited set of the tree walk is a [gset]. *)

From Stdlib Require Import ZArith Ascii String Lia.
From stdpp Require Import gmap strings list list_numbers fin_maps pretty.

Local Open Scope string_scope.
Local Open Scope Z_scope.

(** ** Python string built-ins used by the tagger *)

Module PyStr.

(** [str.isspace] on the ASCII range: TAB..CR, FS..US and the blank. *)
Definition is_space (c : ascii) : bool :=
  let n := nat_of_ascii c in
  ((9 <=? n)%nat && (n <=? 13)%nat) || ((28 <=? n)%nat && (n <=? 32)%nat).

Fixpoint lstrip (s : string) : string :=
  match s with
  | String c s' => if is_space c then lstrip s' else s
  | EmptyString => EmptyString
  end.

Fixpoint rev_onto (s acc : string) : string :=
  match s with
  | String c s' => rev_onto s' (String c acc)
  | EmptyString => acc
  end.

Definition reverse (s : string) : string := rev_onto s EmptyString.

(** [s.strip()] *)
Definition strip (s : string) : string :=
  lstrip (reverse (lstrip (reverse s))).

Definition lower_ascii (c : ascii) : ascii :=
  let n := nat_of_ascii c in
  if ((65 <=? n)%nat && (n <=? 90)%nat) then ascii_of_nat (n + 32) else c.

(** [s.lower()]; case mapping is modelled on the ASCII letters, which is
    all the lemma and form tests of the tagger compare against. *)
Fixpoint lower (s : string) : string :=
  match s with
  | String c s' => String (lower_ascii c) (lower s')
  | EmptyString => EmptyString
  end.

(** [s.split(sep)] for a one-character separator. *)
Fixpoint split (sep : ascii) (s : string) : list string :=
  match s with
  | EmptyString => [EmptyString]
  | String c s' =>
      if Ascii.eqb c sep then EmptyString :: split sep s'
      else match split sep s' with
           | p :: ps => String c p :: ps
           | [] => [String c EmptyString]
           end
  end.

(** [s.split(sep, 1)] when [sep in s]: the text before and after the
    first separator; [None] when [sep not in s]. *)
Fixpoint split_once (sep : ascii) (s : string) : option (string * string) :=
  match s with
  | EmptyString => None
  | String c s' =>
      if Ascii.eqb c sep then Some (EmptyString, s')
      else match split_once sep s' with
           | Some (k, v) => Some (String c k, v)
           | None => None
           end
  end.

(** [needle in hay] on strings. *)
Fixpoint contains (needle hay : string) : bool :=
  String.prefix needle hay ||
  match hay with
  | String _ hay' => contains needle hay'
  | EmptyString => false
  end.

Definition startswith (s pre : string) : bool := String.prefix pre s.

Definition endswith (s suf : string) : bool :=
  String.prefix (reverse suf) (reverse s).

(** [x in (a, b, ...)] and [x in {a, b, ...}] for string constants. *)
Definition among (x : string) (l : list string) : bool :=
  existsb (String.eqb x) l.

(** [x in (None, a, ...)]-style tests on optional strings. *)
Definition is_str (x : option string) (v : string) : bool :=
  match x with
  | Some s => String.eqb s v
  | None => false
  end.

(** Truthiness of an optional string: [None] and [""] are falsy. *)
Definition truthy (x : option string) : bool :=
  match x with
  | Some EmptyString | None => false
  | Some _ => true
  end.

(** [a == b] on optional strings. *)
Definition opt_eqb (a b : option string) : bool :=
  match a, b with
  | Some x, Some y => String.eqb x y
  | None, None => true
  | _, _ => false
  end.

End PyStr.

(** ** Data model *)

(** The value stored under a token's ["feats"] key: nothing, a dictionary,
    a UD string such as ["Case=Abl|Number=Sing"], or another JSON
    container (an array of strings), which the accessors treat as carrying
    no features. *)
Inductive feats_val : Type :=
  | FNone
  | FDict (d : gmap string string)
  | FStr (s : string)
  | FList (l : list string).

(** A token dictionary.  For the string-valued keys a missing key and the
    empty string behave alike in every test of the source, so they are one
    value here; [tk_head = None] is a ["head"] that is not an integer and a
    missing ["head"] is [Some 0], the default of [tok.get("head", 0)]. *)
Record token : Type := Token {
  tk_text : string;
  tk_lemma : string;
  tk_upos : string;
  tk_deprel : string;
  tk_feats : feats_val;
  tk_head : option Z
}.

Definition blank_token : token := Token "" "" "" "" FNone (Some 0).

#[global] Instance token_inhabited : Inhabited token := populate blank_token.

(** [len(tokens)] *)
Definition len (tokens : list token) : Z := Z.of_nat (length tokens).

(** [0 <= i < len(tokens)] *)
Definition in_range (tokens : list token) (i : Z) : bool :=
  (0 <=? i) && (i <? len tokens).

(** [tokens[i]]; every subscript the source evaluates is guarded by
    [in_range], so the default is never observed by the tagger. *)
Definition tok (tokens : list token) (i : Z) : token :=
  if in_range tokens i then tokens !!! Z.to_nat i else blank_token.

(** [enumerate(tokens)] *)
Definition enumerate (tokens : list token) : list (Z * token) :=
  zip (seqZ 0 (len tokens)) tokens.

(** [range(a, b)] *)
Definition range (a b : Z) : list Z := seqZ a (b - a).

(** ** Feature accessor *)

(** Python truthiness of a feature bag. *)
Definition feats_truthy (f : feats_val) : bool :=
  match f with
  | FNone => false
  | FDict d => negb (bool_decide (d = ∅))
  | FStr s => negb (String.eqb s "")
  | FList l => match l with [] => false | _ => true end
  end.

(** [tok.get("feats") or ""] *)
Definition feats_or_empty (f : feats_val) : feats_val :=
  if feats_truthy f then f else FStr "".

(** The loop of [feats_get] over [feats.split("|")]. *)
Fixpoint feats_scan (parts : list string) (key : string) : option string :=
  match parts with
  | [] => None
  | part :: rest =>
      match PyStr.split_once "=" part with
      | None => feats_scan rest key
      | Some (k, v) => if String.eqb k key then Some v else feats_scan rest key
      end
  end.

Definition feats_get (feats : feats_val) (key : string) : option string :=
  if negb (feats_truthy feats) then None
  else match feats with
       | FDict d => d !! key
       | FStr s => feats_scan (PyStr.split "|" s) key
       | _ => None
       end.

Definition feats_has (feats : feats_val) (key value : string) : bool :=
  PyStr.opt_eqb (feats_get feats key) (Some value).

(** [get_feat] is a second copy of the accessor in the source. *)
Definition get_feat (feats : feats_val) (key : string) : option string :=
  if negb (feats_truthy feats) then None
  else match feats with
       | FDict d => d !! key
       | FStr s => feats_scan (PyStr.split "|" s) key
       | _ => None
       end.

(** [needle in feats] as [is_future_passive_participle] writes it: substring
    on a string, key membership on a dictionary, element membership on a
    list. *)
Definition feats_contains (needle : string) (f : feats_val) : bool :=
  match f with
  | FNone => false
  | FDict d => bool_decide (is_Some (d !! needle))
  | FStr s => PyStr.contains needle s
  | FList l => PyStr.among needle l
  end.

(** ** Token helpers *)

Definition tok_text (t : token) : string := PyStr.strip (tk_text t).
Definition tok_lemma (t : token) : string := PyStr.strip (tk_lemma t).

Definition is_punct (t : token) : bool :=
  String.eqb (tk_upos t) "PUNCT" || String.eqb (tk_deprel t) "punct".

Definition RESULT_CORRELATIVES : list string :=
  ["tam"; "ita"; "sic"; "tantus"; "talis"; "tot"; "adeo"; "eo"; "usque"].

(** ** Boundary model *)

Definition STRONG_PUNCT : list string := ["."; ";"; ":"; "?"; "!"].

Definition is_strong_boundary (t : token) : bool :=
  if String.eqb (tk_upos t) "PUNCT" then PyStr.among (tok_text t) STRONG_PUNCT
  else false.

Definition has_strong_boundary_between (tokens : list token) (a b : Z) : bool :=
  let '(lo, hi) := if a <=? b then (a, b) else (b, a) in
  existsb (λ k, is_strong_boundary (tok tokens k)) (range (lo + 1) hi).

(** The two scanning loops shared by [segment_bounds] and
    [sentence_bounds].  [left] moves down at most [left] times and [right]
    moves up at most [n - 1 - right] times, which is the fuel the callers
    pass. *)
Fixpoint scan_left (boundary : token → bool) (tokens : list token)
    (fuel : nat) (left : Z) : Z :=
  match fuel with
  | O => left
  | S fuel' =>
      if 0 <? left then
        if boundary (tok tokens (left - 1)) then left
        else scan_left boundary tokens fuel' (left - 1)
      else left
  end.

Fixpoint scan_right (boundary : token → bool) (tokens : list token)
    (fuel : nat) (right : Z) : Z :=
  match fuel with
  | O => right
  | S fuel' =>
      if right <? len tokens - 1 then
        if boundary (tok tokens (right + 1)) then right
        else scan_right boundary tokens fuel' (right + 1)
      else right
  end.

Definition segment_bounds (tokens : list token) (i : Z) : Z * Z :=
  (scan_left is_strong_boundary tokens (Z.to_nat i) i,
   scan_right is_strong_boundary tokens (Z.to_nat (len tokens - 1 - i)) i).

Definition SENTENCE_END_PUNCT : list string := ["."; "?"; "!"].

Definition is_sentence_end_boundary (t : token) : bool :=
  if String.eqb (tk_upos t) "PUNCT" then PyStr.among (tok_text t) SENTENCE_END_PUNCT
  else false.

Definition sentence_bounds (tokens : list token) (i : Z) : Z * Z :=
  (scan_left is_sentence_end_boundary tokens (Z.to_nat i) i,
   scan_right is_sentence_end_boundary tokens (Z.to_nat (len tokens - 1 - i)) i).

Definition has_result_correlative (tokens : list token) (marker_i : Z)
    : bool * option Z :=
  let seg_start := fst (segment_bounds tokens marker_i) in
  let best :=
    foldl (λ best j,
             let t := PyStr.lower (tok_text (tok tokens j)) in
             let lem := PyStr.lower (tok_lemma (tok tokens j)) in
             if PyStr.among t RESULT_CORRELATIVES || PyStr.among lem RESULT_CORRELATIVES
             then Some j else best)
          None (range seg_start marker_i) in
  (bool_decide (is_Some best), best).

(** ** Word-class and agreement tests *)

Definition is_nounish (t : token) : bool :=
  PyStr.among (tk_upos t) ["NOUN"; "PROPN"; "PRON"].

Definition is_verbal (t : token) : bool :=
  PyStr.among (tk_upos t) ["VERB"; "AUX"].

Definition is_finite_verb (t : token) : bool :=
  let feats := feats_or_empty (tk_feats t) in
  if negb (PyStr.among (tk_upos t) ["VERB"; "AUX"]) then false
  else match feats_get feats "VerbForm" with
       | None => true
       | Some vf => String.eqb vf "Fin"
       end.

Definition is_infinitive (t : token) : bool :=
  feats_has (feats_or_empty (tk_feats t)) "VerbForm" "Inf".

Definition agree_gender_number (a b : token) : bool :=
  let fa := feats_or_empty (tk_feats a) in
  let fb := feats_or_empty (tk_feats b) in
  let ga := feats_get fa "Gender" in
  let gb := feats_get fb "Gender" in
  let na := feats_get fa "Number" in
  let nb := feats_get fb "Number" in
  if PyStr.truthy ga && PyStr.truthy gb && negb (PyStr.opt_eqb ga gb) then false
  else if PyStr.truthy na && PyStr.truthy nb && negb (PyStr.opt_eqb na nb) then false
  else true.

(** ** Tree index *)

(** The guard every detector applies to a ["head"] value: it must be an
    integer, positive, and [head - 1] must be a token position. *)
Definition head_index (tokens : list token) (t : token) : option Z :=
  match tk_head t with
  | None => None
  | Some head =>
      if head <=? 0 then None
      else if in_range tokens (head - 1) then Some (head - 1) else None
  end.

(** [children.get(i, [])] *)
Definition children_get (children : gmap Z (list Z)) (i : Z) : list Z :=
  default [] (children !! i).

Definition build_children (tokens : list token) : gmap Z (list Z) :=
  foldl (λ children '(i, t),
           match tk_head t with
           | None => children
           | Some head =>
               if head <=? 0 then children
               else
                 let h := head - 1 in
                 if in_range tokens h then alter (λ cs, (cs ++ [i])%list) h children
                 else children
           end)
        (list_to_map ((λ i, (i, [])) <$> range 0 (len tokens)))
        (enumerate tokens).

(** One run of the [while stack:] loop of [in_subtree].  The Python list
    used as a stack is kept with its top first, so appending the children
    in order puts them reversed in front. *)
Fixpoint in_subtree_loop (fuel : nat) (children : gmap Z (list Z)) (query_i : Z)
    (stack : list Z) (seen : gset Z) : option bool :=
  match fuel with
  | O => None
  | S fuel' =>
      match stack with
      | [] => Some false
      | cur :: rest =>
          if cur =? query_i then Some true
          else if bool_decide (cur ∈ seen) then
            in_subtree_loop fuel' children query_i rest seen
          else
            in_subtree_loop fuel' children query_i
              (rev (children_get children cur) ++ rest)%list ({[cur]} ∪ seen)
      end
  end.

(** What is left to do in a state of the loop: the stack entries, and for
    every key not yet expanded one step plus its children. *)
Definition pending (seen : gset Z) (kv : Z * list Z) : nat :=
  if bool_decide (kv.1 ∈ seen) then O else S (length kv.2).

Definition unexpanded (children : gmap Z (list Z)) (seen : gset Z) : nat :=
  sum_list_with (pending seen) (map_to_list children).

Definition in_subtree_fuel (children : gmap Z (list Z)) : nat :=
  S (S (unexpanded children ∅)).

Definition in_subtree (tokens : list token) (children : gmap Z (list Z))
    (root_i query_i : Z) : bool :=
  default false
    (in_subtree_loop (in_subtree_fuel children) children query_i [root_i] ∅).

(** ** Span resolver *)

Fixpoint find_next_boundary_from (tokens : list token) (start_i : Z)
    (positions : list Z) : Z :=
  match positions with
  | [] => len tokens - 1
  | i :: rest =>
      let t := tok tokens i in
      if is_punct t then Z.max start_i (i - 1)
      else if PyStr.among (tk_deprel t) ["parataxis"; "root"] && negb (i =? start_i)
      then i - 1
      else find_next_boundary_from tokens start_i rest
  end.

Definition find_next_boundary (tokens : list token) (start_i : Z) : Z :=
  find_next_boundary_from tokens start_i (range start_i (len tokens)).

(** ** Tags *)

Inductive trig_val : Type :=
  | TInt (z : Z)
  | TStr (s : string)
  | TNone.

Definition opt_int (o : option Z) : trig_val :=
  match o with Some z => TInt z | None => TNone end.

(** The record [predicate_signature] returns. *)
Record compound_info : Type := Compound {
  cp_kind : string;
  cp_aux_index : Z;
  cp_part_index : Z
}.

Record signature : Type := Signature {
  sg_mood : option string;
  sg_tense : option string;
  sg_aspect : option string;
  sg_verbForm : option string;
  sg_compound : option compound_info
}.

(** The record [infer_discourse] returns. *)
Record discourse_info : Type := Discourse {
  ds_statement : string;
  ds_sequence : option string;
  ds_head_verb_index : option Z;
  ds_head_verb_tense : option string;
  ds_discourse : string;
  ds_reason : string
}.

(** The ["conditional"] metadata of the two conditional tags. *)
Record cond_meta : Type := CondMeta {
  cm_label : string;
  cm_discourse : string;
  cm_sequence : option string;
  cm_statement : string;
  cm_head_verb_index : option Z;
  cm_head_verb_tense : option string;
  cm_protasis_verb_index : Z;
  cm_protasis : signature;
  cm_apodosis_verb_index : option Z;
  cm_apodosis : signature;
  cm_apodosis_form : option string;
  cm_apodosis_inf_time : option string
}.

(** A tag dictionary.  [tg_highlight_spans] is [[]] when the key is absent
    (the reading of [t.get("highlight_spans") or []]); the confidence is
    kept in hundredths. *)
Record tag : Type := Tag {
  tg_type : string;
  tg_subtype : option string;
  tg_start : Z;
  tg_end : Z;
  tg_highlight_spans : list (Z * Z);
  tg_full_span : option (Z * Z);
  tg_confidence : Z;
  tg_conditional : option cond_meta;
  tg_trigger : list (string * trig_val)
}.

(** ** Cum clauses *)

Definition cum_clause_at (tokens : list token) (i : Z) (t : token) : option tag :=
  if negb (String.eqb (PyStr.lower (tok_lemma t)) "cum") then None
  else if negb (PyStr.among (tk_upos t) ["SCONJ"; "ADP"]) then None
  else if negb (PyStr.among (tk_deprel t) ["mark"; "case"]) then None
  else
    match head_index tokens t with
    | None => None
    | Some v_i =>
        if has_strong_boundary_between tokens i v_i then None
        else
          let v := tok tokens v_i in
          let feats := feats_or_empty (tk_feats v) in
          if feats_has feats "Mood" "Sub" && is_finite_verb v then
            let end0 := find_next_boundary tokens v_i in
            let end1 :=
              if has_strong_boundary_between tokens i end0
              then Z.min end0 (snd (segment_bounds tokens v_i))
              else end0 in
            Some (Tag "cum_clause" None i end1 [] None 90 None
                      [("cum_index", TInt i); ("verb_index", TInt v_i)])
          else None
    end.

Definition tag_cum_clauses (tokens : list token) : list tag :=
  omap (λ '(i, t), cum_clause_at tokens i t) (enumerate tokens).

(** ** Ablative absolutes *)

(** The body of the loop over the participle's children: [true] when the
    loop reaches [found_n = ci], [false] when it [continue]s. *)
Definition abl_noun_matches (tokens : list token)
    (part_gender part_number : option string) (ci : Z) : bool :=
  let c := tok tokens ci in
  let c_feats := feats_or_empty (tk_feats c) in
  if negb (is_nounish c && feats_has c_feats "Case" "Abl") then false
  else
    let noun_gender := get_feat c_feats "Gender" in
    let noun_number := get_feat c_feats "Number" in
    if negb (PyStr.truthy part_gender) || negb (PyStr.truthy part_number)
       || negb (PyStr.truthy noun_gender) || negb (PyStr.truthy noun_number)
    then false
    else if negb (PyStr.opt_eqb part_gender noun_gender) then false
    else if negb (PyStr.opt_eqb part_number noun_number) then false
    else true.

Definition abl_abs_at (tokens : list token) (children : gmap Z (list Z))
    (i : Z) (t : token) : option tag :=
  let feats := feats_or_empty (tk_feats t) in
  if negb (String.eqb (tk_upos t) "VERB") then None
  else if negb (feats_has feats "VerbForm" "Part") then None
  else if negb (feats_has feats "Case" "Abl") then None
  else
    let part_gender := get_feat feats "Gender" in
    let part_number := get_feat feats "Number" in
    match List.find (abl_noun_matches tokens part_gender part_number)
                    (children_get children i) with
    | None => None
    | Some found_n =>
        let lo := Z.min i found_n in
        let hi := Z.max i found_n in
        Some (Tag "abl_abs" None lo hi [(i, i); (found_n, found_n)] None 88 None
                  [("part_index", TInt i); ("abl_noun_index", TInt found_n)])
    end.

Definition tag_ablative_absolutes (tokens : list token) : list tag :=
  let children := build_children tokens in
  omap (λ '(i, t), abl_abs_at tokens children i t) (enumerate tokens).

(** ** Indirect statements *)

Definition SPEECH_LEMMAS : list string :=
  ["dico"; "inquam"; "aio"; "nego"; "respondeo"; "puto"; "existimo"; "arbitror";
   "audio"; "video"; "cognosco"; "intellego"; "scio"; "comperio"; "nuntio"].

Definition INDIRECT_HEAD_LEMMAS : list string :=
  (SPEECH_LEMMAS ++
   ["impero"; "iubeo"; "mando"; "praecipio"; "cogo"; "hortor"; "moneo";
    "oro"; "rogo"; "peto"; "postulo"; "flagito"; "posco"; "suadeo"; "persuadeo";
    "prohibeo"; "veto";
    "nuntio"; "renuntio"; "refero"; "denuntio";
    "intellego"; "animadverto"; "cognosco"; "comperio"; "rescio"])%list.

Definition indirect_statement_at (tokens : list token)
    (children : gmap Z (list Z)) (i : Z) (t : token) : option tag :=
  if negb (PyStr.among (tk_upos t) ["VERB"; "AUX"]) then None
  else if negb (PyStr.among (PyStr.lower (tok_lemma t)) SPEECH_LEMMAS) then None
  else
    match List.find (λ ci, let c := tok tokens ci in
                           PyStr.among (tk_upos c) ["VERB"; "AUX"] && is_infinitive c)
                    (children_get children i) with
    | None => None
    | Some inf_i =>
        let direct :=
          List.find (λ ci, let c := tok tokens ci in
                           is_nounish c
                           && (feats_has (feats_or_empty (tk_feats c)) "Case" "Acc"
                               && PyStr.among (tk_deprel c) ["nsubj"; "obj"; "nsubj:pass"]))
                    (children_get children inf_i) in
        let best_acc :=
          match direct with
          | Some ci => Some ci
          | None =>
              List.find (λ j, in_subtree tokens children inf_i j
                              && (let c := tok tokens j in
                                  is_nounish c
                                  && feats_has (feats_or_empty (tk_feats c)) "Case" "Acc"))
                        (range 0 (len tokens))
          end in
        match best_acc with
        | None => None
        | Some best_acc =>
            if has_strong_boundary_between tokens best_acc inf_i then None
            else
              let start0 := Z.min best_acc inf_i in
              let end0 := find_next_boundary tokens (Z.max best_acc inf_i) in
              let '(start1, end1) :=
                if has_strong_boundary_between tokens start0 end0 then
                  let '(seg_start, seg_end) := segment_bounds tokens inf_i in
                  (Z.max start0 seg_start, Z.min end0 seg_end)
                else (start0, end0) in
              if has_strong_boundary_between tokens start0 end0 && (end1 <? start1)
              then None
              else
                let dist := Z.abs (best_acc - inf_i) in
                let conf0 := if dist <=? 6 then 90 else 85 in
                let conf := if String.eqb (tk_deprel (tok tokens best_acc)) "nsubj"
                            then conf0 + 3 else conf0 in
                Some (Tag "indirect_statement" None start1 end1
                          [(best_acc, best_acc); (inf_i, inf_i)] (Some (start1, end1))
                          conf None
                          [("speech_verb_index", TInt i); ("inf_index", TInt inf_i);
                           ("acc_subject_index", TInt best_acc)])
        end
    end.

Definition tag_indirect_statements (tokens : list token) : list tag :=
  let children := build_children tokens in
  omap (λ '(i, t), indirect_statement_at tokens children i t) (enumerate tokens).

(** ** Predicate signature *)

Definition is_subjunctive (t : token) : bool := feats_has (tk_feats t) "Mood" "Sub".
Definition get_tense (t : token) : option string :=
  feats_get (feats_or_empty (tk_feats t)) "Tense".
Definition get_aspect (t : token) : option string :=
  feats_get (feats_or_empty (tk_feats t)) "Aspect".
Definition get_mood (t : token) : option string :=
  feats_get (feats_or_empty (tk_feats t)) "Mood".
Definition get_verbform (t : token) : option string :=
  feats_get (feats_or_empty (tk_feats t)) "VerbForm".

Definition looks_like_future_participle_form (form : string) : bool :=
  let f := PyStr.lower form in
  existsb (PyStr.endswith f) ["urus"; "ura"; "urum"; "uros"; "uras"].

(** [vi is None or not (0 <= vi < len(tokens))] negated. *)
Definition valid_index (tokens : list token) (vi : option Z) : bool :=
  match vi with
  | Some i => in_range tokens i
  | None => false
  end.

(** The first child of [vi] carrying [VerbForm=Part], the participle the
    [for ci in children.get(vi, [])] loop stops at. *)
Definition participle_child (tokens : list token) (children : gmap Z (list Z))
    (vi : Z) : option Z :=
  List.find (λ ci, PyStr.is_str
                     (feats_get (feats_or_empty (tk_feats (tok tokens ci))) "VerbForm")
                     "Part")
            (children_get children vi).

Definition predicate_signature (tokens : list token) (children : gmap Z (list Z))
    (vi : option Z) : signature :=
  match vi with
  | None => Signature None None None None None
  | Some vi =>
      if negb (in_range tokens vi) then Signature None None None None None
      else
        let t := tok tokens vi in
        let mood := get_mood t in
        let tense := get_tense t in
        let aspect := get_aspect t in
        let verbForm := get_verbform t in
        let lemma := PyStr.lower (tk_lemma t) in
        let upos := tk_upos t in
        let base := Signature mood tense aspect verbForm None in
        if PyStr.among lemma ["sum"; "esse"] && PyStr.among upos ["AUX"; "VERB"] then
          match participle_child tokens children vi with
          | None => base
          | Some part_i =>
              let part := tok tokens part_i in
              let p_feats := feats_or_empty (tk_feats part) in
              let p_voice := feats_get p_feats "Voice" in
              let p_aspect := feats_get p_feats "Aspect" in
              let p_form := PyStr.lower (tk_text part) in
              if PyStr.is_str p_voice "Act"
                 && (PyStr.is_str p_aspect "Prosp"
                     || looks_like_future_participle_form p_form)
              then Signature mood (Some "Fut") (Some "Prosp") verbForm
                     (Some (Compound "future_active_periphrastic" vi part_i))
              else if PyStr.is_str p_voice "Pass" && PyStr.is_str p_aspect "Perf" then
                let eff_tense :=
                  if PyStr.is_str tense "Pres" then Some "Past"
                  else if PyStr.is_str tense "Past" then Some "Pqp"
                  else tense in
                Signature mood eff_tense (Some "Perf") verbForm
                  (Some (Compound "perfect_passive_periphrastic" vi part_i))
              else base
          end
        else base
  end.

(** ** Gerunds and gerundives *)

Definition is_future_passive_participle (t : token) : bool :=
  let feats := feats_or_empty (tk_feats t) in
  if negb (PyStr.among (tk_upos t) ["VERB"; "AUX"]) then false
  else feats_contains "VerbForm=Part" feats
       && feats_contains "Voice=Pass" feats
       && feats_contains "Aspect=Prosp" feats.

Definition is_neuter_singular (t : token) : bool :=
  let feats := feats_or_empty (tk_feats t) in
  feats_has feats "Gender" "Neut" && feats_has feats "Number" "Sing".

Definition agrees_case_number_gender (a b : token) : bool :=
  let fa := feats_or_empty (tk_feats a) in
  let fb := feats_or_empty (tk_feats b) in
  let ca := feats_get fa "Case" in
  let cb := feats_get fb "Case" in
  if PyStr.truthy ca && PyStr.truthy cb && negb (PyStr.opt_eqb ca cb) then false
  else agree_gender_number a b.

Definition is_gerund (tokens : list token) (gi : Z) : bool :=
  let g := tok tokens gi in
  if negb (is_future_passive_participle g) then false
  else if negb (is_neuter_singular g) then false
  else
    match head_index tokens g with
    | Some hi =>
        let h := tok tokens hi in
        if is_nounish h && agrees_case_number_gender g h then false else true
    | None => true
    end.

Definition is_gerundive (tokens : list token) (gi : Z) : bool :=
  let g := tok tokens gi in
  if negb (is_future_passive_participle g) then false
  else negb (is_gerund tokens gi).

Definition tag_gerunds_and_gerundives (tokens : list token) : list tag :=
  omap (λ i,
          if is_gerund tokens i then
            Some (Tag "gerund" None i i [] None 94 None
                      [("index", TInt i); ("rule", TStr "FPP_neut_sing_substantive")])
          else if is_gerundive tokens i then
            Some (Tag "gerundive" None i i [] None 92 None
                      [("index", TInt i); ("rule", TStr "FPP_other")])
          else None)
       (range 0 (len tokens)).

(** ** Purpose, result and relative clauses *)

(** The loop [best = None; best_dist = 10**9; for ci in ...: if dist <
    best_dist: ...] over the candidates that pass the loop's filters. *)
Definition nearest_to (center : Z) (candidates : list Z) : option Z :=
  fst (foldl (λ '(best, best_dist) ci,
                let dist := Z.abs (ci - center) in
                if dist <? best_dist then (Some ci, dist) else (best, best_dist))
             (None, 10 ^ 9) candidates).

(** [min(l, key=lambda j: abs(j - center))]: the first element of least
    distance; [None] stands for the [ValueError] on an empty list, which no
    caller reaches. *)
Definition min_by_distance (center : Z) (l : list Z) : option Z :=
  match l with
  | [] => None
  | x :: rest =>
      Some (foldl (λ best j,
                     if Z.abs (j - center) <? Z.abs (best - center) then j else best)
                  x rest)
  end.

(** The bounded climb [for _ in range(6)] from a relative pronoun to its
    verb, shared verbatim by [tag_purpose_clauses] and
    [tag_relative_clauses]. *)
Fixpoint relative_verb_walk (tokens : list token) (i : Z) (hops : nat)
    (cur : Z) (seen : gset Z) (vi : option Z) : option Z :=
  match hops with
  | O => vi
  | S hops' =>
      match tk_head (tok tokens cur) with
      | None => vi
      | Some head_id =>
          if head_id <=? 0 then vi
          else
            let nxt := head_id - 1 in
            if bool_decide (nxt ∈ seen) || negb (in_range tokens nxt) then vi
            else if has_strong_boundary_between tokens i nxt then vi
            else
              let seen' := {[nxt]} ∪ seen in
              let t := tok tokens nxt in
              if PyStr.among (tk_upos t) ["VERB"; "AUX"] && is_finite_verb t then
                if String.eqb (tk_deprel t) "acl:relcl" then Some nxt
                else relative_verb_walk tokens i hops' nxt seen' (Some nxt)
              else relative_verb_walk tokens i hops' nxt seen' vi
      end
  end.

(** The guards in front of the climb. *)
Definition is_relative_pronoun (t : token) : bool :=
  feats_has (feats_or_empty (tk_feats t)) "PronType" "Rel"
  && PyStr.among (tk_upos t) ["PRON"; "DET"]
  && negb (PyStr.among (PyStr.lower (tok_lemma t)) ["cum"; "ut"]).

Definition UT_MARKERS : list string := ["ut"; "ne"; "neve"; "uti"].

Definition purpose_mark_at (tokens : list token) (i : Z) (t : token) : option tag :=
  let tx := PyStr.lower (tok_text t) in
  let lem := PyStr.lower (tok_lemma t) in
  if negb (PyStr.among tx UT_MARKERS) && negb (PyStr.among lem UT_MARKERS) then None
  else
    match head_index tokens t with
    | None => None
    | Some vi =>
        if has_strong_boundary_between tokens i vi then None
        else
          let vtok := tok tokens vi in
          if negb (is_finite_verb vtok) || negb (is_subjunctive vtok) then None
          else
            let is_ut_like :=
              PyStr.among tx ["ut"; "uti"] || PyStr.among lem ["ut"; "uti"] in
            let '(is_result, corr_i) :=
              if is_ut_like then has_result_correlative tokens i else (false, None) in
            if is_result then
              Some (Tag "result_clause" (Some "ut_correlative_result")
                        (Z.min i vi) (Z.max i vi) [(i, i); (vi, vi)] None 93 None
                        [("marker_index", TInt i); ("verb_index", TInt vi);
                         ("rule", TStr "ut/uti+subj+correlative");
                         ("correlative_index", opt_int corr_i)])
            else
              Some (Tag "purpose_clause" (Some "ut_ne")
                        (Z.min i vi) (Z.max i vi) [(i, i); (vi, vi)] None 93 None
                        [("marker_index", TInt i); ("verb_index", TInt vi);
                         ("rule", TStr "mark+subj")])
    end.

Definition is_ad_case (t : token) : bool :=
  String.eqb (tk_upos t) "ADP"
  && (String.eqb (PyStr.lower (tok_text t)) "ad"
      || String.eqb (PyStr.lower (tok_lemma t)) "ad")
  && String.eqb (tk_deprel t) "case".

Definition purpose_ad_at (tokens : list token) (children : gmap Z (list Z))
    (i : Z) (t : token) : option tag :=
  if negb (is_ad_case t) then None
  else
    match head_index tokens t with
    | None => None
    | Some hi =>
        let head_tok := tok tokens hi in
        if PyStr.among (tk_upos head_tok) ["VERB"; "AUX"] && is_gerund tokens hi then
          if has_strong_boundary_between tokens i hi then None
          else
            Some (Tag "purpose_clause" (Some "ad_gerund")
                      (Z.min i hi) (Z.max i hi) [(i, i); (hi, hi)] None 92 None
                      [("ad_index", TInt i); ("gerund_index", TInt hi);
                       ("rule", TStr "ad+gerund")])
        else if is_nounish head_tok then
          match nearest_to hi
                  (List.filter (λ ci, let ct := tok tokens ci in
                                      is_future_passive_participle ct
                                      && agrees_case_number_gender ct head_tok)
                               (children_get children hi)) with
          | None => None
          | Some best_g =>
              if has_strong_boundary_between tokens i best_g then None
              else
                Some (Tag "purpose_clause" (Some "ad_noun_gerundive")
                          (Z.min i best_g) (Z.max i best_g)
                          [(i, i); (best_g, best_g)] None 90 None
                          [("ad_index", TInt i); ("noun_index", TInt hi);
                           ("gerundive_index", TInt best_g);
                           ("rule", TStr "ad+noun+gerundive_agree")])
          end
        else None
    end.

Definition purpose_relative_at (tokens : list token) (i : Z) (t : token)
    : option tag :=
  if negb (is_relative_pronoun t) then None
  else
    match relative_verb_walk tokens i 6 i ∅ None with
    | None => None
    | Some vi =>
        if negb (is_subjunctive (tok tokens vi)) then None
        else if has_strong_boundary_between tokens i vi then None
        else
          Some (Tag "subjunctive_relative_clause" (Some "qui_subj")
                    (Z.min i vi) (Z.max i vi) [(i, i); (vi, vi)] None 90 None
                    [("rel_pron_index", TInt i); ("verb_index", TInt vi);
                     ("rule", TStr "rel+subj")])
    end.

Definition tag_purpose_clauses (tokens : list token) : list tag :=
  let children := build_children tokens in
  (omap (λ '(i, t), purpose_mark_at tokens i t) (enumerate tokens)
   ++ omap (λ '(i, t), purpose_ad_at tokens children i t) (enumerate tokens)
   ++ omap (λ '(i, t), purpose_relative_at tokens i t) (enumerate tokens))%list.

Definition relative_clause_at (tokens : list token) (i : Z) (t : token)
    : option tag :=
  if negb (is_relative_pronoun t) then None
  else
    match relative_verb_walk tokens i 6 i ∅ None with
    | None => None
    | Some vi =>
        if has_strong_boundary_between tokens i vi then None
        else
          let mood := get_mood (tok tokens vi) in
          if PyStr.is_str mood "Sub" then
            Some (Tag "relative_clause" (Some "subjunctive")
                      (Z.min i vi) (Z.max i vi) [(i, i); (vi, vi)] None 90 None
                      [("rel_pron_index", TInt i); ("verb_index", TInt vi);
                       ("rule", TStr "PronType=Rel+finite")])
          else if PyStr.is_str mood "Ind" then
            Some (Tag "relative_clause" (Some "indicative")
                      (Z.min i vi) (Z.max i vi) [(i, i); (vi, vi)] None 91 None
                      [("rel_pron_index", TInt i); ("verb_index", TInt vi);
                       ("rule", TStr "PronType=Rel+finite")])
          else None
    end.

Definition tag_relative_clauses (tokens : list token) : list tag :=
  omap (λ '(i, t), relative_clause_at tokens i t) (enumerate tokens).

(** ** Gerund / gerundive flip *)

Definition flip_gerund_at (tokens : list token) (children : gmap Z (list Z))
    (i : Z) : option tag :=
  if negb (is_gerund tokens i) then None
  else
    let obj_children :=
      List.filter (λ ci, String.eqb (tk_deprel (tok tokens ci)) "obj")
                  (children_get children i) in
    match min_by_distance i obj_children with
    | None => None
    | Some best_obj =>
        Some (Tag "gerund_gerundive_flip" (Some "gerund_form_with_object")
                  (Z.min i best_obj) (Z.max i best_obj)
                  [(i, i); (best_obj, best_obj)] None 86 None
                  [("gerund_index", TInt i); ("obj_index", TInt best_obj);
                   ("rule", TStr "gerund+obj")])
    end.

Definition flip_ad_at (tokens : list token) (children : gmap Z (list Z))
    (i : Z) (t : token) : option tag :=
  if negb (String.eqb (tk_upos t) "ADP") || negb (String.eqb (tk_deprel t) "case")
  then None
  else if negb (String.eqb (PyStr.lower (tok_text t)) "ad")
          && negb (String.eqb (PyStr.lower (tok_lemma t)) "ad")
  then None
  else
    match head_index tokens t with
    | None => None
    | Some hi =>
        let head_tok := tok tokens hi in
        if is_nounish head_tok then
          let noun_i := hi in
          match nearest_to noun_i
                  (List.filter (λ ci, is_gerundive tokens ci
                                      && agrees_case_number_gender (tok tokens ci) head_tok)
                               (children_get children noun_i)) with
          | None => None
          | Some best_g =>
              if has_strong_boundary_between tokens i best_g then None
              else
                Some (Tag "gerund_gerundive_flip" (Some "gerundive_form_ad_phrase")
                          (Z.min (Z.min i noun_i) best_g) (Z.max (Z.max i noun_i) best_g)
                          [(i, i); (noun_i, noun_i); (best_g, best_g)] None 84 None
                          [("ad_index", TInt i); ("noun_index", TInt noun_i);
                           ("gerundive_index", TInt best_g);
                           ("rule", TStr "ad+noun+gerundive")])
          end
        else if is_gerundive tokens hi then
          let ger_i := hi in
          match nearest_to ger_i
                  (List.filter (λ ci, let ct := tok tokens ci in
                                      is_nounish ct
                                      && agrees_case_number_gender (tok tokens ger_i) ct)
                               (children_get children ger_i)) with
          | None =>
              if has_strong_boundary_between tokens i ger_i then None
              else
                Some (Tag "gerund_gerundive_flip"
                          (Some "gerundive_form_ad_phrase_no_noun")
                          (Z.min i ger_i) (Z.max i ger_i)
                          [(i, i); (ger_i, ger_i)] None 72 None
                          [("ad_index", TInt i); ("gerundive_index", TInt ger_i);
                           ("rule", TStr "ad+gerundive(no_noun)")])
          | Some noun_i =>
              if has_strong_boundary_between tokens i ger_i then None
              else
                Some (Tag "gerund_gerundive_flip" (Some "gerundive_form_ad_phrase")
                          (Z.min (Z.min i noun_i) ger_i) (Z.max (Z.max i noun_i) ger_i)
                          [(i, i); (noun_i, noun_i); (ger_i, ger_i)] None 86 None
                          [("ad_index", TInt i); ("noun_index", TInt noun_i);
                           ("gerundive_index", TInt ger_i);
                           ("rule", TStr "ad->gerundive + agreeing_noun")])
          end
        else None
    end.

Definition tag_gerund_gerundive_flip (tokens : list token) : list tag :=
  let children := build_children tokens in
  (omap (flip_gerund_at tokens children) (range 0 (len tokens))
   ++ omap (λ '(i, t), flip_ad_at tokens children i t) (enumerate tokens))%list.

(** ** Conditional classifier *)

(** What one subtree token contributes to [saw_future] and [saw_past] in
    the periphrastic branch of [infer_infinitive_time]. *)
Definition periphrasis_marks (t : token) : bool * bool :=
  let featsj := feats_or_empty (tk_feats t) in
  let formj := PyStr.lower (tk_text t) in
  let is_part := PyStr.is_str (feats_get featsj "VerbForm") "Part" in
  let fut :=
    (is_part && (looks_like_future_participle_form formj
                 || PyStr.is_str (feats_get featsj "Aspect") "Prosp"))
    || String.eqb formj "fore" in
  let past :=
    is_part && (PyStr.is_str (feats_get featsj "Voice") "Pass"
                && PyStr.is_str (feats_get featsj "Aspect") "Perf") in
  (fut, past).

Definition infer_infinitive_time (tokens : list token) (children : gmap Z (list Z))
    (inf_i : option Z) : option string :=
  match inf_i with
  | None => None
  | Some inf_i =>
      let t := tok tokens inf_i in
      let feats := feats_or_empty (tk_feats t) in
      let txt := PyStr.lower (tk_text t) in
      let lemma := PyStr.lower (tk_lemma t) in
      let tense := feats_get feats "Tense" in
      let aspect := feats_get feats "Aspect" in
      if PyStr.is_str tense "Past" || PyStr.is_str tense "Pqp"
         || PyStr.is_str aspect "Perf" then Some "Past"
      else if PyStr.is_str tense "Fut" || PyStr.is_str aspect "Prosp" then Some "Fut"
      else if String.eqb txt "fore" then Some "Fut"
      else if String.eqb lemma "sum" then
        let inside :=
          List.filter (λ j, negb (j =? inf_i) && in_subtree tokens children inf_i j)
                      (range 0 (len tokens)) in
        let saw_future :=
          existsb (λ j, fst (periphrasis_marks (tok tokens j))) inside in
        let saw_past :=
          existsb (λ j, snd (periphrasis_marks (tok tokens j))) inside in
        if saw_future then Some "Fut"
        else if saw_past then Some "Past"
        else Some "Pres"
      else Some "Pres"
  end.

(** The label table [classify_conditional] applies when no apodosis was
    found. *)
Definition protasis_only_label (pm pt pa : option string) : string :=
  if PyStr.is_str pm "Sub" && PyStr.is_str pt "Pres" then "future_less_vivid"
  else if PyStr.is_str pm "Sub" && PyStr.is_str pt "Past" && PyStr.is_str pa "Imp"
  then "present_contrafactual"
  else if PyStr.is_str pm "Sub" && (PyStr.is_str pt "Pqp" || PyStr.is_str pa "Perf")
  then "past_contrafactual"
  else if PyStr.is_str pm "Ind" && PyStr.is_str pt "Fut" then "future_more_vivid"
  else if PyStr.is_str pm "Ind" && PyStr.is_str pt "Pres" then "present_simple"
  else if PyStr.is_str pm "Ind" && PyStr.is_str pt "Past" then "past_simple"
  else "mixed".

Definition classify_conditional (tokens : list token) (children : gmap Z (list Z))
    (pv_i ap_i : option Z) (discourse : option discourse_info) : string :=
  let disc := match discourse with
              | Some d => ds_discourse d
              | None => "direct"
              end in
  if negb (valid_index tokens pv_i) then "unknown"
  else
    let pv_sig := predicate_signature tokens children pv_i in
    let pm := sg_mood pv_sig in
    let pt := sg_tense pv_sig in
    let pa := sg_aspect pv_sig in
    match ap_i with
    | None => protasis_only_label pm pt pa
    | Some ap =>
        if negb (in_range tokens ap) then protasis_only_label pm pt pa
        else
          let av := tok tokens ap in
          if is_infinitive av then
            let inf_time := infer_infinitive_time tokens children ap_i in
            if PyStr.startswith disc "indirect" then
              if PyStr.is_str pm "Sub" && PyStr.is_str pt "Pres" then "future_less_vivid"
              else if PyStr.is_str pm "Sub" && PyStr.is_str pt "Past"
                      && PyStr.is_str pa "Imp" then "present_contrafactual"
              else if PyStr.is_str pm "Sub"
                      && (PyStr.is_str pt "Pqp" || PyStr.is_str pa "Perf")
              then "past_contrafactual"
              else if PyStr.is_str pm "Ind" && PyStr.is_str pt "Fut"
                      && PyStr.is_str inf_time "Fut" then "future_more_vivid"
              else if PyStr.is_str pm "Ind" && PyStr.is_str pt "Pres"
                      && PyStr.is_str inf_time "Pres" then "present_simple"
              else if PyStr.is_str pm "Ind" && PyStr.is_str pt "Past"
                      && (PyStr.is_str inf_time "Past" || PyStr.is_str inf_time "Pres")
              then "past_simple"
              else if PyStr.is_str pm "Sub" then "future_less_vivid" else "mixed"
            else
              if PyStr.is_str pm "Sub" && PyStr.is_str pt "Pres" then "future_less_vivid"
              else if PyStr.is_str pm "Sub" && PyStr.is_str pt "Past"
                      && PyStr.is_str pa "Imp" then "present_contrafactual"
              else if PyStr.is_str pm "Sub"
                      && (PyStr.is_str pt "Pqp" || PyStr.is_str pa "Perf")
              then "past_contrafactual"
              else "mixed"
          else
            let av_sig := predicate_signature tokens children ap_i in
            let am := sg_mood av_sig in
            let at_ := sg_tense av_sig in
            let aa := sg_aspect av_sig in
            let prot_is_imperfect_subj :=
              PyStr.is_str pm "Sub" && PyStr.is_str pt "Past" && PyStr.is_str pa "Imp" in
            let apod_is_imperfect_subj :=
              PyStr.is_str am "Sub" && PyStr.is_str at_ "Past" && PyStr.is_str aa "Imp" in
            let prot_is_pluperfect_like :=
              PyStr.is_str pm "Sub" && (PyStr.is_str pt "Pqp" || PyStr.is_str pa "Perf") in
            let apod_is_pluperfect_like :=
              PyStr.is_str am "Sub" && (PyStr.is_str at_ "Pqp" || PyStr.is_str aa "Perf") in
            if String.eqb disc "direct" then
              if PyStr.is_str pm "Ind" && PyStr.is_str am "Ind" then
                if PyStr.is_str pt "Fut" && PyStr.is_str at_ "Fut" then "future_more_vivid"
                else if PyStr.is_str pt "Pres" && PyStr.is_str at_ "Pres"
                then "present_simple"
                else if PyStr.is_str pt "Past" && PyStr.is_str at_ "Past"
                then "past_simple"
                else "mixed_indicative"
              else if PyStr.is_str pm "Sub" && PyStr.is_str am "Sub" then
                if PyStr.is_str pt "Pres" && PyStr.is_str at_ "Pres"
                then "future_less_vivid"
                else if prot_is_imperfect_subj && apod_is_imperfect_subj
                then "present_contrafactual"
                else if prot_is_pluperfect_like && apod_is_pluperfect_like
                then "past_contrafactual"
                else "mixed_subjunctive"
              else "mixed"
            else if PyStr.is_str pm "Sub" then
              if PyStr.is_str pt "Pres" && PyStr.is_str at_ "Pres" && PyStr.is_str am "Sub"
              then "future_less_vivid"
              else if prot_is_imperfect_subj then "present_contrafactual"
              else if prot_is_pluperfect_like then "past_contrafactual"
              else "mixed_subjunctive"
            else if PyStr.is_str pm "Ind" then
              if PyStr.is_str pt "Fut" && PyStr.is_str at_ "Fut" && PyStr.is_str am "Ind"
              then "future_more_vivid"
              else if PyStr.is_str pt "Pres" && PyStr.is_str at_ "Pres"
                      && PyStr.is_str am "Ind"
              then "present_simple"
              else if PyStr.is_str pt "Past" && PyStr.is_str at_ "Past"
                      && PyStr.is_str am "Ind"
              then "past_simple"
              else "mixed"
            else "mixed"
    end.

(** ** Conditionals *)

Definition is_comma (t : token) : bool :=
  String.eqb (tk_upos t) "PUNCT" && String.eqb (tok_text t) ",".

Definition is_relative_like_verb (tokens : list token) (children : gmap Z (list Z))
    (j : Z) : bool :=
  PyStr.contains "relcl" (tk_deprel (tok tokens j))
  || existsb (λ c, let ct := tok tokens c in
                   PyStr.among (tk_upos ct) ["PRON"; "DET"]
                   && feats_has (feats_or_empty (tk_feats ct)) "PronType" "Rel")
             (children_get children j).

Definition comma_clause_bounds (tokens : list token)
    (center_i seg_start seg_end : Z) (include_trailing_comma : bool) : Z * Z :=
  let left0 :=
    match List.find (λ k, is_comma (tok tokens k)) (rev (range seg_start center_i)) with
    | Some k => k + 1
    | None => seg_start
    end in
  let right0 :=
    match List.find (λ k, is_comma (tok tokens k)) (range (center_i + 1) (seg_end + 1)) with
    | Some k => if include_trailing_comma then k else k - 1
    | None => seg_end
    end in
  let left := Z.max seg_start left0 in
  let right := Z.min seg_end right0 in
  if right <? left then (center_i, center_i) else (left, right).

Fixpoint ancestors_local (tokens : list token) (max_hops : nat) (cur : Z) : list Z :=
  match max_hops with
  | O => []
  | S hops' =>
      match head_index tokens (tok tokens cur) with
      | None => []
      | Some up => up :: ancestors_local tokens hops' up
      end
  end.

Definition is_indirect_head (t : token) : bool :=
  PyStr.among (PyStr.lower (tok_lemma t)) INDIRECT_HEAD_LEMMAS && is_finite_verb t.

(** The inner helper [mk] of [infer_discourse]. *)
Definition mk_discourse (tokens : list token) (statement : string)
    (sequence : option string) (head_i : option Z) (reason : string)
    : discourse_info :=
  let discourse :=
    if String.eqb statement "direct" then "direct"
    else match sequence with
         | Some s => if String.eqb s "" then "indirect" else "indirect_" +:+ s
         | None => "indirect"
         end in
  Discourse statement sequence head_i
            (match head_i with
             | Some h => get_tense (tok tokens h)
             | None => None
             end)
            discourse reason.

Definition infer_sequence_from_head (tokens : list token) (i : Z) : option string :=
  let ht := get_tense (tok tokens i) in
  if PyStr.is_str ht "Pres" || PyStr.is_str ht "Fut" then Some "primary"
  else if PyStr.is_str ht "Past" || PyStr.is_str ht "Pqp" then Some "secondary"
  else None.

(** [infer_discourse]; the detector always calls it with an integer
    [pv_i], so the anchor is [pv_i]. *)
Definition infer_discourse (tokens : list token) (pv_i : Z) (ap_i : option Z)
    (seg_start seg_end : Z) : discourse_info :=
  let from_ap := match ap_i with
                 | Some a => ancestors_local tokens 30 a
                 | None => []
                 end in
  match List.find (λ anc, is_indirect_head (tok tokens anc))
                  (ancestors_local tokens 30 pv_i ++ from_ap)%list with
  | Some anc =>
      mk_discourse tokens "indirect" (infer_sequence_from_head tokens anc)
                   (Some anc) "headverb_ancestor"
  | None =>
      let anchor := pv_i in
      let '(sb_start, sb_end) := sentence_bounds tokens anchor in
      let head_candidates :=
        List.filter (λ j, is_indirect_head (tok tokens j))
                    (range sb_start (sb_end + 1)) in
      match min_by_distance anchor head_candidates with
      | Some head_i =>
          mk_discourse tokens "indirect" (infer_sequence_from_head tokens head_i)
                       (Some head_i) "headverb_sentence_unit"
      | None =>
          let finite_in_seg :=
            List.filter (λ j, is_finite_verb (tok tokens j))
                        (range seg_start (seg_end + 1)) in
          let lone :=
            match finite_in_seg with
            | [] => true
            | [j] => j =? pv_i
            | _ => false
            end in
          let ap_is_inf := match ap_i with
                           | Some a => is_infinitive (tok tokens a)
                           | None => false
                           end in
          if ap_is_inf && lone then
            let pt := get_tense (tok tokens pv_i) in
            let seq :=
              if PyStr.is_str pt "Pres" then Some "primary"
              else if PyStr.is_str pt "Past" || PyStr.is_str pt "Pqp"
              then Some "secondary"
              else None in
            mk_discourse tokens "indirect" seq None "heuristic_infinitive_main"
          else mk_discourse tokens "direct" None None "default_direct"
      end
  end.

(** [(score, j)] tuples compare lexicographically; [l.sort(reverse=True)]
    followed by [l[0]] is the greatest tuple. *)
Definition item_gt (a b : Z * Z) : bool :=
  (b.1 <? a.1) || ((a.1 =? b.1) && (b.2 <? a.2)).

Definition greatest_item (l : list (Z * Z)) : option (Z * Z) :=
  match l with
  | [] => None
  | x :: rest => Some (foldl (λ best it, if item_gt it best then it else best) x rest)
  end.

Definition apodosis_score (tokens : list token) (children : gmap Z (list Z))
    (prefer_after_i j : Z) : Z :=
  let tj := tok tokens j in
  let s0 := if prefer_after_i <=? j then 0 + 6 - (j - prefer_after_i)
            else 0 - 2 - (prefer_after_i - j) in
  let s1 := if String.eqb (tk_deprel tj) "root" then s0 + 8 else s0 in
  let s2 := if String.eqb (tk_upos tj) "VERB" then s1 + 2 else s1 in
  let s3 := if is_indirect_head tj then s2 - 8 else s2 in
  if is_relative_like_verb tokens children j then s3 - 50 else s3.

Definition is_candidate (t : token) : bool :=
  if negb (PyStr.among (tk_upos t) ["VERB"; "AUX"]) then false
  else is_finite_verb t || is_infinitive t.

Definition pick_apodosis (tokens : list token) (children : gmap Z (list Z))
    (pv_i : Z) (protasis_nodes blocked_nodes : gset Z) (prefer_after_i : Z)
    (forbidden : gset Z) : option Z :=
  let '(seg_start, seg_end) := segment_bounds tokens pv_i in
  let eligible :=
    List.filter (λ j, negb (bool_decide (j ∈ protasis_nodes)
                            || bool_decide (j ∈ blocked_nodes)
                            || bool_decide (j ∈ forbidden))
                      && is_candidate (tok tokens j))
                (range seg_start (seg_end + 1)) in
  let item j := (apodosis_score tokens children prefer_after_i j, j) in
  let after := item <$> List.filter (λ j, prefer_after_i <=? j) eligible in
  let before := item <$> List.filter (λ j, negb (prefer_after_i <=? j)) eligible in
  match greatest_item after with
  | Some it => Some it.2
  | None =>
      match greatest_item before with
      | Some it => Some it.2
      | None => None
      end
  end.

(** An entry of the [protases] list built by the first pass. *)
Record protasis : Type := Protasis {
  pr_si_index : Z;
  pr_pv_i : Z;
  pr_seg_start : Z;
  pr_seg_end : Z;
  pr_protasis_nodes : gset Z
}.

(** The value kept per segment in [seg_key_to_info]: [blocked_nodes] and
    [last_protasis_end]. *)
Definition seg_info : Type := gset Z * Z.

Definition protasis_at (tokens : list token) (i : Z) (t : token)
    : option (protasis * Z) :=
  if negb (String.eqb (PyStr.lower (tok_text t)) "si")
     && negb (String.eqb (PyStr.lower (tok_lemma t)) "si") then None
  else if negb (String.eqb (tk_deprel t) "mark") then None
  else
    match head_index tokens t with
    | None => None
    | Some pv_i =>
        if has_strong_boundary_between tokens i pv_i then None
        else if negb (PyStr.among (tk_upos (tok tokens pv_i)) ["VERB"; "AUX"]) then None
        else
          let '(seg_start, seg_end) := segment_bounds tokens pv_i in
          let '(prot_left0, prot_right) :=
            comma_clause_bounds tokens pv_i seg_start seg_end true in
          let prot_left := Z.min prot_left0 i in
          let protasis_nodes : gset Z :=
            list_to_set (range prot_left (prot_right + 1)) in
          Some (Protasis i pv_i seg_start seg_end protasis_nodes, prot_right)
    end.

(** First pass of [tag_conditionals]: the protases in sentence order and
    the per-segment bookkeeping. *)
Definition collect_protases (tokens : list token)
    : list protasis * gmap (Z * Z) seg_info :=
  foldl (λ '(protases, seg_key_to_info) '(i, t),
           match protasis_at tokens i t with
           | None => (protases, seg_key_to_info)
           | Some (p, prot_right) =>
               let key := (pr_seg_start p, pr_seg_end p) in
               let info := default (∅, -1) (seg_key_to_info !! key) in
               ((protases ++ [p])%list,
                <[key := (info.1 ∪ pr_protasis_nodes p, Z.max info.2 prot_right)]>
                  seg_key_to_info)
           end)
        ([], ∅) (enumerate tokens).

(** [min(s)] and [max(s)] of a non-empty collection. *)
Definition py_min (l : list Z) : Z :=
  match l with [] => 0 | x :: rest => foldl Z.min x rest end.
Definition py_max (l : list Z) : Z :=
  match l with [] => 0 | x :: rest => foldl Z.max x rest end.

Definition label_or_unknown (label : string) : option string :=
  Some (if String.eqb label "" then "unknown" else label).

(** The apodosis and discourse the second pass settles on: a first pick,
    the discourse inferred with it, and a second pick that avoids the
    governing verb of indirect discourse when the first pick was that
    verb. *)
Definition choose_apodosis (tokens : list token) (children : gmap Z (list Z))
    (pv_i seg_start seg_end : Z) (protasis_nodes blocked_nodes : gset Z)
    (prefer_after_i : Z) : option Z * discourse_info :=
  let ap0 := pick_apodosis tokens children pv_i protasis_nodes blocked_nodes
                           prefer_after_i ∅ in
  let disc0 := infer_discourse tokens pv_i ap0 seg_start seg_end in
  let forbidden : gset Z :=
    match ds_head_verb_index disc0 with
    | Some h => {[h]}
    | None => ∅
    end in
  let ap_forbidden := match ap0 with
                      | Some a => bool_decide (a ∈ forbidden)
                      | None => false
                      end in
  if ap_forbidden then
    match pick_apodosis tokens children pv_i protasis_nodes blocked_nodes
                        prefer_after_i forbidden with
    | Some alt => (Some alt, infer_discourse tokens pv_i (Some alt) seg_start seg_end)
    | None => (ap0, disc0)
    end
  else (ap0, disc0).

(** [prot_start] and [prot_end]: the extremes of the protasis nodes with the
    marker and the verb added, clamped to the segment. *)
Definition protasis_span (i pv_i seg_start seg_end : Z) (protasis_nodes : gset Z)
    : Z * Z :=
  let prot_span_nodes : gset Z := {[pv_i]} ∪ ({[i]} ∪ protasis_nodes) in
  (Z.max seg_start (py_min (elements prot_span_nodes)),
   Z.min seg_end (py_max (elements prot_span_nodes))).

(** [ap_start] and [ap_end]: the comma-bounded clause around the apodosis,
    narrowed to the nodes of its subtree when that clause is a single
    token. *)
Definition apodosis_span (tokens : list token) (children : gmap Z (list Z))
    (ap_i seg_start seg_end : Z) : Z * Z :=
  let '(ap_start0, ap_end0) :=
    comma_clause_bounds tokens ap_i seg_start seg_end true in
  if ap_end0 - ap_start0 <? 1 then
    let '(clamp_left, clamp_right) :=
      comma_clause_bounds tokens ap_i seg_start seg_end true in
    let ap_nodes :=
      List.filter (λ j, in_subtree tokens children ap_i j)
                  (range clamp_left (clamp_right + 1)) in
    match ap_nodes with
    | [] => (ap_start0, ap_end0)
    | _ => (Z.max clamp_left (py_min ap_nodes), Z.min clamp_right (py_max ap_nodes))
    end
  else (ap_start0, ap_end0).

(** The ["conditional"] record shared by the two tags of a pair. *)
Definition conditional_meta (tokens : list token) (children : gmap Z (list Z))
    (pv_i : Z) (ap_i : option Z) (disc : discourse_info) : cond_meta :=
  let label := classify_conditional tokens children (Some pv_i) ap_i (Some disc) in
  let pv_sig := predicate_signature tokens children (Some pv_i) in
  let av_sig := predicate_signature tokens children ap_i in
  let '(apodosis_form, apodosis_inf_tense) :=
    match ap_i with
    | None => (None, None)
    | Some a =>
        let av := tok tokens a in
        if is_infinitive av
        then (Some "infinitive", infer_infinitive_time tokens children ap_i)
        else if is_finite_verb av then (Some "finite", None)
        else (None, None)
    end in
  CondMeta label (ds_discourse disc) (ds_sequence disc) (ds_statement disc)
           (ds_head_verb_index disc) (ds_head_verb_tense disc)
           pv_i pv_sig ap_i av_sig apodosis_form apodosis_inf_tense.

(** Second pass of [tag_conditionals], for one protasis. *)
Definition conditional_tags_of (tokens : list token) (children : gmap Z (list Z))
    (seg_key_to_info : gmap (Z * Z) seg_info) (item : protasis) : list tag :=
  let i := pr_si_index item in
  let pv_i := pr_pv_i item in
  let seg_start := pr_seg_start item in
  let seg_end := pr_seg_end item in
  let protasis_nodes := pr_protasis_nodes item in
  let info := default (∅, pv_i) (seg_key_to_info !! (seg_start, seg_end)) in
  let blocked_nodes := info.1 ∖ protasis_nodes in
  let prefer_after_i := Z.max pv_i info.2 in
  let '(ap_i, disc) :=
    choose_apodosis tokens children pv_i seg_start seg_end protasis_nodes
                    blocked_nodes prefer_after_i in
  let meta := conditional_meta tokens children pv_i ap_i disc in
  let '(prot_start, prot_end) :=
    protasis_span i pv_i seg_start seg_end protasis_nodes in
  let protasis_tag :=
    Tag "conditional_protasis" (label_or_unknown (cm_label meta)) prot_start prot_end
        [(prot_start, prot_end)] None 83 (Some meta)
        [("si_index", TInt i); ("protasis_verb_index", TInt pv_i);
         ("apodosis_verb_index", opt_int ap_i); ("rule", TStr "si+head")] in
  match ap_i with
  | None => [protasis_tag]
  | Some a =>
      let '(ap_start, ap_end) := apodosis_span tokens children a seg_start seg_end in
      [protasis_tag;
       Tag "conditional_apodosis" (label_or_unknown (cm_label meta)) ap_start ap_end
           [(ap_start, ap_end)] None 80 (Some meta)
           [("si_index", TInt i); ("protasis_verb_index", TInt pv_i);
            ("apodosis_verb_index", opt_int ap_i);
            ("rule", TStr "main-clause-bound-by-commas")]]
  end.

Definition tag_conditionals (tokens : list token) : list tag :=
  let children := build_children tokens in
  let '(protases, seg_key_to_info) := collect_protases tokens in
  flat_map (conditional_tags_of tokens children seg_key_to_info) protases.

(** ** Deduplicator and sentence driver *)

#[global] Instance trig_val_eq_dec : EqDecision trig_val.
Proof. solve_decision. Defined.

(** [sorted(trigger.items())]: the keys of a dictionary are distinct, so the
    tuples are ordered by key alone. *)
Fixpoint insert_item (x : string * trig_val) (l : list (string * trig_val))
    : list (string * trig_val) :=
  match l with
  | [] => [x]
  | y :: rest => if String.leb x.1 y.1 then x :: l else y :: insert_item x rest
  end.

Definition sorted_items (l : list (string * trig_val)) : list (string * trig_val) :=
  foldr insert_item [] l.

Definition tag_key : Type :=
  string * option string * list (Z * Z) * list (string * trig_val).

Definition dedup_key (t : tag) : tag_key :=
  (tg_type t, tg_subtype t, tg_highlight_spans t, sorted_items (tg_trigger t)).

(** One iteration of the loop of [dedup_tags] on the pair of [seen] (the
    set of keys, kept as a list) and [out_list]. *)
Definition dedup_step (acc : list tag_key * list tag) (t : tag)
    : list tag_key * list tag :=
  let '(seen, out_list) := acc in
  let key := dedup_key t in
  if bool_decide (key ∈ seen) then (seen, out_list)
  else (key :: seen, (out_list ++ [t])%list).

Definition dedup_tags (tag_list : list tag) : list tag :=
  snd (foldl dedup_step ([], []) tag_list).

(** The body of the loop over sentences at the end of the script: all
    detectors in their fixed order, then the deduplicator. *)
Definition sentence_tags (toks : list token) : list tag :=
  dedup_tags
    (tag_cum_clauses toks
     ++ tag_ablative_absolutes toks
     ++ tag_indirect_statements toks
     ++ tag_purpose_clauses toks
     ++ tag_relative_clauses toks
     ++ tag_gerunds_and_gerundives toks
     ++ tag_gerund_gerundive_flip toks
     ++ tag_conditionals toks)%list.

(** ** Reference tables of the specification

    Definitions that follow the words of the specification, to be compared
    with the functions above. *)

(** The discourse string [classify_conditional] reads from its last
    argument: [(discourse or {}).get("discourse", "direct")]. *)
Definition discourse_label (discourse : option discourse_info) : string :=
  match discourse with
  | Some d => ds_discourse d
  | None => "direct"
  end.

(** The tense the perfect passive periphrasis reports: [Pres] becomes
    [Past], [Past] becomes [Pqp], anything else is kept. *)
Definition copula_tense_shift (tense : option string) : option string :=
  if PyStr.is_str tense "Pres" then Some "Past"
  else if PyStr.is_str tense "Past" then Some "Pqp"
  else tense.

(** The table for direct discourse with both verbs subjunctive, read in the
    order it is written. *)
Definition direct_subjunctive_label (p a : signature) : string :=
  if PyStr.is_str (sg_tense p) "Pres" && PyStr.is_str (sg_tense a) "Pres"
  then "future_less_vivid"
  else if (PyStr.is_str (sg_tense p) "Past" && PyStr.is_str (sg_aspect p) "Imp")
          && (PyStr.is_str (sg_tense a) "Past" && PyStr.is_str (sg_aspect a) "Imp")
  then "present_contrafactual"
  else if (PyStr.is_str (sg_tense p) "Pqp" || PyStr.is_str (sg_aspect p) "Perf")
          && (PyStr.is_str (sg_tense a) "Pqp" || PyStr.is_str (sg_aspect a) "Perf")
  then "past_contrafactual"
  else "mixed_subjunctive".

(** The trigger dictionaries of the cum-clause and ablative-absolute tags. *)
Definition cum_trigger (cum_index verb_index : Z) : list (string * trig_val) :=
  [("cum_index", TInt cum_index); ("verb_index", TInt verb_index)].

Definition abl_abs_trigger (part_index abl_noun_index : Z) : list (string * trig_val) :=
  [("part_index", TInt part_index); ("abl_noun_index", TInt abl_noun_index)].

(** The invariant of the data model on one tag: [0 <= start <= end < n] and
    every highlight index a token position. *)
Definition span_ok (n : Z) (t : tag) : Prop :=
  0 ≤ tg_start t ∧ tg_start t ≤ tg_end t ∧ tg_end t < n
  ∧ ∀ a b, (a, b) ∈ tg_highlight_spans t → (0 ≤ a < n) ∧ (0 ≤ b < n).

(** The weaker half of the invariant: start, end and every highlight index
    are token positions. *)
Definition positions_ok (n : Z) (t : tag) : Prop :=
  (0 ≤ tg_start t < n) ∧ (0 ≤ tg_end t < n)
  ∧ ∀ a b, (a, b) ∈ tg_highlight_spans t → (0 ≤ a < n) ∧ (0 ≤ b < n).

(** What the first pass guarantees of a collected protasis: its verb is a
    token and its segment is the verb's segment. *)
Definition protasis_ok (tokens : list token) (p : protasis) : Prop :=
  (0 ≤ pr_pv_i p < len tokens)
  ∧ (pr_seg_start p, pr_seg_end p) = segment_bounds tokens (pr_pv_i p).

(** ** Tree index: reference notions

    One iteration of the loop of [build_children], the test "token [c] names
    [h] as its head", and reachability along the children lists. *)

Definition build_step (tokens : list token) (children : gmap Z (list Z)) (it : Z * token)
    : gmap Z (list Z) :=
  match head_index tokens it.2 with
  | Some h => alter (λ cs, (cs ++ [it.1])%list) h children
  | None => children
  end.

Definition points_to (tokens : list token) (h c : Z) : bool :=
  bool_decide (head_index tokens (tok tokens c) = Some h).

Definition head_of (tokens : list token) (h c : Z) : Prop :=
  0 ≤ c < len tokens ∧ head_index tokens (tok tokens c) = Some h.

Definition child_of (children : gmap Z (list Z)) (a c : Z) : Prop :=
  c ∈ children_get children a.

Inductive reach_avoiding (children : gmap Z (list Z)) (seen : gset Z) : Z → Z → Prop :=
  | reach_here (a : Z) : a ∉ seen → reach_avoiding children seen a a
  | reach_child (a c b : Z) :
      a ∉ seen → c ∈ children_get children a →
      reach_avoiding children seen c b → reach_avoiding children seen a b.

(** "venit ; vidit : vicit ." : three segments in one sentence unit. *)
Definition venit_vidit_vicit : list token := [
  Token "venit" "venio" "VERB" "root" (FStr "Mood=Ind|Tense=Past|VerbForm=Fin") (Some 0);
  Token ";" ";" "PUNCT" "punct" FNone (Some 1);
  Token "vidit" "video" "VERB" "conj" (FStr "Mood=Ind|Tense=Past|VerbForm=Fin") (Some 1);
  Token ":" ":" "PUNCT" "punct" FNone (Some 3);
  Token "vicit" "vinco" "VERB" "conj" (FStr "Mood=Ind|Tense=Past|VerbForm=Fin") (Some 1);
  Token "." "." "PUNCT" "punct" FNone (Some 1)
].

(** The run found by the two scans around [i]: inside the sentence, around
    [i], free of boundary tokens (apart from [i] itself, which is not
    tested), and closed by a boundary token or a sentence edge on each side. *)
Definition maximal_run (boundary : token → bool) (tokens : list token) (i : Z)
    (lr : Z * Z) : Prop :=
  (0 ≤ lr.1 ≤ i ∧ i ≤ lr.2 ≤ len tokens - 1)
  ∧ (∀ k, lr.1 ≤ k ≤ lr.2 → k ≠ i → boundary (tok tokens k) = false)
  ∧ (lr.1 = 0 ∨ boundary (tok tokens (lr.1 - 1)) = true)
  ∧ (lr.2 = len tokens - 1 ∨ boundary (tok tokens (lr.2 + 1)) = true).

(** The test that ends the scan of [find_next_boundary] at position [k]:
    punctuation, or a [parataxis] / [root] token other than the start. *)
Definition clause_stop (tokens : list token) (start_i k : Z) : bool :=
  is_punct (tok tokens k)
  || (PyStr.among (tk_deprel (tok tokens k)) ["parataxis"; "root"] && negb (k =? start_i)).

(** The guards of [tag_cum_clauses] on a marker position [i] and its head
    verb [v], in the order the loop tests them. *)
Definition cum_guards (tokens : list token) (i v : Z) : Prop :=
  0 ≤ i < len tokens
  ∧ PyStr.lower (tok_lemma (tok tokens i)) = "cum"
  ∧ PyStr.among (tk_upos (tok tokens i)) ["SCONJ"; "ADP"] = true
  ∧ PyStr.among (tk_deprel (tok tokens i)) ["mark"; "case"] = true
  ∧ head_index tokens (tok tokens i) = Some v
  ∧ has_strong_boundary_between tokens i v = false
  ∧ feats_has (feats_or_empty (tk_feats (tok tokens v))) "Mood" "Sub" = true
  ∧ is_finite_verb (tok tokens v) = true.

(** What [tag_indirect_statements] has established when it emits a tag for
    the speech verb [t] at position [i]: an infinitive child [inf_i] of the
    speech verb and an accusative noun-like token [acc_i] in the subtree of
    the infinitive, with no strong punctuation between the two. *)
Definition indirect_guards (tokens : list token) (i : Z) (t : token) (inf_i acc_i : Z)
    : Prop :=
  PyStr.among (tk_upos t) ["VERB"; "AUX"] = true
  ∧ PyStr.among (PyStr.lower (tok_lemma t)) SPEECH_LEMMAS = true
  ∧ head_of tokens i inf_i
  ∧ PyStr.among (tk_upos (tok tokens inf_i)) ["VERB"; "AUX"] = true
  ∧ is_infinitive (tok tokens inf_i) = true
  ∧ 0 ≤ acc_i < len tokens
  ∧ rtc (head_of tokens) inf_i acc_i
  ∧ is_nounish (tok tokens acc_i) = true
  ∧ feats_has (feats_or_empty (tk_feats (tok tokens acc_i))) "Case" "Acc" = true
  ∧ has_strong_boundary_between tokens acc_i inf_i = false.

(** "dicit Caesarem venire" *)
Definition dicit_caesarem_venire : list token := [
  Token "dicit" "dico" "VERB" "root" (FStr "Mood=Ind|Tense=Pres|VerbForm=Fin") (Some 0);
  Token "Caesarem" "Caesar" "PROPN" "nsubj" (FStr "Case=Acc|Gender=Masc|Number=Sing") (Some 3);
  Token "venire" "venio" "VERB" "ccomp" (FStr "Tense=Pres|VerbForm=Inf|Voice=Act") (Some 1)
].

(** The tag emitted for a speech verb [i] with infinitive [inf_i] and
    accusative subject [acc_i]. *)
Definition indirect_tag (tokens : list token) (i inf_i acc_i : Z) : tag :=
  let start := Z.min acc_i inf_i in
  let end_ := find_next_boundary tokens (Z.max acc_i inf_i) in
  Tag "indirect_statement" None start end_ [(acc_i, acc_i); (inf_i, inf_i)]
      (Some (start, end_))
      ((if Z.abs (acc_i - inf_i) <=? 6 then 90 else 85)
       + (if String.eqb (tk_deprel (tok tokens acc_i)) "nsubj" then 3 else 0))
      None
      [("speech_verb_index", TInt i); ("inf_index", TInt inf_i);
       ("acc_subject_index", TInt acc_i)].

(** The invariant of the first pass of [tag_conditionals] that the protasis
    verb is a verb or an auxiliary. *)
Definition protasis_verbal (tokens : list token) (p : protasis) : Prop :=
  PyStr.among (tk_upos (tok tokens (pr_pv_i p))) ["VERB"; "AUX"] = true.

(** The deduplicator as a recursion on the input: the tags kept from
    [tag_list] when the keys in [seen] have been met already. *)
Fixpoint dedup_from (seen : list tag_key) (tag_list : list tag) : list tag :=
  match tag_list with
  | [] => []
  | t :: rest =>
      if bool_decide (dedup_key t ∈ seen) then dedup_from seen rest
      else t :: dedup_from (dedup_key t :: seen) rest
  end.

(** The candidates [pick_apodosis] chooses from: verbs of the protasis
    verb's segment, finite or infinitive, outside the protasis, the blocked
    nodes and the forbidden set. *)
Definition eligible_apodosis (tokens : list token) (pv_i : Z)
    (protasis_nodes blocked_nodes forbidden : gset Z) (j : Z) : Prop :=
  ((segment_bounds tokens pv_i).1 ≤ j ≤ (segment_bounds tokens pv_i).2)
  ∧ (j ∉ protasis_nodes) ∧ (j ∉ blocked_nodes) ∧ (j ∉ forbidden)
  ∧ is_candidate (tok tokens j) = true.

(** What [pick_apodosis] guarantees of its answer [r]. *)
Definition best_apodosis (tokens : list token) (children : gmap Z (list Z))
    (pv_i : Z) (protasis_nodes blocked_nodes : gset Z) (prefer_after_i : Z)
    (forbidden : gset Z) (r : option Z) : Prop :=
  (r = None
   ↔ ∀ j, ¬ eligible_apodosis tokens pv_i protasis_nodes blocked_nodes forbidden j)
  ∧ ∀ a, r = Some a →
         eligible_apodosis tokens pv_i protasis_nodes blocked_nodes forbidden a
         ∧ ∀ j, eligible_apodosis tokens pv_i protasis_nodes blocked_nodes forbidden j →
                (prefer_after_i ≤ j → prefer_after_i ≤ a)
                ∧ ((prefer_after_i ≤ j ↔ prefer_after_i ≤ a) →
                   item_gt (apodosis_score tokens children prefer_after_i j, j)
                           (apodosis_score tokens children prefer_after_i a, a) = false).

(** The labels [classify_conditional] can return for a valid protasis. *)
Definition CONDITIONAL_LABELS : list string :=
  ["future_less_vivid"; "present_contrafactual"; "past_contrafactual";
   "future_more_vivid"; "present_simple"; "past_simple";
   "mixed"; "mixed_indicative"; "mixed_subjunctive"].

(** The values of the ["discourse"] field. *)
Definition DISCOURSE_VALUES : list string :=
  ["direct"; "indirect"; "indirect_primary"; "indirect_secondary"].

(** What a conditional tag [tg] says about its pair, for the metadata
    record [meta] it carries. *)
Definition conditional_anatomy (tokens : list token) (tg : tag) (meta : cond_meta) : Prop :=
  let pv := cm_protasis_verb_index meta in
  tg_subtype tg = Some (cm_label meta)
  ∧ cm_label meta ∈ CONDITIONAL_LABELS
  ∧ cm_discourse meta ∈ DISCOURSE_VALUES
  ∧ (0 ≤ pv < len tokens)
  ∧ PyStr.among (tk_upos (tok tokens pv)) ["VERB"; "AUX"] = true
  ∧ ((segment_bounds tokens pv).1 ≤ tg_start tg ∧ tg_start tg ≤ tg_end tg
     ∧ tg_end tg ≤ (segment_bounds tokens pv).2)
  ∧ tg_highlight_spans tg = [(tg_start tg, tg_end tg)]
  ∧ ((tg_type tg = "conditional_protasis" ∧ tg_start tg ≤ pv ≤ tg_end tg)
     ∨ (tg_type tg = "conditional_apodosis"
        ∧ ∃ a, cm_apodosis_verb_index meta = Some a
               ∧ a ≠ pv
               ∧ is_candidate (tok tokens a) = true
               ∧ tg_start tg ≤ a ≤ tg_end tg)).

(** What [infer_discourse] guarantees of its result [d], given the
    apodosis [ap_i] it was called with. *)
Definition discourse_wellformed (tokens : list token) (ap_i : option Z)
    (d : discourse_info) : Prop :=
  ds_discourse d ∈ DISCOURSE_VALUES
  ∧ (ds_discourse d = "direct" ↔ ds_statement d = "direct")
  ∧ (ds_statement d = "direct" ∨ ds_statement d = "indirect")
  ∧ (∀ h, ds_head_verb_index d = Some h →
          0 ≤ h < len tokens
          ∧ is_indirect_head (tok tokens h) = true
          ∧ ds_statement d = "indirect"
          ∧ ds_sequence d = infer_sequence_from_head tokens h
          ∧ ds_head_verb_tense d = get_tense (tok tokens h))
  ∧ (ds_head_verb_index d = None → ds_statement d = "indirect" →
     ds_head_verb_tense d = None
     ∧ ∃ a, ap_i = Some a ∧ is_infinitive (tok tokens a) = true).

(** The tag names the script declares in [out["meta"]["tags"]]. *)
Definition DECLARED_TAGS : list string :=
  ["cum_clause"; "abl_abs"; "indirect_statement"; "purpose_clause"; "result_clause";
   "relative_clause"; "gerund"; "gerundive"; "gerund_gerundive_flip";
   "conditional_protasis"; "conditional_apodosis"; "subjunctive_relative_clause"].

(** The subtypes each detector writes for a type. *)
Definition SUBTYPES_OF (ty : string) : list (option string) :=
  if String.eqb ty "purpose_clause"
  then [Some "ut_ne"; Some "ad_gerund"; Some "ad_noun_gerundive"]
  else if String.eqb ty "result_clause" then [Some "ut_correlative_result"]
  else if String.eqb ty "subjunctive_relative_clause" then [Some "qui_subj"]
  else if String.eqb ty "relative_clause" then [Some "subjunctive"; Some "indicative"]
  else if String.eqb ty "gerund_gerundive_flip"
  then [Some "gerund_form_with_object"; Some "gerundive_form_ad_phrase";
        Some "gerundive_form_ad_phrase_no_noun"]
  else if String.eqb ty "conditional_protasis" || String.eqb ty "conditional_apodosis"
  then Some <$> CONDITIONAL_LABELS
  else [None].

Definition declared_shape (tg : tag) : Prop :=
  tg_type tg ∈ DECLARED_TAGS
  ∧ tg_subtype tg ∈ SUBTYPES_OF (tg_type tg)
  ∧ 72 ≤ tg_confidence tg ≤ 94
  ∧ (is_Some (tg_conditional tg)
     ↔ tg_type tg = "conditional_protasis" ∨ tg_type tg = "conditional_apodosis")
  ∧ (is_Some (tg_full_span tg) ↔ tg_type tg = "indirect_statement").

(** ** The reviewer script

    Source: [server/scripts/caesar_pipeline/review_constructions.py], which
    reads the tagger's output back and validates every tag against its
    sentence.  The tags it reads are the records written by the tagger, so
    [start] and [end] are integers and [highlight_spans] is a list of pairs
    of integers (absent for the types without highlights, read as the empty
    list, which yields no problem either way); the branches for other JSON
    shapes are not reached on them. *)

Module Review.

Definition safe_slice (tokens : list token) (start end_ : Z) : list token :=
  let start := if start <? 0 then 0 else start in
  let end_ := if len tokens <=? end_ then len tokens - 1 else end_ in
  if end_ <? start then []
  else take (Z.to_nat (end_ + 1 - start)) (drop (Z.to_nat start) tokens).

(** [f"{pair}"] for a two-element list of integers. *)
Definition show_pair (a b : Z) : string :=
  "[" +:+ pretty a +:+ ", " +:+ pretty b +:+ "]".

Definition highlight_problems (n : Z) (pair : Z * Z) : list string :=
  let '(a, b) := pair in
  ((if (a <? 0) || (n <=? a) || (b <? 0) || (n <=? b)
    then ["highlight span out of range: " +:+ show_pair a b] else [])
   ++ (if b <? a then ["highlight span reversed: " +:+ show_pair a b] else []))%list.

Definition validate_tag (tokens : list token) (tg : tag) : list string :=
  let n := len tokens in
  let start := tg_start tg in
  let end_ := tg_end tg in
  ((if (start <? 0) || (n <=? start)
    then ["start out of range: " +:+ pretty start] else [])
   ++ (if (end_ <? 0) || (n <=? end_)
       then ["end out of range: " +:+ pretty end_] else [])
   ++ (if end_ <? start
       then ["start > end (" +:+ pretty start +:+ " > " +:+ pretty end_ +:+ ")"] else [])
   ++ flat_map (highlight_problems n) (tg_highlight_spans tg))%list.

End Review.

(** The highlight spans of a tag read left to right. *)
Definition highlights_ordered (tg : tag) : Prop :=
  ∀ a b, (a, b) ∈ tg_highlight_spans tg → a ≤ b.

(** ** Where a tag comes from

    The loop that writes a tag, read off its type and subtype, and the
    trigger entry in which that loop records its own position. *)
Definition detector_of (ty : string) (sub : option string) : Z :=
  if String.eqb ty "cum_clause" then 0
  else if String.eqb ty "abl_abs" then 1
  else if String.eqb ty "indirect_statement" then 2
  else if String.eqb ty "purpose_clause" then
    (if PyStr.opt_eqb sub (Some "ut_ne") then 3 else 4)
  else if String.eqb ty "result_clause" then 3
  else if String.eqb ty "subjunctive_relative_clause" then 5
  else if String.eqb ty "relative_clause" then 6
  else if String.eqb ty "gerund" || String.eqb ty "gerundive" then 7
  else if String.eqb ty "gerund_gerundive_flip" then
    (if PyStr.opt_eqb sub (Some "gerund_form_with_object") then 8 else 9)
  else 10.

Definition origin_name (detector : Z) : string :=
  if detector =? 0 then "cum_index"
  else if detector =? 1 then "part_index"
  else if detector =? 2 then "speech_verb_index"
  else if detector =? 3 then "marker_index"
  else if detector =? 4 then "ad_index"
  else if detector =? 5 then "rel_pron_index"
  else if detector =? 6 then "rel_pron_index"
  else if detector =? 7 then "index"
  else if detector =? 8 then "gerund_index"
  else if detector =? 9 then "ad_index"
  else "si_index".

Fixpoint trigger_get (name : string) (items : list (string * trig_val)) : option trig_val :=
  match items with
  | [] => None
  | (k, v) :: rest => if String.eqb k name then Some v else trigger_get name rest
  end.

Definition key_origin (k : tag_key) : Z * option trig_val * string :=
  let '(ty, sub, _, trigger) := k in
  (detector_of ty sub, trigger_get (origin_name (detector_of ty sub)) trigger, ty).

Definition origin (tg : tag) : Z * option trig_val * string := key_origin (dedup_key tg).

Definition origin_position (o : Z * option trig_val * string) : Z :=
  match o.1.2 with
  | Some (TInt i) => i
  | _ => -1
  end.

(** The tags of all detectors in the order of the driver, before
    de-duplication. *)
Definition all_tags (toks : list token) : list tag :=
  (tag_cum_clauses toks
   ++ tag_ablative_absolutes toks
   ++ tag_indirect_statements toks
   ++ tag_purpose_clauses toks
   ++ tag_relative_clauses toks
   ++ tag_gerunds_and_gerundives toks
   ++ tag_gerund_gerundive_flip toks
   ++ tag_conditionals toks)%list.

(** The loops of the detectors, numbered as [detector_of] numbers them. *)
Definition detector_parts (tokens : list token) : list (Z * list tag) :=
  let children := build_children tokens in
  [(0, tag_cum_clauses tokens);
   (1, tag_ablative_absolutes tokens);
   (2, tag_indirect_statements tokens);
   (3, omap (λ '(i, t), purpose_mark_at tokens i t) (enumerate tokens));
   (4, omap (λ '(i, t), purpose_ad_at tokens children i t) (enumerate tokens));
   (5, omap (λ '(i, t), purpose_relative_at tokens i t) (enumerate tokens));
   (6, tag_relative_clauses tokens);
   (7, tag_gerunds_and_gerundives tokens);
   (8, omap (flip_gerund_at tokens children) (range 0 (len tokens)));
   (9, omap (λ '(i, t), flip_ad_at tokens children i t) (enumerate tokens));
   (10, tag_conditionals tokens)].

(** The two tags written for a relative pronoun [i] whose verb [vi] is
    subjunctive: by [tag_purpose_clauses] and by [tag_relative_clauses]. *)
Definition subjunctive_relative_tag (i vi : Z) : tag :=
  Tag "subjunctive_relative_clause" (Some "qui_subj")
      (Z.min i vi) (Z.max i vi) [(i, i); (vi, vi)] None 90 None
      [("rel_pron_index", TInt i); ("verb_index", TInt vi); ("rule", TStr "rel+subj")].

Definition relative_subjunctive_tag (i vi : Z) : tag :=
  Tag "relative_clause" (Some "subjunctive")
      (Z.min i vi) (Z.max i vi) [(i, i); (vi, vi)] None 90 None
      [("rel_pron_index", TInt i); ("verb_index", TInt vi);
       ("rule", TStr "PronType=Rel+finite")].

(** ** The two encodings of a feature bag

    The UD string [k1=v1|k2=v2|...] for a list of entries, to be compared
    with the dictionary of the same entries. *)
Fixpoint has_char (c : ascii) (s : string) : bool :=
  match s with
  | EmptyString => false
  | String c' s' => Ascii.eqb c' c || has_char c s'
  end.






(** A sentence whose tokens carry their features as dictionaries (or carry
    none), with ordinary keys. *)
Definition dict_bag (f : feats_val) : Prop :=
  match f with
  | FNone => True
  | FDict d => ∀ k, is_Some (d !! k) → has_char "=" k = false
  | _ => False
  end.

Definition dict_encoded (tokens : list token) : Prop :=
  ∀ t, t ∈ tokens → dict_bag (tk_feats t).

(** "ad pacem petendam" with the features as dictionaries. *)
Definition ad_pacem_petendam_dict : list token := [
  Token "ad" "ad" "ADP" "case" FNone (Some 2);
  Token "pacem" "pax" "NOUN" "obl"
        (FDict (list_to_map [("Case", "Acc"); ("Gender", "Fem"); ("Number", "Sing")]))
        (Some 0);
  Token "petendam" "peto" "VERB" "acl"
        (FDict (list_to_map [("Aspect", "Prosp"); ("Case", "Acc"); ("Gender", "Fem");
                             ("Number", "Sing"); ("VerbForm", "Part"); ("Voice", "Pass")]))
        (Some 2)
].

(** The tags [tag_gerunds_and_gerundives] writes for position [i]. *)
Definition gerund_tag (i : Z) : tag :=
  Tag "gerund" None i i [] None 94 None
      [("index", TInt i); ("rule", TStr "FPP_neut_sing_substantive")].

Definition gerundive_tag (i : Z) : tag :=
  Tag "gerundive" None i i [] None 92 None
      [("index", TInt i); ("rule", TStr "FPP_other")].

(** Every gerund or gerundive position a trigger names is one. *)
Definition gerund_refs_ok (tokens : list token) (tg : tag) : Prop :=
  (∀ g, trigger_get "gerund_index" (tg_trigger tg) = Some (TInt g) →
        0 ≤ g < len tokens ∧ is_gerund tokens g = true)
  ∧ (∀ g, trigger_get "gerundive_index" (tg_trigger tg) = Some (TInt g) →
          0 ≤ g < len tokens ∧ is_gerundive tokens g = true).


(** The test [t in RESULT_CORRELATIVES or lem in RESULT_CORRELATIVES] of
    [has_result_correlative] on the token at [j], and the marker test
    [is_ut_like] of [tag_purpose_clauses]. *)
Definition is_correlative (tokens : list token) (j : Z) : bool :=
  PyStr.among (PyStr.lower (tok_text (tok tokens j))) RESULT_CORRELATIVES
  || PyStr.among (PyStr.lower (tok_lemma (tok tokens j))) RESULT_CORRELATIVES.

Definition is_ut_like (t : token) : bool :=
  PyStr.among (PyStr.lower (tok_text t)) ["ut"; "uti"]
  || PyStr.among (PyStr.lower (tok_lemma t)) ["ut"; "uti"].

(** What [has_result_correlative] answers for a marker at [marker_i]: the
    last correlative of the marker's segment before the marker. *)
Definition last_correlative (tokens : list token) (marker_i : Z)
    (r : bool * option Z) : Prop :=
  (r.1 = true ↔ is_Some r.2)
  ∧ (∀ j, r.2 = Some j →
          ((segment_bounds tokens marker_i).1 ≤ j < marker_i)
          ∧ is_correlative tokens j = true
          ∧ ∀ k, j < k < marker_i → is_correlative tokens k = false)
  ∧ (r.2 = None →
     ∀ k, (segment_bounds tokens marker_i).1 ≤ k < marker_i →
          is_correlative tokens k = false).

(** The guards of the first loop of [tag_purpose_clauses] on a marker [t] at
    [i] with head verb [vi], and the two tags the loop can write. *)
Definition purpose_guards (tokens : list token) (i : Z) (t : token) (vi : Z) : Prop :=
  (PyStr.among (PyStr.lower (tok_text t)) UT_MARKERS = true
   ∨ PyStr.among (PyStr.lower (tok_lemma t)) UT_MARKERS = true)
  ∧ head_index tokens t = Some vi
  ∧ has_strong_boundary_between tokens i vi = false
  ∧ is_finite_verb (tok tokens vi) = true
  ∧ is_subjunctive (tok tokens vi) = true.

Definition purpose_ut_tag (i vi : Z) : tag :=
  Tag "purpose_clause" (Some "ut_ne") (Z.min i vi) (Z.max i vi) [(i, i); (vi, vi)]
      None 93 None
      [("marker_index", TInt i); ("verb_index", TInt vi); ("rule", TStr "mark+subj")].

Definition result_tag (i vi j : Z) : tag :=
  Tag "result_clause" (Some "ut_correlative_result") (Z.min i vi) (Z.max i vi)
      [(i, i); (vi, vi)] None 93 None
      [("marker_index", TInt i); ("verb_index", TInt vi);
       ("rule", TStr "ut/uti+subj+correlative"); ("correlative_index", TInt j)].

(** "tam fortis erat ut vinceret" *)
Definition tam_fortis_ut : list token := [
  Token "tam" "tam" "ADV" "advmod" FNone (Some 2);
  Token "fortis" "fortis" "ADJ" "root" (FStr "Case=Nom|Gender=Masc|Number=Sing") (Some 0);
  Token "erat" "sum" "AUX" "cop" (FStr "Mood=Ind|Tense=Past|VerbForm=Fin") (Some 2);
  Token "ut" "ut" "SCONJ" "mark" FNone (Some 5);
  Token "vinceret" "vinco" "VERB" "advcl"
        (FStr "Aspect=Imp|Mood=Sub|Tense=Past|VerbForm=Fin") (Some 2)
].

(** What the first loop of [tag_purpose_clauses] writes for the token at
    [i]: a result clause for ut/uti with a correlative before it in its
    segment, a purpose clause otherwise. *)
Definition purpose_or_result (tokens : list token) (i : Z) : Prop :=
  last_correlative tokens i (has_result_correlative tokens i)
  ∧ ∀ tg, purpose_mark_at tokens i (tok tokens i) = Some tg
          ↔ ∃ vi, purpose_guards tokens i (tok tokens i) vi
                  ∧ ((is_ut_like (tok tokens i) = true
                      ∧ ∃ j, (has_result_correlative tokens i).2 = Some j
                             ∧ tg = result_tag i vi j)
                     ∨ ((is_ut_like (tok tokens i) = false
                         ∨ (has_result_correlative tokens i).2 = None)
                        ∧ tg = purpose_ut_tag i vi)).

(** [x] is the first element of [l] at the least distance from [center]. *)
Definition first_nearest (center : Z) (l : list Z) (x : Z) : Prop :=
  ∃ l1 l2, l = (l1 ++ x :: l2)%list
           ∧ (∀ y, y ∈ l1 → Z.abs (x - center) < Z.abs (y - center))
           ∧ (∀ y, y ∈ l2 → Z.abs (x - center) ≤ Z.abs (y - center)).

(** The guards of [tag_ablative_absolutes] on the participle at [i], and the
    noun [n] its inner loop stops at: the first child of [i], in sentence
    order, that passes the body of the loop. *)
Definition abl_participle (t : token) : Prop :=
  tk_upos t = "VERB"
  ∧ feats_has (feats_or_empty (tk_feats t)) "VerbForm" "Part" = true
  ∧ feats_has (feats_or_empty (tk_feats t)) "Case" "Abl" = true.

Definition first_abl_noun (tokens : list token) (i n : Z) : Prop :=
  let feats := feats_or_empty (tk_feats (tok tokens i)) in
  let matches c := abl_noun_matches tokens (get_feat feats "Gender")
                                    (get_feat feats "Number") c in
  head_of tokens i n
  ∧ matches n = true
  ∧ ∀ c, c < n → head_of tokens i c → matches c = false.

Definition abl_abs_tag (i n : Z) : tag :=
  Tag "abl_abs" None (Z.min i n) (Z.max i n) [(i, i); (n, n)] None 88 None
      (abl_abs_trigger i n).

(** What the climb from a relative pronoun [i] guarantees of the verb [v] it
    returns, and the tag [tag_relative_clauses] writes for the pair. *)
Definition relative_verb (tokens : list token) (i v : Z) : Prop :=
  (0 ≤ v < len tokens)
  ∧ is_finite_verb (tok tokens v) = true
  ∧ has_strong_boundary_between tokens i v = false
  ∧ rtc (head_of tokens) v i
  ∧ in_subtree tokens (build_children tokens) v i = true.

Definition relative_tag (i v : Z) (subtype : string) (confidence : Z) : tag :=
  Tag "relative_clause" (Some subtype) (Z.min i v) (Z.max i v) [(i, i); (v, v)]
      None confidence None
      [("rel_pron_index", TInt i); ("verb_index", TInt v);
       ("rule", TStr "PronType=Rel+finite")].

(** The fallback of [classify_conditional] for an infinitive apodosis under
    indirect discourse, the one place where a label is given on the mood of
    the protasis alone. *)
Definition indirect_infinitive (tokens : list token) (ap_i : option Z)
    (discourse : option discourse_info) : Prop :=
  ∃ ap d, ap_i = Some ap ∧ discourse = Some d
          ∧ (0 ≤ ap < len tokens)
          ∧ is_infinitive (tok tokens ap) = true
          ∧ PyStr.startswith (ds_discourse d) "indirect" = true.

(** What a label says of the mood, tense and aspect of the protasis. *)
Definition label_fits (label : string) (pm pt pa : option string) (fallback : Prop) : Prop :=
  (label = "future_less_vivid" → pm = Some "Sub" ∧ (pt = Some "Pres" ∨ fallback))
  ∧ (label = "present_contrafactual" →
     pm = Some "Sub" ∧ pt = Some "Past" ∧ pa = Some "Imp")
  ∧ (label = "past_contrafactual" →
     pm = Some "Sub" ∧ (pt = Some "Pqp" ∨ pa = Some "Perf"))
  ∧ (label = "future_more_vivid" → pm = Some "Ind" ∧ pt = Some "Fut")
  ∧ (label = "present_simple" → pm = Some "Ind" ∧ pt = Some "Pres")
  ∧ (label = "past_simple" → pm = Some "Ind" ∧ pt = Some "Past")
  ∧ (label = "mixed_indicative" → pm = Some "Ind")
  ∧ (label = "mixed_subjunctive" → pm = Some "Sub").

(** ** Worked sentences *)

(** "cum Caesar in Galliam citeriorem venisset": the marker at position 0
    points (head = 6) at the verb at position 5. *)
Definition cum_sentence : list token := [
  Token "cum" "cum" "SCONJ" "mark" FNone (Some 6);
  Token "Caesar" "Caesar" "PROPN" "nsubj" (FStr "Case=Nom|Gender=Masc|Number=Sing") (Some 6);
  Token "in" "in" "ADP" "case" FNone (Some 4);
  Token "Galliam" "Gallia" "PROPN" "obl" (FStr "Case=Acc|Gender=Fem|Number=Sing") (Some 6);
  Token "citeriorem" "citerior" "ADJ" "amod" (FStr "Case=Acc|Gender=Fem|Number=Sing") (Some 4);
  Token "venisset" "venio" "VERB" "root"
        (FStr "Aspect=Perf|Mood=Sub|Tense=Past|VerbForm=Fin") (Some 0)
].

(** The same clause with the verb's [VerbForm] left out by the parser. *)
Definition cum_sentence_no_verbform : list token := [
  Token "cum" "cum" "SCONJ" "mark" FNone (Some 3);
  Token "Caesar" "Caesar" "PROPN" "nsubj" (FStr "Case=Nom|Gender=Masc|Number=Sing") (Some 3);
  Token "venisset" "venio" "VERB" "root" (FStr "Aspect=Perf|Mood=Sub|Tense=Past") (Some 0)
].

(** "venisset , cum": the marker stands after its verb, a comma between. *)
Definition cum_after_verb : list token := [
  Token "venisset" "venio" "VERB" "root" (FStr "Mood=Sub|VerbForm=Fin") (Some 0);
  Token "," "," "PUNCT" "punct" FNone (Some 1);
  Token "cum" "cum" "SCONJ" "mark" FNone (Some 1)
].

(** "si id fecisset , eum punivisset" *)
Definition si_sentence : list token := [
  Token "si" "si" "SCONJ" "mark" FNone (Some 3);
  Token "id" "is" "PRON" "obj" (FStr "Case=Acc|Gender=Neut|Number=Sing") (Some 3);
  Token "fecisset" "facio" "VERB" "advcl"
        (FStr "Aspect=Perf|Mood=Sub|Tense=Pqp|VerbForm=Fin|Voice=Act") (Some 6);
  Token "," "," "PUNCT" "punct" FNone (Some 3);
  Token "eum" "is" "PRON" "obj" (FStr "Case=Acc|Gender=Masc|Number=Sing") (Some 6);
  Token "punivisset" "punio" "VERB" "root"
        (FStr "Aspect=Perf|Mood=Sub|Tense=Pqp|VerbForm=Fin|Voice=Act") (Some 0)
].

(** "si hoc cepisset , illum laudavisset": other words, same features. *)
Definition si_sentence_alt : list token := [
  Token "si" "si" "SCONJ" "mark" FNone (Some 3);
  Token "hoc" "hic" "PRON" "obj" (FStr "Case=Acc|Gender=Neut|Number=Sing") (Some 3);
  Token "cepisset" "capio" "VERB" "advcl"
        (FStr "Aspect=Perf|Mood=Sub|Tense=Pqp|VerbForm=Fin|Voice=Act") (Some 6);
  Token "," "," "PUNCT" "punct" FNone (Some 3);
  Token "illum" "ille" "PRON" "obj" (FStr "Case=Acc|Gender=Masc|Number=Sing") (Some 6);
  Token "laudavisset" "laudo" "VERB" "root"
        (FStr "Aspect=Perf|Mood=Sub|Tense=Pqp|VerbForm=Fin|Voice=Act") (Some 0)
].

(** "si veniat , gaudeat" with no [VerbForm] on either verb. *)
Definition si_sentence_no_verbform : list token := [
  Token "si" "si" "SCONJ" "mark" FNone (Some 2);
  Token "veniat" "venio" "VERB" "advcl" (FStr "Mood=Sub|Tense=Pres") (Some 4);
  Token "," "," "PUNCT" "punct" FNone (Some 2);
  Token "gaudeat" "gaudeo" "VERB" "root" (FStr "Mood=Sub|Tense=Pres") (Some 0)
].

(** "dixit si veniat , gaudeat": a governing speech verb with no
    [VerbForm]. *)
Definition dixit_sentence : list token := [
  Token "dixit" "dico" "VERB" "root" (FStr "Mood=Ind|Tense=Past") (Some 0);
  Token "si" "si" "SCONJ" "mark" FNone (Some 3);
  Token "veniat" "venio" "VERB" "advcl" (FStr "Mood=Sub|Tense=Pres|VerbForm=Fin") (Some 5);
  Token "," "," "PUNCT" "punct" FNone (Some 3);
  Token "gaudeat" "gaudeo" "VERB" "ccomp" (FStr "Mood=Sub|Tense=Pres|VerbForm=Fin") (Some 1)
].

(** "qui venit" with no [VerbForm] on the verb. *)
Definition qui_sentence_no_verbform : list token := [
  Token "qui" "qui" "PRON" "nsubj" (FStr "Case=Nom|PronType=Rel") (Some 2);
  Token "venit" "venio" "VERB" "acl:relcl" (FStr "Mood=Ind|Tense=Pres") (Some 0)
].

(** "si veniet , fore" and "si veniet , esse": an infinitive apodosis whose
    features carry no tense. *)
Definition si_fore : list token := [
  Token "si" "si" "SCONJ" "mark" FNone (Some 2);
  Token "veniet" "venio" "VERB" "advcl" (FStr "Mood=Ind|Tense=Fut|VerbForm=Fin") (Some 4);
  Token "," "," "PUNCT" "punct" FNone (Some 2);
  Token "fore" "sum" "AUX" "root" (FStr "VerbForm=Inf") (Some 0)
].

Definition si_esse : list token := [
  Token "si" "si" "SCONJ" "mark" FNone (Some 2);
  Token "veniet" "venio" "VERB" "advcl" (FStr "Mood=Ind|Tense=Fut|VerbForm=Fin") (Some 4);
  Token "," "," "PUNCT" "punct" FNone (Some 2);
  Token "esse" "sum" "AUX" "root" (FStr "VerbForm=Inf") (Some 0)
].

(** "veniens factus est": the copula has two participial children, an
    active one first and a perfect passive one second. *)
Definition two_participles : list token := [
  Token "veniens" "venio" "VERB" "advcl"
        (FStr "Aspect=Imp|Case=Nom|Tense=Pres|VerbForm=Part|Voice=Act") (Some 3);
  Token "factus" "facio" "VERB" "xcomp"
        (FStr "Aspect=Perf|Case=Nom|VerbForm=Part|Voice=Pass") (Some 3);
  Token "est" "sum" "AUX" "root" (FStr "Mood=Ind|Tense=Pres|VerbForm=Fin") (Some 0)
].

(** "factus est" *)
Definition factus_est : list token := [
  Token "factus" "facio" "VERB" "xcomp"
        (FStr "Aspect=Perf|Case=Nom|VerbForm=Part|Voice=Pass") (Some 2);
  Token "est" "sum" "AUX" "root" (FStr "Mood=Ind|Tense=Pres|VerbForm=Fin") (Some 0)
].

(** "ad pacem petendam" *)
Definition ad_pacem_petendam : list token := [
  Token "ad" "ad" "ADP" "case" FNone (Some 2);
  Token "pacem" "pax" "NOUN" "obl" (FStr "Case=Acc|Gender=Fem|Number=Sing") (Some 0);
  Token "petendam" "peto" "VERB" "acl"
        (FStr "Aspect=Prosp|Case=Acc|Gender=Fem|Number=Sing|VerbForm=Part|Voice=Pass")
        (Some 2)
].

(** "urbe capta" *)
Definition urbe_capta : list token := [
  Token "urbe" "urbs" "NOUN" "nsubj:pass" (FStr "Case=Abl|Gender=Fem|Number=Sing") (Some 2);
  Token "capta" "capio" "VERB" "advcl"
        (FStr "Aspect=Perf|Case=Abl|Gender=Fem|Number=Sing|VerbForm=Part|Voice=Pass")
        (Some 0)
].

(** Two tokens that are each other's head. *)
Definition head_cycle : list token := [
  Token "a" "a" "X" "dep" FNone (Some 2);
  Token "b" "b" "X" "dep" FNone (Some 1)
].

(** ** Python tests as propositions *)

Lemma is_str_true (x : option string) (v : string) :
  PyStr.is_str x v = true ↔ x = Some v.
Proof.
  destruct x as [s|]; simpl.
  - rewrite String.eqb_eq. split; congruence.
  - split; discriminate.
Qed.

Lemma opt_eqb_true (a b : option string) : PyStr.opt_eqb a b = true ↔ a = b.
Proof.
  destruct a as [x|], b as [y|]; simpl; try (split; congruence).
  rewrite String.eqb_eq. split; congruence.
Qed.

Lemma among_true (x : string) (l : list string) : PyStr.among x l = true ↔ x ∈ l.
Proof.
  unfold PyStr.among. rewrite existsb_exists. split.
  - intros (y & Hy & He). apply String.eqb_eq in He. subst. by apply list_elem_of_In.
  - intros H. exists x. split; [by apply list_elem_of_In | apply String.eqb_refl].
Qed.


(** ** Feature accessor *)

Lemma feats_scan_absent (parts : list string) (key : string) :
  (∀ part v, part ∈ parts → PyStr.split_once "=" part ≠ Some (key, v)) →
  feats_scan parts key = None.
Proof.
  induction parts as [|p ps IH]; intros H; simpl; [done|].
  destruct (PyStr.split_once "=" p) as [[k v]|] eqn:E.
  - destruct (String.eqb k key) eqn:Ek.
    + apply String.eqb_eq in Ek. subst k. exfalso. eapply (H p v); [left | exact E].
    + apply IH. intros part v' Hin. apply H. by right.
  - apply IH. intros part v' Hin. apply H. by right.
Qed.

(** C8, as stated, fails: a feature bag in the UD string encoding is not a
    dictionary, yet [feats_get] parses it and returns the value found. *)
Lemma feats_get_string_bag_is_parsed :
  (∀ d, FStr "Case=Abl|Number=Sing" ≠ FDict d)
  ∧ feats_get (FStr "Case=Abl|Number=Sing") "Case" = Some "Abl"
  ∧ feats_get (FStr "Case=Abl|Number=Sing") "Number" = Some "Sing".
Proof. split; [intros d; discriminate | split; reflexivity]. Qed.

(** C8, amended: [feats_get] is a total function that yields [None] for an
    absent or empty bag, for a bag that is neither a dictionary nor a string,
    for a dictionary without the key and for a string bag none of whose
    [key=value] parts carries the key; a string bag is otherwise parsed and
    yields the value of its first part with that key.  A token whose feats
    are [None] yields [None] for every key, and [feats_has] is the equality
    test on [feats_get]. *)
Theorem feats_get_soft (feats : feats_val) (key : string) :
  (feats_truthy feats = false → feats_get feats key = None)
  ∧ (∀ l, feats = FList l → feats_get feats key = None)
  ∧ (∀ d, feats = FDict d → feats_get feats key = d !! key)
  ∧ (∀ s, feats = FStr s →
       feats_get feats key = feats_scan (PyStr.split "|" s) key
       ∧ ((∀ part v, part ∈ PyStr.split "|" s →
                     PyStr.split_once "=" part ≠ Some (key, v)) →
          feats_get feats key = None))
  ∧ feats_get FNone key = None
  ∧ feats_get (feats_or_empty FNone) key = None
  ∧ (∀ value,
       feats_has feats key value = bool_decide (feats_get feats key = Some value)).
Proof.
  repeat split.
  - intros H. unfold feats_get. by rewrite H.
  - intros l ->. unfold feats_get. by destruct (negb _).
  - intros d ->. unfold feats_get. simpl.
    case_bool_decide as Hd; simpl; [subst d; by rewrite lookup_empty | done].
  - subst feats. unfold feats_get. simpl. destruct s; done.
  - intros Habs. subst feats. unfold feats_get.
    destruct (negb _); [done|]. by apply feats_scan_absent.
  - intros value. unfold feats_has.
    destruct (PyStr.opt_eqb _ _) eqn:E.
    + apply opt_eqb_true in E. by rewrite bool_decide_eq_true_2.
    + rewrite bool_decide_eq_false_2; [done|].
      intros H. apply opt_eqb_true in H. congruence.
Qed.

(** ** Gerund versus gerundive *)

(** C4: at every position of the sentence, a future passive participle is a
    gerund or a gerundive and not both, and a token that is not a future
    passive participle is neither. *)
Theorem gerund_gerundive_exclusive (tokens : list token) (gi : Z) :
  in_range tokens gi = true →
  (is_future_passive_participle (tok tokens gi) = true →
     (is_gerund tokens gi = true ∧ is_gerundive tokens gi = false)
     ∨ (is_gerund tokens gi = false ∧ is_gerundive tokens gi = true))
  ∧ (is_future_passive_participle (tok tokens gi) = false →
     is_gerund tokens gi = false ∧ is_gerundive tokens gi = false).
Proof.
  intros _. unfold is_gerundive. split; intros Hf.
  - rewrite Hf. simpl. destruct (is_gerund tokens gi); [left | right]; done.
  - unfold is_gerund. rewrite Hf. done.
Qed.

Lemma gerund_gerundive_exclusive_witness :
  in_range ad_pacem_petendam 2 = true
  ∧ is_future_passive_participle (tok ad_pacem_petendam 2) = true
  ∧ is_gerund ad_pacem_petendam 2 = false
  ∧ is_gerundive ad_pacem_petendam 2 = true.
Proof.
  assert (Hr : in_range ad_pacem_petendam 2 = true) by reflexivity.
  destruct (gerund_gerundive_exclusive ad_pacem_petendam 2 Hr) as [Hone _].
  split; [exact Hr|]. split; [reflexivity|].
  destruct (Hone eq_refl) as [[Hg _]|[Hg Hv]].
  - vm_compute in Hg. discriminate.
  - split; assumption.
Defined.

(** ** Token lookup and enumeration *)

Lemma tok_lookup (tokens : list token) (k : nat) (t : token) :
  tokens !! k = Some t →
  in_range tokens (Z.of_nat k) = true ∧ tok tokens (Z.of_nat k) = t.
Proof.
  intros H. pose proof (lookup_lt_Some _ _ _ H) as Hlt.
  assert (Hr : in_range tokens (Z.of_nat k) = true).
  { unfold in_range, len. apply andb_true_iff.
    split; [apply Z.leb_le | apply Z.ltb_lt]; lia. }
  split; [exact Hr|]. unfold tok. rewrite Hr, Nat2Z.id.
  by apply list_lookup_total_correct.
Qed.

Lemma enumerate_elem (tokens : list token) (i : Z) (t : token) :
  (i, t) ∈ enumerate tokens ↔ (0 ≤ i ∧ tokens !! Z.to_nat i = Some t).
Proof.
  unfold enumerate. rewrite elem_of_lookup_zip_with. split.
  - intros (k & x & y & Heq & Hx & Hy). inversion Heq; subst x y.
    apply lookup_seqZ in Hx as [-> _]. rewrite Z.add_0_l, Nat2Z.id. split; [lia | done].
  - intros [H0 Ht]. exists (Z.to_nat i), i, t. split; [done|]. split; [|done].
    apply lookup_seqZ. pose proof (lookup_lt_Some _ _ _ Ht). unfold len. lia.
Qed.

Lemma enumerate_tok (tokens : list token) (i : Z) (t : token) :
  (i, t) ∈ enumerate tokens → in_range tokens i = true ∧ tok tokens i = t.
Proof.
  intros [H0 Ht]%enumerate_elem.
  destruct (tok_lookup _ _ _ Ht) as [Hr Hk]. by rewrite Z2Nat.id in Hr, Hk.
Qed.

Lemma enumerate_cons (t : token) (rest : list token) :
  enumerate (t :: rest) = (0, t) :: zip (seqZ 1 (len rest)) rest.
Proof.
  unfold enumerate, len. cbn [length].
  rewrite seqZ_cons by lia. cbn [zip_with].
  replace (Z.pred (Z.of_nat (S (length rest)))) with (Z.of_nat (length rest)) by lia.
  reflexivity.
Qed.

Lemma elem_of_range (a b i : Z) : i ∈ range a b ↔ a ≤ i < b.
Proof. unfold range. rewrite elem_of_seqZ. lia. Qed.

Lemma omap_all_none {A B : Type} (f : A → option B) (l : list A) :
  (∀ x, x ∈ l → f x = None) → omap f l = [].
Proof.
  induction l as [|x l IH]; intros H; [done|].
  cbn [omap list_omap]. rewrite (H x) by left. apply IH. intros y Hy. apply H. by right.
Qed.

(** ** Finite verbs *)

Lemma verbal_upos (t : token) :
  PyStr.among (tk_upos t) ["VERB"; "AUX"] = true ↔ tk_upos t = "VERB" ∨ tk_upos t = "AUX".
Proof. rewrite among_true. rewrite !elem_of_cons, elem_of_nil. tauto. Qed.

Lemma is_finite_verb_spec (t : token) :
  is_finite_verb t = true ↔
  (tk_upos t = "VERB" ∨ tk_upos t = "AUX")
  ∧ (get_verbform t = None ∨ get_verbform t = Some "Fin").
Proof.
  rewrite <- verbal_upos. unfold is_finite_verb, get_verbform.
  destruct (PyStr.among (tk_upos t) ["VERB"; "AUX"]); simpl.
  - destruct (feats_get _ "VerbForm") as [vf|].
    + rewrite String.eqb_eq. split; [intros ->; auto | intros [_ [?|?]]; congruence].
    + split; auto.
  - split; [discriminate | intros [? _]; discriminate].
Qed.

(** C10: a VERB or AUX token counts as finite exactly when its VerbForm is
    missing or [Fin]; so a verb without VerbForm passes the finite-verb test
    of the detectors, is an apodosis candidate and can be the governing verb
    of indirect discourse, and the cum-clause, relative-clause and
    conditional detectors and the discourse inference fire on sentences
    whose verbs carry no VerbForm. *)
Theorem is_finite_verb_without_verbform :
  (∀ t, is_finite_verb t = true ↔
        (tk_upos t = "VERB" ∨ tk_upos t = "AUX")
        ∧ (get_verbform t = None ∨ get_verbform t = Some "Fin"))
  ∧ (∀ t, (tk_upos t = "VERB" ∨ tk_upos t = "AUX") → get_verbform t = None →
          is_finite_verb t = true
          ∧ is_candidate t = true
          ∧ (PyStr.among (PyStr.lower (tok_lemma t)) INDIRECT_HEAD_LEMMAS = true →
             is_indirect_head t = true))
  ∧ (get_verbform (tok cum_sentence_no_verbform 2) = None
     ∧ tag_cum_clauses cum_sentence_no_verbform
       = [Tag "cum_clause" None 0 2 [] None 90 None (cum_trigger 0 2)])
  ∧ (get_verbform (tok qui_sentence_no_verbform 1) = None
     ∧ tag_relative_clauses qui_sentence_no_verbform
       = [Tag "relative_clause" (Some "indicative") 0 1 [(0, 0); (1, 1)] None 91 None
              [("rel_pron_index", TInt 0); ("verb_index", TInt 1);
               ("rule", TStr "PronType=Rel+finite")]])
  ∧ (get_verbform (tok si_sentence_no_verbform 3) = None
     ∧ pick_apodosis si_sentence_no_verbform (build_children si_sentence_no_verbform)
                     1 (list_to_set [0; 1; 2]) ∅ 2 ∅ = Some 3
     ∧ (λ t, (tg_type t, tg_trigger t)) <$> tag_conditionals si_sentence_no_verbform
       = [("conditional_protasis",
           [("si_index", TInt 0); ("protasis_verb_index", TInt 1);
            ("apodosis_verb_index", TInt 3); ("rule", TStr "si+head")]);
          ("conditional_apodosis",
           [("si_index", TInt 0); ("protasis_verb_index", TInt 1);
            ("apodosis_verb_index", TInt 3);
            ("rule", TStr "main-clause-bound-by-commas")])])
  ∧ (get_verbform (tok dixit_sentence 0) = None
     ∧ ds_head_verb_index (infer_discourse dixit_sentence 2 (Some 4) 0 4) = Some 0
     ∧ (λ t, (cm_discourse <$> tg_conditional t, cm_head_verb_index <$> tg_conditional t))
         <$> tag_conditionals dixit_sentence
       = [(Some "indirect_secondary", Some (Some 0));
          (Some "indirect_secondary", Some (Some 0))]).
Proof.
  split; [exact is_finite_verb_spec|].
  split.
  { intros t Hu Hv.
    assert (Hf : is_finite_verb t = true) by (apply is_finite_verb_spec; auto).
    split; [exact Hf|]. split.
    - unfold is_candidate. apply verbal_upos in Hu. rewrite Hu, Hf. reflexivity.
    - intros Hl. unfold is_indirect_head. rewrite Hl, Hf. reflexivity. }
  split; [split; vm_compute; reflexivity|].
  split; [split; vm_compute; reflexivity|].
  split; [repeat split; vm_compute; reflexivity|].
  repeat split; vm_compute; reflexivity.
Qed.

Lemma is_finite_verb_without_verbform_witness :
  is_finite_verb (tok cum_sentence_no_verbform 2) = true
  ∧ is_candidate (tok cum_sentence_no_verbform 2) = true.
Proof.
  destruct is_finite_verb_without_verbform as (_ & Hmissing & _).
  destruct (Hmissing (tok cum_sentence_no_verbform 2)) as (Hf & Hc & _);
    [left; reflexivity | reflexivity |].
  split; assumption.
Defined.

(** ** Predicate signature *)

Lemma opt_eqb_is_str (x : option string) (v : string) :
  PyStr.opt_eqb x (Some v) = PyStr.is_str x v.
Proof. by destruct x. Qed.

Lemma is_infinitive_verbform (t : token) :
  is_infinitive t = PyStr.is_str (get_verbform t) "Inf".
Proof. unfold is_infinitive, feats_has, get_verbform. apply opt_eqb_is_str. Qed.

Lemma is_finite_not_infinitive (t : token) :
  is_finite_verb t = true → is_infinitive t = false.
Proof.
  intros [_ Hv]%is_finite_verb_spec. rewrite is_infinitive_verbform.
  destruct Hv as [-> | ->]; reflexivity.
Qed.

(** Whatever branch is taken, mood and verb form are the token's own. *)
Lemma predicate_signature_own (tokens : list token) (children : gmap Z (list Z))
    (vi : Z) :
  in_range tokens vi = true →
  sg_mood (predicate_signature tokens children (Some vi)) = get_mood (tok tokens vi)
  ∧ sg_verbForm (predicate_signature tokens children (Some vi))
    = get_verbform (tok tokens vi).
Proof.
  intros Hr. unfold predicate_signature. rewrite Hr. simpl.
  repeat (match goal with
          | |- context [if ?b then _ else _] => destruct b
          | |- context [match ?o with Some _ => _ | None => _ end] => destruct o
          end; simpl); done.
Qed.

Lemma is_infinitive_signature (tokens : list token) (children : gmap Z (list Z))
    (ap : Z) :
  in_range tokens ap = true →
  is_infinitive (tok tokens ap)
  = PyStr.is_str (sg_verbForm (predicate_signature tokens children (Some ap))) "Inf".
Proof.
  intros Hr. rewrite is_infinitive_verbform.
  by destruct (predicate_signature_own tokens children ap Hr) as [_ ->].
Qed.

(** C5, as stated, fails: the copula of "veniens factus est" has a
    participial child of passive voice and perfect aspect (position 1), but
    the resolver stops at the first participial child (position 0, active)
    and reports the copula's bare present tense with no compound. *)
Lemma predicate_signature_later_participle_ignored :
  PyStr.lower (tk_lemma (tok two_participles 2)) = "sum"
  ∧ tk_upos (tok two_participles 2) = "AUX"
  ∧ children_get (build_children two_participles) 2 = [0; 1]
  ∧ feats_get (feats_or_empty (tk_feats (tok two_participles 1))) "VerbForm" = Some "Part"
  ∧ feats_get (feats_or_empty (tk_feats (tok two_participles 1))) "Voice" = Some "Pass"
  ∧ feats_get (feats_or_empty (tk_feats (tok two_participles 1))) "Aspect" = Some "Perf"
  ∧ predicate_signature two_participles (build_children two_participles) (Some 2)
    = Signature (Some "Ind") (Some "Pres") None (Some "Fin") None.
Proof. repeat split; vm_compute; reflexivity. Qed.

(** C5, amended: for a predicate of class AUX or VERB whose lemma is the
    copula and whose first participial child (the child of least position
    with VerbForm=Part) has passive voice and perfect aspect, the signature
    takes its tense from the copula's own tense (Pres becomes Past, Past
    becomes Pqp, anything else unchanged), its aspect is Perf, its compound
    is perfect_passive_periphrastic with the two positions, and mood and
    verbForm are the copula's. *)
Theorem predicate_signature_perfect_passive
    (tokens : list token) (children : gmap Z (list Z)) (vi part_i : Z) :
  in_range tokens vi = true →
  PyStr.lower (tk_lemma (tok tokens vi)) = "sum"
  ∨ PyStr.lower (tk_lemma (tok tokens vi)) = "esse" →
  tk_upos (tok tokens vi) = "AUX" ∨ tk_upos (tok tokens vi) = "VERB" →
  participle_child tokens children vi = Some part_i →
  feats_get (feats_or_empty (tk_feats (tok tokens part_i))) "Voice" = Some "Pass" →
  feats_get (feats_or_empty (tk_feats (tok tokens part_i))) "Aspect" = Some "Perf" →
  predicate_signature tokens children (Some vi)
  = Signature (get_mood (tok tokens vi))
              (copula_tense_shift (get_tense (tok tokens vi)))
              (Some "Perf")
              (get_verbform (tok tokens vi))
              (Some (Compound "perfect_passive_periphrastic" vi part_i)).
Proof.
  intros Hr Hl Hu Hp Hv Ha.
  assert (Hl' : PyStr.among (PyStr.lower (tk_lemma (tok tokens vi))) ["sum"; "esse"] = true)
    by (destruct Hl as [Hl | Hl]; rewrite Hl; reflexivity).
  assert (Hu' : PyStr.among (tk_upos (tok tokens vi)) ["AUX"; "VERB"] = true)
    by (destruct Hu as [Hu | Hu]; rewrite Hu; reflexivity).
  unfold predicate_signature. rewrite Hr, Hl', Hu', Hp. simpl. rewrite Hv, Ha.
  reflexivity.
Qed.

Lemma predicate_signature_perfect_passive_witness :
  predicate_signature factus_est (build_children factus_est) (Some 1)
  = Signature (Some "Ind") (Some "Past") (Some "Perf") (Some "Fin")
              (Some (Compound "perfect_passive_periphrastic" 1 0)).
Proof.
  apply (predicate_signature_perfect_passive factus_est (build_children factus_est) 1 0);
    first [ reflexivity | left; reflexivity ].
Defined.

(** ** Conditional classification *)

(** C2, as stated, fails: "si veniet, fore" and "si veniet, esse" have the
    same protasis signature, the same apodosis signature and the same
    inferred discourse, and are labelled differently, because the label of
    an infinitive apodosis also reads its inferred time (here from the form
    "fore"). *)
Lemma classify_conditional_reads_infinitive_time :
  predicate_signature si_fore (build_children si_fore) (Some 1)
  = predicate_signature si_esse (build_children si_esse) (Some 1)
  ∧ predicate_signature si_fore (build_children si_fore) (Some 3)
    = predicate_signature si_esse (build_children si_esse) (Some 3)
  ∧ infer_discourse si_fore 1 (Some 3) 0 3 = infer_discourse si_esse 1 (Some 3) 0 3
  ∧ classify_conditional si_fore (build_children si_fore) (Some 1) (Some 3)
      (Some (infer_discourse si_fore 1 (Some 3) 0 3)) = "future_more_vivid"
  ∧ classify_conditional si_esse (build_children si_esse) (Some 1) (Some 3)
      (Some (infer_discourse si_esse 1 (Some 3) 0 3)) = "mixed"
  ∧ ((λ t, cm_label <$> tg_conditional t) <$> tag_conditionals si_fore)
    = [Some "future_more_vivid"; Some "future_more_vivid"]
  ∧ ((λ t, cm_label <$> tg_conditional t) <$> tag_conditionals si_esse)
    = [Some "mixed"; Some "mixed"].
Proof. repeat split; vm_compute; reflexivity. Qed.

(** C2, amended: the label is determined by the two normalized signatures,
    the discourse, whether each verb index denotes a token of the sentence
    and, when the apodosis is an infinitive, its inferred infinitive time:
    two calls that agree on these return the same label. *)
Theorem classify_conditional_determined
    (tokens1 tokens2 : list token) (children1 children2 : gmap Z (list Z))
    (pv1 ap1 pv2 ap2 : option Z) (d1 d2 : option discourse_info) :
  valid_index tokens1 pv1 = valid_index tokens2 pv2 →
  valid_index tokens1 ap1 = valid_index tokens2 ap2 →
  predicate_signature tokens1 children1 pv1 = predicate_signature tokens2 children2 pv2 →
  predicate_signature tokens1 children1 ap1 = predicate_signature tokens2 children2 ap2 →
  discourse_label d1 = discourse_label d2 →
  (sg_verbForm (predicate_signature tokens1 children1 ap1) = Some "Inf" →
   infer_infinitive_time tokens1 children1 ap1
   = infer_infinitive_time tokens2 children2 ap2) →
  classify_conditional tokens1 children1 pv1 ap1 d1
  = classify_conditional tokens2 children2 pv2 ap2 d2.
Proof.
  intros Hpv Hap Hps Has Hd Hinf.
  unfold classify_conditional. fold (discourse_label d1). fold (discourse_label d2).
  rewrite Hpv, Hps, Hd.
  destruct (valid_index tokens2 pv2); cbn -[infer_infinitive_time predicate_signature];
    [|reflexivity].
  destruct ap1 as [a1|], ap2 as [a2|]; simpl in Hap.
  - destruct (in_range tokens1 a1) eqn:R1; rewrite <- Hap;
      cbn -[infer_infinitive_time predicate_signature]; [|reflexivity].
    symmetry in Hap.
    rewrite (is_infinitive_signature tokens1 children1 a1 R1).
    rewrite (is_infinitive_signature tokens2 children2 a2 Hap).
    rewrite Has.
    destruct (PyStr.is_str
                (sg_verbForm (predicate_signature tokens2 children2 (Some a2))) "Inf")
      eqn:E.
    + rewrite Hinf; [reflexivity|]. rewrite Has. by apply is_str_true.
    + reflexivity.
  - rewrite Hap. reflexivity.
  - rewrite <- Hap. reflexivity.
  - reflexivity.
Qed.

Lemma classify_conditional_determined_witness :
  classify_conditional si_sentence (build_children si_sentence) (Some 2) (Some 5)
    (Some (infer_discourse si_sentence 2 (Some 5) 0 5))
  = classify_conditional si_sentence_alt (build_children si_sentence_alt) (Some 2) (Some 5)
      (Some (infer_discourse si_sentence_alt 2 (Some 5) 0 5)).
Proof.
  apply classify_conditional_determined; reflexivity.
Defined.

(** The finite branch of [classify_conditional] for direct discourse with
    two subjunctives is the table of the specification. *)
Lemma classify_direct_subjunctive (tokens : list token) (children : gmap Z (list Z))
    (pv ap : Z) (d : option discourse_info) :
  in_range tokens pv = true →
  in_range tokens ap = true →
  discourse_label d = "direct" →
  is_infinitive (tok tokens ap) = false →
  sg_mood (predicate_signature tokens children (Some pv)) = Some "Sub" →
  sg_mood (predicate_signature tokens children (Some ap)) = Some "Sub" →
  classify_conditional tokens children (Some pv) (Some ap) d
  = direct_subjunctive_label (predicate_signature tokens children (Some pv))
                             (predicate_signature tokens children (Some ap)).
Proof.
  intros Hpv Hap Hd Hinf Hpm Ham.
  unfold classify_conditional. fold (discourse_label d).
  cbn -[predicate_signature infer_infinitive_time].
  rewrite Hpv, Hap, Hinf, Hd, Hpm, Ham.
  cbn -[predicate_signature infer_infinitive_time].
  reflexivity.
Qed.

(** C6: under direct discourse, with an apodosis that is not an infinitive
    and both normalized moods subjunctive, the label is the first matching
    row of: both tenses Pres, future_less_vivid; both Past with aspect Imp,
    present_contrafactual; both Pqp or of aspect Perf, past_contrafactual;
    otherwise mixed_subjunctive.  On "si id fecisset, eum punivisset" the
    tagger finds direct discourse and emits the protasis and apodosis tags,
    both labelled past_contrafactual. *)
Theorem direct_subjunctive_conditionals :
  (∀ (tokens : list token) (children : gmap Z (list Z)) (pv ap : Z)
     (d : option discourse_info),
     in_range tokens pv = true →
     in_range tokens ap = true →
     discourse_label d = "direct" →
     is_infinitive (tok tokens ap) = false →
     sg_mood (predicate_signature tokens children (Some pv)) = Some "Sub" →
     sg_mood (predicate_signature tokens children (Some ap)) = Some "Sub" →
     classify_conditional tokens children (Some pv) (Some ap) d
     = direct_subjunctive_label (predicate_signature tokens children (Some pv))
                                (predicate_signature tokens children (Some ap)))
  ∧ (∀ t, is_finite_verb t = true → is_infinitive t = false)
  ∧ (λ t, (tg_type t, tg_subtype t, tg_start t, tg_end t,
           cm_label <$> tg_conditional t, cm_discourse <$> tg_conditional t))
      <$> tag_conditionals si_sentence
    = [("conditional_protasis", Some "past_contrafactual", 0, 3,
        Some "past_contrafactual", Some "direct");
       ("conditional_apodosis", Some "past_contrafactual", 4, 5,
        Some "past_contrafactual", Some "direct")]
  ∧ tg_type <$> sentence_tags si_sentence
    = ["conditional_protasis"; "conditional_apodosis"].
Proof.
  split; [exact classify_direct_subjunctive|].
  split; [exact is_finite_not_infinitive|].
  split; vm_compute; reflexivity.
Qed.

Lemma direct_subjunctive_conditionals_witness :
  classify_conditional si_sentence (build_children si_sentence) (Some 2) (Some 5)
    (Some (infer_discourse si_sentence 2 (Some 5) 0 5))
  = "past_contrafactual".
Proof.
  destruct direct_subjunctive_conditionals as [Htable _].
  rewrite (Htable si_sentence (build_children si_sentence) 2 5
             (Some (infer_discourse si_sentence 2 (Some 5) 0 5)));
    reflexivity.
Defined.

(** ** Ablative absolutes *)

Lemma truthy_nonempty (x : option string) :
  PyStr.truthy x = true → ∃ s, x = Some s ∧ s ≠ "".
Proof.
  destruct x as [[|c s]|]; simpl; intros H; try discriminate. eexists; split; done.
Qed.

Lemma abl_noun_matches_agree (tokens : list token) (pg pn : option string) (ci : Z) :
  abl_noun_matches tokens pg pn ci = true →
  ∃ g n, g ≠ "" ∧ n ≠ "" ∧ pg = Some g ∧ pn = Some n
         ∧ is_nounish (tok tokens ci) = true
         ∧ feats_has (feats_or_empty (tk_feats (tok tokens ci))) "Case" "Abl" = true
         ∧ get_feat (feats_or_empty (tk_feats (tok tokens ci))) "Gender" = Some g
         ∧ get_feat (feats_or_empty (tk_feats (tok tokens ci))) "Number" = Some n.
Proof.
  unfold abl_noun_matches.
  destruct (is_nounish _) eqn:Hn; simpl; [|discriminate].
  destruct (feats_has _ "Case" "Abl") eqn:Hc; simpl; [|discriminate].
  destruct (PyStr.truthy pg) eqn:Tpg; simpl; [|discriminate].
  destruct (PyStr.truthy pn) eqn:Tpn; simpl; [|discriminate].
  destruct (PyStr.truthy (get_feat _ "Gender")) eqn:Tng; simpl; [|discriminate].
  destruct (PyStr.truthy (get_feat _ "Number")) eqn:Tnn; simpl; [|discriminate].
  destruct (PyStr.opt_eqb pg _) eqn:Eg; simpl; [|discriminate].
  destruct (PyStr.opt_eqb pn _) eqn:En; simpl; [|discriminate].
  intros _. apply opt_eqb_true in Eg, En.
  apply truthy_nonempty in Tpg as (g & -> & Hg), Tpn as (n & -> & Hnn).
  exists g, n. repeat split; auto.
Qed.

Lemma abl_abs_at_sound (tokens : list token) (i : Z) (t : token) (tg : tag) :
  abl_abs_at tokens (build_children tokens) i t = Some tg →
  ∃ c g n,
    tg = Tag "abl_abs" None (Z.min i c) (Z.max i c) [(i, i); (c, c)] None 88 None
             (abl_abs_trigger i c)
    ∧ c ∈ children_get (build_children tokens) i
    ∧ tk_upos t = "VERB"
    ∧ feats_has (feats_or_empty (tk_feats t)) "VerbForm" "Part" = true
    ∧ feats_has (feats_or_empty (tk_feats t)) "Case" "Abl" = true
    ∧ is_nounish (tok tokens c) = true
    ∧ feats_has (feats_or_empty (tk_feats (tok tokens c))) "Case" "Abl" = true
    ∧ g ≠ "" ∧ n ≠ ""
    ∧ get_feat (feats_or_empty (tk_feats t)) "Gender" = Some g
    ∧ get_feat (feats_or_empty (tk_feats (tok tokens c))) "Gender" = Some g
    ∧ get_feat (feats_or_empty (tk_feats t)) "Number" = Some n
    ∧ get_feat (feats_or_empty (tk_feats (tok tokens c))) "Number" = Some n.
Proof.
  unfold abl_abs_at.
  destruct (String.eqb (tk_upos t) "VERB") eqn:Hu; simpl; [|discriminate].
  destruct (feats_has _ "VerbForm" "Part") eqn:Hp; simpl; [|discriminate].
  destruct (feats_has _ "Case" "Abl") eqn:Hc; simpl; [|discriminate].
  destruct (List.find _ _) as [c|] eqn:Hf; [|discriminate].
  intros [= <-].
  apply find_some in Hf as [Hin Hm].
  apply abl_noun_matches_agree in Hm
    as (g & n & Hg & Hn & Hpg & Hpn & Hnoun & Hcase & Hng & Hnn).
  exists c, g, n. apply String.eqb_eq in Hu.
  repeat split; auto. by apply list_elem_of_In.
Qed.

(** C3: every abl_abs tag comes from a participle and an ablative noun-ish
    child of it on which Gender and Number are all four present (non-empty)
    and pairwise equal; when any of the four values is missing, no abl_abs
    tag is produced for that pair; and the tags are a function of the token
    list alone. *)
Theorem abl_abs_requires_agreement (tokens : list token) :
  (∀ tg, tg ∈ tag_ablative_absolutes tokens →
     ∃ i c g n,
       tg_type tg = "abl_abs"
       ∧ tg_trigger tg = abl_abs_trigger i c
       ∧ in_range tokens i = true
       ∧ c ∈ children_get (build_children tokens) i
       ∧ is_nounish (tok tokens c) = true
       ∧ feats_has (feats_or_empty (tk_feats (tok tokens c))) "Case" "Abl" = true
       ∧ g ≠ "" ∧ n ≠ ""
       ∧ get_feat (feats_or_empty (tk_feats (tok tokens i))) "Gender" = Some g
       ∧ get_feat (feats_or_empty (tk_feats (tok tokens c))) "Gender" = Some g
       ∧ get_feat (feats_or_empty (tk_feats (tok tokens i))) "Number" = Some n
       ∧ get_feat (feats_or_empty (tk_feats (tok tokens c))) "Number" = Some n)
  ∧ (∀ i c,
       PyStr.truthy (get_feat (feats_or_empty (tk_feats (tok tokens i))) "Gender") = false
       ∨ PyStr.truthy (get_feat (feats_or_empty (tk_feats (tok tokens i))) "Number") = false
       ∨ PyStr.truthy (get_feat (feats_or_empty (tk_feats (tok tokens c))) "Gender") = false
       ∨ PyStr.truthy (get_feat (feats_or_empty (tk_feats (tok tokens c))) "Number") = false →
       ∀ tg, tg ∈ tag_ablative_absolutes tokens → tg_trigger tg ≠ abl_abs_trigger i c)
  ∧ (∀ tokens', tokens' = tokens →
       tag_ablative_absolutes tokens' = tag_ablative_absolutes tokens).
Proof.
  assert (Hsound : ∀ tg, tg ∈ tag_ablative_absolutes tokens →
     ∃ i c g n,
       tg_type tg = "abl_abs"
       ∧ tg_trigger tg = abl_abs_trigger i c
       ∧ in_range tokens i = true
       ∧ c ∈ children_get (build_children tokens) i
       ∧ is_nounish (tok tokens c) = true
       ∧ feats_has (feats_or_empty (tk_feats (tok tokens c))) "Case" "Abl" = true
       ∧ g ≠ "" ∧ n ≠ ""
       ∧ get_feat (feats_or_empty (tk_feats (tok tokens i))) "Gender" = Some g
       ∧ get_feat (feats_or_empty (tk_feats (tok tokens c))) "Gender" = Some g
       ∧ get_feat (feats_or_empty (tk_feats (tok tokens i))) "Number" = Some n
       ∧ get_feat (feats_or_empty (tk_feats (tok tokens c))) "Number" = Some n).
  { intros tg Hin. unfold tag_ablative_absolutes in Hin.
    apply list_elem_of_omap in Hin as ([i t] & Hen & Hat).
    apply enumerate_tok in Hen as [Hr Ht].
    apply abl_abs_at_sound in Hat
      as (c & g & n & -> & Hc & _ & _ & _ & Hnoun & Hcase & Hg & Hn & Hpg & Hng & Hpn & Hnn).
    exists i, c, g, n. rewrite Ht. repeat split; auto. }
  split; [exact Hsound|]. split.
  - intros i c Hmiss tg Hin Htrig.
    destruct (Hsound tg Hin)
      as (i' & c' & g & n & _ & Htrig' & _ & _ & _ & _ & Hg & Hn & Hpg & Hng & Hpn & Hnn).
    rewrite Htrig in Htrig'. inversion Htrig'; subst i' c'.
    rewrite Hpg, Hpn, Hng, Hnn in Hmiss.
    destruct g, n; simpl in Hmiss; try done; destruct Hmiss as [?|[?|[?|?]]]; discriminate.
  - intros tokens' ->. reflexivity.
Qed.

Lemma abl_abs_requires_agreement_witness :
  ∃ i c g n,
    abl_abs_trigger 1 0 = abl_abs_trigger i c
    ∧ get_feat (feats_or_empty (tk_feats (tok urbe_capta i))) "Gender" = Some g
    ∧ get_feat (feats_or_empty (tk_feats (tok urbe_capta c))) "Gender" = Some g
    ∧ get_feat (feats_or_empty (tk_feats (tok urbe_capta i))) "Number" = Some n
    ∧ get_feat (feats_or_empty (tk_feats (tok urbe_capta c))) "Number" = Some n.
Proof.
  destruct (abl_abs_requires_agreement urbe_capta) as [Hsound _].
  destruct (Hsound (Tag "abl_abs" None 0 1 [(1, 1); (0, 0)] None 88 None
                        (abl_abs_trigger 1 0)))
    as (i & c & g & n & _ & Htrig & _ & _ & _ & _ & _ & _ & Hpg & Hng & Hpn & Hnn).
  { change (tag_ablative_absolutes urbe_capta)
      with [Tag "abl_abs" None 0 1 [(1, 1); (0, 0)] None 88 None (abl_abs_trigger 1 0)].
    apply list_elem_of_here. }
  exists i, c, g, n. repeat split; assumption.
Defined.

(** ** Clause ends *)

Lemma find_next_boundary_from_bounds (tokens : list token) (s : Z)
    (positions : list Z) :
  s ≤ len tokens - 1 →
  (∀ i, i ∈ positions → s ≤ i < len tokens) →
  s ≤ find_next_boundary_from tokens s positions ≤ len tokens - 1.
Proof.
  intros Hs. induction positions as [|i rest IH]; intros Hall;
    cbn [find_next_boundary_from]; [lia|].
  assert (Hi : s ≤ i < len tokens) by (apply Hall; left).
  destruct (is_punct (tok tokens i)); [lia|].
  destruct (PyStr.among _ _ && negb (i =? s)) eqn:E.
  - apply andb_true_iff in E as [_ E]. apply negb_true_iff, Z.eqb_neq in E. lia.
  - apply IH. intros j Hj. apply Hall. by right.
Qed.

Lemma find_next_boundary_bounds (tokens : list token) (s : Z) :
  in_range tokens s = true →
  s ≤ find_next_boundary tokens s ≤ len tokens - 1.
Proof.
  intros Hr. apply andb_true_iff in Hr as [H0 H1].
  apply Z.leb_le in H0. apply Z.ltb_lt in H1.
  apply find_next_boundary_from_bounds; [lia|].
  intros i Hi. by apply elem_of_range in Hi.
Qed.

Lemma scan_right_ge (boundary : token → bool) (tokens : list token) (fuel : nat)
    (r : Z) :
  r ≤ scan_right boundary tokens fuel r.
Proof.
  revert r. induction fuel as [|fuel IH]; intros r; simpl; [lia|].
  destruct (r <? len tokens - 1); [|lia].
  destruct (boundary _); [lia|]. specialize (IH (r + 1)). lia.
Qed.

Lemma scan_left_le (boundary : token → bool) (tokens : list token) (fuel : nat)
    (l : Z) :
  scan_left boundary tokens fuel l ≤ l.
Proof.
  revert l. induction fuel as [|fuel IH]; intros l; simpl; [lia|].
  destruct (0 <? l); [|lia].
  destruct (boundary _); [lia|]. specialize (IH (l - 1)). lia.
Qed.

(** ** Cum clauses *)

(** C7: in a sentence whose token 0 is "cum" (SCONJ, relation mark or case,
    head = 6), whose token 5 is a finite subjunctive verb, with no strong
    boundary between them and no other token of lemma "cum", the detector
    emits exactly one tag, a cum_clause from position 0 with trigger
    cum_index = 0 and verb_index = 5, ending at or after the verb. *)
Theorem cum_clause_worked_scenario (tokens : list token) (cum v : token) :
  tokens !! 0%nat = Some cum →
  tokens !! 5%nat = Some v →
  PyStr.lower (tok_lemma cum) = "cum" →
  tk_upos cum = "SCONJ" →
  tk_deprel cum = "mark" ∨ tk_deprel cum = "case" →
  tk_head cum = Some 6 →
  tk_upos v = "VERB" ∨ tk_upos v = "AUX" →
  feats_get (feats_or_empty (tk_feats v)) "Mood" = Some "Sub" →
  feats_get (feats_or_empty (tk_feats v)) "VerbForm" = Some "Fin" →
  has_strong_boundary_between tokens 0 5 = false →
  (∀ k t, (0 < k)%nat → tokens !! k = Some t → PyStr.lower (tok_lemma t) ≠ "cum") →
  ∃ e, 5 ≤ e < len tokens
       ∧ tag_cum_clauses tokens
         = [Tag "cum_clause" None 0 e [] None 90 None (cum_trigger 0 5)].
Proof.
  intros H0 H5 Hlem Hupos Hdep Hhead Hvu Hmood Hvf Hstrong Hothers.
  destruct (tok_lookup _ _ _ H5) as [Hr5 Ht5]. change (Z.of_nat 5) with 5 in Hr5, Ht5.
  destruct tokens as [|c rest]; [discriminate|]. injection H0 as ->.
  set (tokens := cum :: rest) in *.
  pose (end0 := find_next_boundary tokens 5).
  pose (e := if has_strong_boundary_between tokens 0 end0
             then Z.min end0 (snd (segment_bounds tokens 5)) else end0).
  exists e. split.
  { pose proof (find_next_boundary_bounds tokens 5 Hr5) as Hb. fold end0 in Hb.
    pose proof (scan_right_ge is_strong_boundary tokens
                  (Z.to_nat (len tokens - 1 - 5)) 5) as Hsr.
    subst e. simpl snd. destruct (has_strong_boundary_between tokens 0 end0); lia. }
  unfold tag_cum_clauses. subst tokens. rewrite enumerate_cons.
  set (tokens := cum :: rest) in *.
  change (omap ?f ((0, cum) :: ?l))
    with (match f (0, cum) with Some y => y :: omap f l | None => omap f l end).
  cbv beta iota.
  assert (Hfirst : cum_clause_at tokens 0 cum
                   = Some (Tag "cum_clause" None 0 e [] None 90 None (cum_trigger 0 5))).
  { assert (Hl : String.eqb (PyStr.lower (tok_lemma cum)) "cum" = true)
      by (rewrite Hlem; reflexivity).
    assert (Hu : PyStr.among (tk_upos cum) ["SCONJ"; "ADP"] = true)
      by (rewrite Hupos; reflexivity).
    assert (Hd : PyStr.among (tk_deprel cum) ["mark"; "case"] = true)
      by (destruct Hdep as [Hdep | Hdep]; rewrite Hdep; reflexivity).
    assert (Hv : PyStr.among (tk_upos v) ["VERB"; "AUX"] = true)
      by (destruct Hvu as [Hvu | Hvu]; rewrite Hvu; reflexivity).
    assert (Hf : is_finite_verb v = true)
      by (unfold is_finite_verb; rewrite Hv, Hvf; reflexivity).
    assert (Hh : head_index tokens cum = Some 5).
    { unfold head_index. rewrite Hhead.
      change (6 <=? 0) with false. change (6 - 1) with 5. cbn iota.
      rewrite Hr5. reflexivity. }
    unfold cum_clause_at. rewrite Hl, Hu, Hd. cbn [negb]. rewrite Hh, Hstrong, Ht5.
    unfold feats_has. rewrite Hmood, Hf. reflexivity. }
  rewrite Hfirst.
  assert (Hrest : omap (λ '(i, t), cum_clause_at tokens i t)
                       (zip (seqZ 1 (len rest)) rest) = []).
  { apply omap_all_none. intros [i t] Hin.
    apply elem_of_lookup_zip_with in Hin as (k & x & y & Heq & Hx & Hy).
    inversion Heq; subst x y.
    unfold cum_clause_at.
    assert (Hne : PyStr.lower (tok_lemma t) ≠ "cum").
    { apply (Hothers (S k)); [lia | exact Hy]. }
    apply String.eqb_neq in Hne. rewrite Hne. reflexivity. }
  rewrite Hrest. reflexivity.
Qed.

Lemma cum_clause_worked_scenario_witness :
  ∃ e, 5 ≤ e < len cum_sentence
       ∧ tag_cum_clauses cum_sentence
         = [Tag "cum_clause" None 0 e [] None 90 None (cum_trigger 0 5)].
Proof.
  apply (cum_clause_worked_scenario cum_sentence
           (Token "cum" "cum" "SCONJ" "mark" FNone (Some 6))
           (Token "venisset" "venio" "VERB" "root"
                  (FStr "Aspect=Perf|Mood=Sub|Tense=Past|VerbForm=Fin") (Some 0)));
    try reflexivity.
  - left; reflexivity.
  - left; reflexivity.
  - intros k t Hk Hlook.
    destruct k as [|[|[|[|[|[|k]]]]]]; simpl in Hlook; try lia;
      try (injection Hlook as <-; vm_compute; discriminate).
    discriminate Hlook.
Defined.

(** ** Subtree walk *)

Section InSubtree.
Variable children : gmap Z (list Z).
Variable query_i : Z.

Lemma pending_mono (seen : gset Z) (cur : Z) (kv : Z * list Z) :
  (pending ({[cur]} ∪ seen) kv ≤ pending seen kv)%nat.
Proof. unfold pending. repeat case_bool_decide; try lia. set_solver. Qed.

Lemma sum_pending_mono (seen : gset Z) (cur : Z) (l : list (Z * list Z)) :
  (sum_list_with (pending ({[cur]} ∪ seen)) l ≤ sum_list_with (pending seen) l)%nat.
Proof.
  induction l as [|kv l IH]; [done|].
  cbn [sum_list_with].
  pose proof (pending_mono seen cur kv). lia.
Qed.

Lemma sum_pending_expand (seen : gset Z) (cur : Z) (cs : list Z)
    (l : list (Z * list Z)) :
  (cur, cs) ∈ l → cur ∉ seen →
  (sum_list_with (pending ({[cur]} ∪ seen)) l + S (length cs)
   ≤ sum_list_with (pending seen) l)%nat.
Proof.
  intros Hin Hns. induction l as [|kv l IH]; [by apply elem_of_nil in Hin|].
  cbn [sum_list_with].
  apply elem_of_cons in Hin as [<- | Hin].
  - pose proof (sum_pending_mono seen cur l).
    assert (pending ({[cur]} ∪ seen) (cur, cs) = O) as ->
      by (unfold pending; simpl; rewrite bool_decide_eq_true_2; [done | set_solver]).
    assert (pending seen (cur, cs) = S (length cs)) as ->
      by (unfold pending; simpl; by rewrite bool_decide_eq_false_2).
    lia.
  - specialize (IH Hin). pose proof (pending_mono seen cur kv). lia.
Qed.

(** Expanding an unseen node pays for the children it pushes. *)
Lemma unexpanded_step (seen : gset Z) (cur : Z) :
  cur ∉ seen →
  (unexpanded children ({[cur]} ∪ seen) + length (children_get children cur)
   ≤ unexpanded children seen)%nat.
Proof.
  intros Hns. unfold unexpanded, children_get.
  destruct (children !! cur) as [cs|] eqn:E; simpl.
  - assert (Hin : (cur, cs) ∈ map_to_list children) by by apply elem_of_map_to_list.
    pose proof (sum_pending_expand seen cur cs _ Hin Hns). lia.
  - pose proof (sum_pending_mono seen cur (map_to_list children)). lia.
Qed.

Lemma in_subtree_loop_returns (fuel : nat) (stack : list Z) (seen : gset Z) :
  (length stack + unexpanded children seen < fuel)%nat →
  ∃ b, in_subtree_loop fuel children query_i stack seen = Some b.
Proof.
  revert stack seen. induction fuel as [|fuel IH]; intros stack seen Hlt; [lia|].
  destruct stack as [|cur rest]; simpl; [by eexists|].
  destruct (cur =? query_i); [by eexists|].
  case_bool_decide as Hseen.
  - apply IH. simpl in Hlt. lia.
  - apply IH. pose proof (unexpanded_step seen cur Hseen) as Hstep.
    rewrite length_app, length_rev. simpl in Hlt. lia.
Qed.

Lemma in_subtree_loop_more_fuel (fuel fuel' : nat) (stack : list Z)
    (seen : gset Z) (b : bool) :
  in_subtree_loop fuel children query_i stack seen = Some b →
  (fuel ≤ fuel')%nat →
  in_subtree_loop fuel' children query_i stack seen = Some b.
Proof.
  revert fuel' stack seen.
  induction fuel as [|fuel IH]; intros fuel' stack seen H Hle; [discriminate|].
  destruct fuel' as [|fuel']; [lia|].
  simpl in *. destruct stack as [|cur rest]; [done|].
  destruct (cur =? query_i); [done|].
  case_bool_decide; (apply IH; [done | lia]).
Qed.
End InSubtree.

(** C9: on the children map built from any token list, whatever the head
    values (cycles and self-loops included), and for any root and query, the
    loop of [in_subtree] returns a boolean within [in_subtree_fuel]
    iterations; more iterations give the same answer, and that answer is the
    value of [in_subtree]. *)
Theorem in_subtree_terminates (tokens : list token) (root_i query_i : Z) :
  ∃ b,
    (∀ fuel, (in_subtree_fuel (build_children tokens) ≤ fuel)%nat →
             in_subtree_loop fuel (build_children tokens) query_i [root_i] ∅ = Some b)
    ∧ in_subtree tokens (build_children tokens) root_i query_i = b.
Proof.
  destruct (in_subtree_loop_returns (build_children tokens) query_i
              (in_subtree_fuel (build_children tokens)) [root_i] ∅) as [b Hb].
  { unfold in_subtree_fuel. simpl. lia. }
  exists b. split.
  - intros fuel Hle. by eapply in_subtree_loop_more_fuel.
  - unfold in_subtree. by rewrite Hb.
Qed.

(** The walk on a two-node cycle, from either node to a node not in it. *)
Example in_subtree_on_cycle :
  children_get (build_children head_cycle) 0 = [1]
  ∧ children_get (build_children head_cycle) 1 = [0]
  ∧ in_subtree head_cycle (build_children head_cycle) 0 5 = false
  ∧ in_subtree head_cycle (build_children head_cycle) 1 0 = true.
Proof. repeat split; vm_compute; reflexivity. Qed.

(** ** Span invariant *)

(** C1 fails on the code: with the marker after its verb and a comma between
    them, the cum-clause detector reports [start = 2] and [end = 0], and the
    tag survives the sentence driver. *)
Theorem cum_clause_span_inverted :
  sentence_tags cum_after_verb
  = [Tag "cum_clause" None 2 0 [] None 90 None (cum_trigger 2 0)]
  ∧ ¬ (∀ t, t ∈ sentence_tags cum_after_verb → span_ok (len cum_after_verb) t).
Proof.
  assert (Htags : sentence_tags cum_after_verb
                  = [Tag "cum_clause" None 2 0 [] None 90 None (cum_trigger 2 0)])
    by (vm_compute; reflexivity).
  split; [exact Htags|].
  intros Hall. rewrite Htags in Hall.
  destruct (Hall _ (list_elem_of_here _ _)) as (_ & Hle & _).
  simpl in Hle. lia.
Qed.

(** ** Positions of the emitted tags

    Each detector is followed through its guards: heads pass [head_index],
    children come from [build_children], clause ends from
    [find_next_boundary] and the segment scans, so every index a tag
    carries is a token position. *)

Lemma in_range_bounds (tokens : list token) (i : Z) :
  in_range tokens i = true ↔ 0 ≤ i < len tokens.
Proof.
  unfold in_range. rewrite andb_true_iff, Z.leb_le, Z.ltb_lt. tauto.
Qed.

Lemma head_index_in_range (tokens : list token) (t : token) (h : Z) :
  head_index tokens t = Some h → 0 ≤ h < len tokens.
Proof.
  unfold head_index. destruct (tk_head t) as [hd|]; [|discriminate].
  destruct (hd <=? 0); [discriminate|].
  destruct (in_range tokens (hd - 1)) eqn:E; [|discriminate].
  intros [= <-]. by apply in_range_bounds.
Qed.

Lemma foldl_invariant {A B : Type} (P : A → Prop) (f : A → B → A) (l : list B) (a : A) :
  P a → (∀ a x, x ∈ l → P a → P (f a x)) → P (foldl f a l).
Proof.
  revert a. induction l as [|x l IH]; intros a Ha Hstep; simpl; [done|].
  apply IH.
  - apply Hstep; [left | done].
  - intros a' y Hy. apply Hstep. by right.
Qed.

Lemma children_get_initial (l : list Z) (h : Z) :
  children_get (list_to_map ((λ i, (i, [])) <$> l)) h = [].
Proof.
  unfold children_get. induction l as [|x l IH]; simpl.
  - by rewrite lookup_empty.
  - destruct (decide (x = h)) as [->|Hne].
    + by rewrite lookup_insert_eq.
    + by rewrite lookup_insert_ne.
Qed.

Lemma children_get_alter (ch : gmap Z (list Z)) (h h' i c : Z) :
  c ∈ children_get (alter (λ cs, (cs ++ [i])%list) h' ch) h →
  c ∈ children_get ch h ∨ c = i.
Proof.
  unfold children_get. destruct (decide (h' = h)) as [->|Hne].
  - rewrite lookup_alter_eq. destruct (ch !! h) as [cs|]; simpl.
    + rewrite elem_of_app, list_elem_of_singleton. tauto.
    + intros H. by apply elem_of_nil in H.
  - rewrite lookup_alter_ne by done. tauto.
Qed.

Lemma build_children_valid (tokens : list token) (h c : Z) :
  c ∈ children_get (build_children tokens) h → 0 ≤ c < len tokens.
Proof.
  unfold build_children. revert h c.
  apply (foldl_invariant
           (λ ch : gmap Z (list Z), ∀ h c, c ∈ children_get ch h → 0 ≤ c < len tokens)).
  - intros h c. rewrite children_get_initial. intros H. by apply elem_of_nil in H.
  - intros ch [i t] Hin IH h c.
    apply enumerate_tok in Hin as [Hr _]. apply in_range_bounds in Hr.
    destruct (tk_head t) as [hd|]; [|apply IH].
    destruct (hd <=? 0); [apply IH|].
    simpl. destruct (in_range tokens (hd - 1)); [|apply IH].
    intros [Hc | ->]%children_get_alter; [by eapply IH | done].
Qed.

Lemma nearest_to_elem (center : Z) (cands : list Z) (x : Z) :
  nearest_to center cands = Some x → x ∈ cands.
Proof.
  unfold nearest_to.
  assert (H : ∀ acc : option Z * Z,
             (∀ y, acc.1 = Some y → y ∈ cands) →
             ∀ y, (foldl (λ '(best, best_dist) ci,
                            let dist := Z.abs (ci - center) in
                            if dist <? best_dist then (Some ci, dist) else (best, best_dist))
                         acc cands).1 = Some y → y ∈ cands).
  { intros acc Hacc.
    apply (foldl_invariant (λ acc : option Z * Z, ∀ y, acc.1 = Some y → y ∈ cands));
      [exact Hacc|].
    intros [best bd] ci Hci IH y. simpl.
    destruct (Z.abs (ci - center) <? bd); simpl; [intros [= <-]; done | apply IH]. }
  apply H. simpl. discriminate.
Qed.

Lemma min_by_distance_elem (center : Z) (l : list Z) (x : Z) :
  min_by_distance center l = Some x → x ∈ l.
Proof.
  unfold min_by_distance. destruct l as [|x0 rest]; [discriminate|].
  intros [= <-].
  apply (foldl_invariant (λ b : Z, b ∈ x0 :: rest)); [left|].
  intros b j Hj Hb. destruct (_ <? _); [by right | done].
Qed.

Lemma relative_verb_walk_in_range (tokens : list token) (i : Z) (hops : nat)
    (cur : Z) (seen : gset Z) (vi : option Z) (v : Z) :
  relative_verb_walk tokens i hops cur seen vi = Some v →
  vi = Some v ∨ 0 ≤ v < len tokens.
Proof.
  revert cur seen vi. induction hops as [|hops IH]; intros cur seen vi;
    cbn [relative_verb_walk]; [auto|].
  destruct (tk_head (tok tokens cur)) as [hd|]; [|auto].
  destruct (hd <=? 0); [auto|]. cbv zeta.
  destruct (bool_decide (hd - 1 ∈ seen) || negb (in_range tokens (hd - 1))) eqn:E; [auto|].
  apply orb_false_iff in E as [_ E]. apply negb_false_iff, in_range_bounds in E.
  destruct (has_strong_boundary_between tokens i (hd - 1)); [auto|].
  match goal with |- context [if ?b then _ else _] => destruct b end.
  - match goal with |- context [if ?b then _ else _] => destruct b end.
    + intros [= <-]. by right.
    + intros H. apply IH in H as [[= <-] | H]; by right.
  - intros H. apply IH in H as [H | H]; auto.
Qed.

Lemma scan_left_bounds (boundary : token → bool) (tokens : list token) (fuel : nat) (l : Z) :
  0 ≤ l → 0 ≤ scan_left boundary tokens fuel l ≤ l.
Proof.
  revert l. induction fuel as [|fuel IH]; intros l Hl; simpl; [lia|].
  destruct (0 <? l) eqn:E; [|lia]. apply Z.ltb_lt in E.
  destruct (boundary _); [lia|]. specialize (IH (l - 1)). lia.
Qed.

Lemma scan_right_bounds (boundary : token → bool) (tokens : list token) (fuel : nat) (r : Z) :
  r ≤ len tokens - 1 → r ≤ scan_right boundary tokens fuel r ≤ len tokens - 1.
Proof.
  revert r. induction fuel as [|fuel IH]; intros r Hr; simpl; [lia|].
  destruct (r <? len tokens - 1) eqn:E; [|lia]. apply Z.ltb_lt in E.
  destruct (boundary _); [lia|]. specialize (IH (r + 1)). lia.
Qed.

Lemma segment_bounds_spec (tokens : list token) (i : Z) :
  0 ≤ i < len tokens →
  0 ≤ (segment_bounds tokens i).1 ≤ i ∧ i ≤ (segment_bounds tokens i).2 ≤ len tokens - 1.
Proof.
  intros Hi. unfold segment_bounds. simpl. split.
  - apply scan_left_bounds. lia.
  - apply scan_right_bounds. lia.
Qed.

Lemma find_range (p : Z → bool) (a b k : Z) :
  List.find p (range a b) = Some k → a ≤ k < b.
Proof.
  intros [Hin _]%find_some. apply list_elem_of_In in Hin. by apply elem_of_range in Hin.
Qed.

Lemma find_rev_range (p : Z → bool) (a b k : Z) :
  List.find p (rev (range a b)) = Some k → a ≤ k < b.
Proof.
  intros [Hin _]%find_some. apply in_rev, list_elem_of_In in Hin.
  by apply elem_of_range in Hin.
Qed.

Lemma comma_clause_bounds_spec (tokens : list token) (c ss se : Z) (incl : bool) :
  ss ≤ c ≤ se →
  ss ≤ (comma_clause_bounds tokens c ss se incl).1
  ∧ (comma_clause_bounds tokens c ss se incl).1 ≤ c
  ∧ c ≤ (comma_clause_bounds tokens c ss se incl).2
  ∧ (comma_clause_bounds tokens c ss se incl).2 ≤ se.
Proof.
  intros Hc. unfold comma_clause_bounds.
  destruct (List.find _ (rev (range ss c))) as [kl|] eqn:El;
    [apply find_rev_range in El|];
    (destruct (List.find _ (range (c + 1) (se + 1))) as [kr|] eqn:Er;
     [apply find_range in Er|]);
    cbv zeta; destruct incl;
    match goal with |- context [if ?b then _ else _] => destruct b eqn:E end;
    simpl; try apply Z.ltb_lt in E; try apply Z.ltb_ge in E; lia.
Qed.

Lemma foldl_min_le (rest : list Z) (acc : Z) :
  foldl Z.min acc rest ≤ acc ∧ ∀ y, y ∈ rest → foldl Z.min acc rest ≤ y.
Proof.
  revert acc. induction rest as [|z rest IH]; intros acc; simpl.
  - split; [lia | intros y Hy; by apply elem_of_nil in Hy].
  - destruct (IH (Z.min acc z)) as [Ha Hr]. split; [lia|].
    intros y [-> | Hy]%elem_of_cons; [lia | by apply Hr].
Qed.

Lemma foldl_max_ge (rest : list Z) (acc : Z) :
  acc ≤ foldl Z.max acc rest ∧ ∀ y, y ∈ rest → y ≤ foldl Z.max acc rest.
Proof.
  revert acc. induction rest as [|z rest IH]; intros acc; simpl.
  - split; [lia | intros y Hy; by apply elem_of_nil in Hy].
  - destruct (IH (Z.max acc z)) as [Ha Hr]. split; [lia|].
    intros y [-> | Hy]%elem_of_cons; [lia | by apply Hr].
Qed.

Lemma py_min_le (l : list Z) (x : Z) : x ∈ l → py_min l ≤ x.
Proof.
  unfold py_min. destruct l as [|x0 rest]; [intros H; by apply elem_of_nil in H|].
  destruct (foldl_min_le rest x0) as [Ha Hr].
  intros [-> | Hy]%elem_of_cons; [done | by apply Hr].
Qed.

Lemma py_max_ge (l : list Z) (x : Z) : x ∈ l → x ≤ py_max l.
Proof.
  unfold py_max. destruct l as [|x0 rest]; [intros H; by apply elem_of_nil in H|].
  destruct (foldl_max_ge rest x0) as [Ha Hr].
  intros [-> | Hy]%elem_of_cons; [done | by apply Hr].
Qed.

Lemma greatest_item_elem (l : list (Z * Z)) (it : Z * Z) :
  greatest_item l = Some it → it ∈ l.
Proof.
  unfold greatest_item. destruct l as [|x0 rest]; [discriminate|].
  intros [= <-].
  apply (foldl_invariant (λ b : Z * Z, b ∈ x0 :: rest)); [left|].
  intros b j Hj Hb. destruct (item_gt j b); [by right | done].
Qed.

Lemma pick_apodosis_in_segment (tokens : list token) (children : gmap Z (list Z))
    (pv_i : Z) (pn bn : gset Z) (pa : Z) (fb : gset Z) (a : Z) :
  pick_apodosis tokens children pv_i pn bn pa fb = Some a →
  (segment_bounds tokens pv_i).1 ≤ a ≤ (segment_bounds tokens pv_i).2.
Proof.
  unfold pick_apodosis. destruct (segment_bounds tokens pv_i) as [ss se]. simpl.
  set (eligible := List.filter _ (range ss (se + 1))).
  assert (Hel : ∀ j, j ∈ eligible → ss ≤ j ≤ se).
  { intros j Hj. apply list_elem_of_In, filter_In in Hj as [Hj _].
    apply list_elem_of_In, elem_of_range in Hj. lia. }
  assert (Hit : ∀ (p : Z → bool) it,
             it ∈ ((λ j, (apodosis_score tokens children pa j, j)) <$> List.filter p eligible) →
             ss ≤ it.2 ≤ se).
  { intros p it Hin. apply list_elem_of_fmap in Hin as (j & -> & Hj).
    apply list_elem_of_In, filter_In in Hj as [Hj _]. apply Hel. by apply list_elem_of_In. }
  set (item := λ j, (apodosis_score tokens children pa j, j)).
  destruct (greatest_item (item <$> List.filter (λ j, pa <=? j) eligible))
    as [it|] eqn:E1.
  - intros H. injection H as <-. apply greatest_item_elem in E1. by eapply Hit.
  - destruct (greatest_item (item <$> List.filter (λ j, negb (pa <=? j)) eligible))
      as [it|] eqn:E2; [|discriminate].
    intros H. injection H as <-. apply greatest_item_elem in E2. by eapply Hit.
Qed.

Lemma span_ok_intro (n : Z) (ty : string) (sub : option string) (s e : Z)
    (hl : list (Z * Z)) (fs : option (Z * Z)) (cf : Z) (cm : option cond_meta)
    (tr : list (string * trig_val)) :
  0 ≤ s → s ≤ e → e < n →
  Forall (λ ab : Z * Z, (0 ≤ ab.1 < n) ∧ (0 ≤ ab.2 < n)) hl →
  span_ok n (Tag ty sub s e hl fs cf cm tr).
Proof.
  intros H0 Hse Hn Hhl. unfold span_ok. simpl. repeat split; try lia;
    rewrite Forall_forall in Hhl; apply (Hhl (a, b)) in H; simpl in H; lia.
Qed.

(** Closes the invariant of a tag literal whose indices are bounded by the
    hypotheses in context. *)
Ltac span_goal :=
  apply span_ok_intro; [lia | lia | lia | repeat constructor; simpl; lia].

Lemma enumerate_pos (tokens : list token) (i : Z) (t : token) :
  (i, t) ∈ enumerate tokens → 0 ≤ i < len tokens.
Proof. intros [Hr _]%enumerate_tok. by apply in_range_bounds. Qed.

Lemma abl_abs_span (tokens : list token) (i : Z) (t : token) (tg : tag) :
  0 ≤ i < len tokens →
  abl_abs_at tokens (build_children tokens) i t = Some tg →
  span_ok (len tokens) tg.
Proof.
  intros Hi Hat.
  apply abl_abs_at_sound in Hat as (c & g & n & -> & Hc & _).
  apply build_children_valid in Hc. unfold abl_abs_trigger. span_goal.
Qed.

Lemma children_find_valid (tokens : list token) (p : Z → bool) (h c : Z) :
  List.find p (children_get (build_children tokens) h) = Some c → 0 ≤ c < len tokens.
Proof.
  intros [Hin _]%find_some. apply list_elem_of_In in Hin.
  by eapply build_children_valid.
Qed.

Lemma children_filter_valid (tokens : list token) (p : Z → bool) (h c : Z) :
  c ∈ List.filter p (children_get (build_children tokens) h) → 0 ≤ c < len tokens.
Proof.
  intros Hin. apply list_elem_of_In, filter_In in Hin as [Hin _].
  apply list_elem_of_In in Hin. by eapply build_children_valid.
Qed.

Lemma indirect_statement_span (tokens : list token) (i : Z) (t : token) (tg : tag) :
  0 ≤ i < len tokens →
  indirect_statement_at tokens (build_children tokens) i t = Some tg →
  span_ok (len tokens) tg.
Proof.
  intros Hi. unfold indirect_statement_at.
  destruct (negb (PyStr.among (tk_upos t) _)); [discriminate|].
  destruct (negb (PyStr.among (PyStr.lower _) _)); [discriminate|].
  destruct (List.find _ (children_get _ i)) as [inf_i|] eqn:Einf; [|discriminate].
  apply children_find_valid in Einf.
  match goal with
  | |- match ?b with Some _ => _ | None => _ end = _ → _ =>
      destruct b as [best_acc|] eqn:Eacc; [|discriminate]
  end.
  assert (Hacc : 0 ≤ best_acc < len tokens).
  { destruct (List.find _ (children_get _ inf_i)) as [ci|] eqn:Ed.
    - injection Eacc as <-. by apply children_find_valid in Ed.
    - apply find_range in Eacc. lia. }
  destruct (has_strong_boundary_between tokens best_acc inf_i); [discriminate|].
  cbv zeta.
  assert (Hmax : in_range tokens (Z.max best_acc inf_i) = true)
    by (apply in_range_bounds; lia).
  pose proof (find_next_boundary_bounds tokens _ Hmax) as Hend.
  set (end0 := find_next_boundary tokens (Z.max best_acc inf_i)) in *.
  set (start0 := Z.min best_acc inf_i).
  destruct (segment_bounds_spec tokens inf_i Einf) as [Hl Hr].
  destruct (segment_bounds tokens inf_i) as [ss se]. simpl in Hl, Hr.
  destruct (has_strong_boundary_between tokens start0 end0); simpl.
  - destruct (Z.min end0 se <? Z.max start0 ss) eqn:E; [discriminate|].
    apply Z.ltb_ge in E. intros [= <-]. subst start0. span_goal.
  - intros [= <-]. subst start0. span_goal.
Qed.

(** Case analysis on the test of the outermost conditional of the goal. *)
Ltac case_if :=
  match goal with
  | |- context [if ?b then _ else _] => destruct b eqn:?
  end.

Lemma cum_clause_span (tokens : list token) (i : Z) (t : token) (tg : tag) :
  0 ≤ i < len tokens →
  cum_clause_at tokens i t = Some tg →
  ∃ v, tg_type tg = "cum_clause"
       ∧ tg_trigger tg = cum_trigger i v
       ∧ tg_highlight_spans tg = []
       ∧ tg_start tg = i
       ∧ 0 ≤ v < len tokens
       ∧ v ≤ tg_end tg < len tokens.
Proof.
  intros Hi. unfold cum_clause_at.
  do 3 (case_if; [discriminate|]).
  destruct (head_index tokens t) as [v|] eqn:Eh; [|discriminate].
  pose proof (head_index_in_range _ _ _ Eh) as Hv.
  case_if; [discriminate|]. cbv zeta.
  case_if; [|discriminate].
  intros [= <-]. exists v.
  cbn [tg_type tg_trigger tg_highlight_spans tg_start tg_end].
  assert (Hr : in_range tokens v = true) by by apply in_range_bounds.
  pose proof (find_next_boundary_bounds tokens v Hr) as Hb.
  pose proof (scan_right_bounds is_strong_boundary tokens
                (Z.to_nat (len tokens - 1 - v)) v ltac:(lia)) as Hs.
  repeat split; try done; try lia; case_if; lia.
Qed.

Lemma purpose_mark_span (tokens : list token) (i : Z) (t : token) (tg : tag) :
  0 ≤ i < len tokens →
  purpose_mark_at tokens i t = Some tg → span_ok (len tokens) tg.
Proof.
  intros Hi. unfold purpose_mark_at. cbv zeta.
  case_if; [discriminate|].
  destruct (head_index tokens t) as [vi|] eqn:Eh; [|discriminate].
  pose proof (head_index_in_range _ _ _ Eh) as Hv.
  case_if; [discriminate|]. case_if; [discriminate|].
  match goal with
  | |- context [match ?x with (_, _) => _ end] => destruct x as [is_result corr]
  end.
  destruct is_result; intros [= <-]; span_goal.
Qed.

Lemma purpose_ad_span (tokens : list token) (i : Z) (t : token) (tg : tag) :
  0 ≤ i < len tokens →
  purpose_ad_at tokens (build_children tokens) i t = Some tg → span_ok (len tokens) tg.
Proof.
  intros Hi. unfold purpose_ad_at. cbv zeta.
  case_if; [discriminate|].
  destruct (head_index tokens t) as [hi|] eqn:Eh; [|discriminate].
  pose proof (head_index_in_range _ _ _ Eh) as Hv.
  case_if.
  - case_if; [discriminate|]. intros [= <-]. span_goal.
  - case_if; [|discriminate].
    destruct (nearest_to hi _) as [best_g|] eqn:En; [|discriminate].
    apply nearest_to_elem, children_filter_valid in En.
    case_if; [discriminate|]. intros [= <-]. span_goal.
Qed.

Lemma purpose_relative_span (tokens : list token) (i : Z) (t : token) (tg : tag) :
  0 ≤ i < len tokens →
  purpose_relative_at tokens i t = Some tg → span_ok (len tokens) tg.
Proof.
  intros Hi. unfold purpose_relative_at.
  case_if; [discriminate|].
  destruct (relative_verb_walk tokens i 6 i ∅ None) as [vi|] eqn:Ew; [|discriminate].
  apply relative_verb_walk_in_range in Ew as [Ew | Hv]; [discriminate|].
  case_if; [discriminate|]. case_if; [discriminate|].
  intros [= <-]. span_goal.
Qed.

Lemma relative_clause_span (tokens : list token) (i : Z) (t : token) (tg : tag) :
  0 ≤ i < len tokens →
  relative_clause_at tokens i t = Some tg → span_ok (len tokens) tg.
Proof.
  intros Hi. unfold relative_clause_at.
  case_if; [discriminate|].
  destruct (relative_verb_walk tokens i 6 i ∅ None) as [vi|] eqn:Ew; [|discriminate].
  apply relative_verb_walk_in_range in Ew as [Ew | Hv]; [discriminate|].
  case_if; [discriminate|]. cbv zeta.
  case_if; [intros [= <-]; span_goal|].
  case_if; [intros [= <-]; span_goal | discriminate].
Qed.

Lemma flip_gerund_span (tokens : list token) (i : Z) (tg : tag) :
  0 ≤ i < len tokens →
  flip_gerund_at tokens (build_children tokens) i = Some tg → span_ok (len tokens) tg.
Proof.
  intros Hi. unfold flip_gerund_at. cbv zeta.
  case_if; [discriminate|].
  destruct (min_by_distance i _) as [best_obj|] eqn:Em; [|discriminate].
  apply min_by_distance_elem, children_filter_valid in Em.
  intros [= <-]. span_goal.
Qed.

Lemma flip_ad_span (tokens : list token) (i : Z) (t : token) (tg : tag) :
  0 ≤ i < len tokens →
  flip_ad_at tokens (build_children tokens) i t = Some tg → span_ok (len tokens) tg.
Proof.
  intros Hi. unfold flip_ad_at. cbv zeta.
  case_if; [discriminate|]. case_if; [discriminate|].
  destruct (head_index tokens t) as [hi|] eqn:Eh; [|discriminate].
  pose proof (head_index_in_range _ _ _ Eh) as Hv.
  case_if.
  - destruct (nearest_to hi _) as [best_g|] eqn:En; [|discriminate].
    apply nearest_to_elem, children_filter_valid in En.
    case_if; [discriminate|]. intros [= <-]. span_goal.
  - case_if; [|discriminate].
    destruct (nearest_to hi _) as [noun_i|] eqn:En.
    + apply nearest_to_elem, children_filter_valid in En.
      case_if; [discriminate|]. intros [= <-]. span_goal.
    + case_if; [discriminate|]. intros [= <-]. span_goal.
Qed.

Lemma protasis_at_ok (tokens : list token) (i : Z) (t : token) (p : protasis) (r : Z) :
  protasis_at tokens i t = Some (p, r) → protasis_ok tokens p.
Proof.
  unfold protasis_at.
  case_if; [discriminate|]. case_if; [discriminate|].
  destruct (head_index tokens t) as [pv|] eqn:Eh; [|discriminate].
  pose proof (head_index_in_range _ _ _ Eh) as Hv.
  case_if; [discriminate|]. case_if; [discriminate|].
  destruct (segment_bounds tokens pv) as [ss se] eqn:Es.
  destruct (comma_clause_bounds tokens pv ss se true) as [l0 r0].
  intros [= <- <-]. split; simpl; [done | by rewrite Es].
Qed.

Lemma collect_protases_ok (tokens : list token) (p : protasis) :
  p ∈ (collect_protases tokens).1 → protasis_ok tokens p.
Proof.
  unfold collect_protases. revert p.
  apply (foldl_invariant
           (λ acc : list protasis * gmap (Z * Z) seg_info,
              ∀ p, p ∈ acc.1 → protasis_ok tokens p)).
  - intros p H. by apply elem_of_nil in H.
  - intros [ps m] [i t] _ IH p. simpl in IH.
    destruct (protasis_at tokens i t) as [[q r]|] eqn:E; simpl; [|apply IH].
    rewrite elem_of_app, list_elem_of_singleton. intros [Hp | ->]; [by apply IH|].
    by eapply protasis_at_ok.
Qed.

Lemma protasis_span_spec (i pv ss se : Z) (nodes : gset Z) :
  ss ≤ pv ≤ se →
  ss ≤ (protasis_span i pv ss se nodes).1
  ∧ (protasis_span i pv ss se nodes).1 ≤ pv
  ∧ pv ≤ (protasis_span i pv ss se nodes).2
  ∧ (protasis_span i pv ss se nodes).2 ≤ se.
Proof.
  intros Hpv. unfold protasis_span. cbv zeta. cbn [fst snd].
  assert (Hin : pv ∈ elements ({[pv]} ∪ ({[i]} ∪ nodes) : gset Z))
    by (apply elem_of_elements, elem_of_union_l, elem_of_singleton; reflexivity).
  pose proof (py_min_le _ _ Hin). pose proof (py_max_ge _ _ Hin). lia.
Qed.

Lemma apodosis_span_spec (tokens : list token) (children : gmap Z (list Z))
    (a ss se : Z) :
  ss ≤ a ≤ se →
  ss ≤ (apodosis_span tokens children a ss se).1
  ∧ (apodosis_span tokens children a ss se).1 ≤ (apodosis_span tokens children a ss se).2
  ∧ (apodosis_span tokens children a ss se).2 ≤ se.
Proof.
  intros Ha. unfold apodosis_span.
  pose proof (comma_clause_bounds_spec tokens a ss se true Ha) as Hc.
  destruct (comma_clause_bounds tokens a ss se true) as [l r]. simpl in Hc.
  case_if; [|simpl; lia].
  destruct (List.filter _ _) as [|x rest] eqn:Ef; [simpl; lia|].
  assert (Hx : x ∈ List.filter (λ j, in_subtree tokens children a j) (range l (r + 1)))
    by (rewrite Ef; left).
  pose proof Hx as Hx'. rewrite Ef in Hx'.
  apply list_elem_of_In, filter_In in Hx as [Hx _].
  apply list_elem_of_In, elem_of_range in Hx.
  pose proof (py_min_le _ _ Hx'). pose proof (py_max_ge _ _ Hx'). cbn [fst snd]. lia.
Qed.

Lemma choose_apodosis_in_segment (tokens : list token) (children : gmap Z (list Z))
    (pv ss se : Z) (pn bn : gset Z) (pa a : Z) :
  (choose_apodosis tokens children pv ss se pn bn pa).1 = Some a →
  (segment_bounds tokens pv).1 ≤ a ≤ (segment_bounds tokens pv).2.
Proof.
  unfold choose_apodosis. cbv zeta.
  destruct (pick_apodosis tokens children pv pn bn pa ∅) as [a0|] eqn:E0.
  - case_if.
    + match goal with
      | |- context [pick_apodosis tokens children pv pn bn pa ?f] =>
          destruct (pick_apodosis tokens children pv pn bn pa f) as [alt|] eqn:E1
      end; simpl; intros [= <-]; by eapply pick_apodosis_in_segment.
    + simpl. intros [= <-]. by eapply pick_apodosis_in_segment.
  - simpl. discriminate.
Qed.

Lemma conditional_tags_span (tokens : list token) (children : gmap Z (list Z))
    (info : gmap (Z * Z) seg_info) (p : protasis) (tg : tag) :
  protasis_ok tokens p →
  tg ∈ conditional_tags_of tokens children info p →
  span_ok (len tokens) tg.
Proof.
  intros [Hpv Hseg]. unfold conditional_tags_of. cbv zeta.
  destruct (segment_bounds_spec tokens (pr_pv_i p) Hpv) as [Hl Hr].
  rewrite <- Hseg in Hl, Hr. cbn [fst snd] in Hl, Hr.
  match goal with
  | |- context [choose_apodosis ?t ?c ?pv ?ss ?se ?pn ?bn ?pa] =>
      pose proof (choose_apodosis_in_segment t c pv ss se pn bn pa) as Hap;
      destruct (choose_apodosis t c pv ss se pn bn pa) as [ap disc]
  end.
  cbn [fst snd] in Hap. rewrite <- Hseg in Hap. cbn [fst snd] in Hap.
  pose proof (protasis_span_spec (pr_si_index p) (pr_pv_i p) (pr_seg_start p)
                (pr_seg_end p) (pr_protasis_nodes p) ltac:(lia)) as Hps.
  destruct (protasis_span _ _ _ _ _) as [ps pe]. cbn [fst snd] in Hps.
  destruct ap as [a|].
  - specialize (Hap a eq_refl).
    pose proof (apodosis_span_spec tokens children a (pr_seg_start p) (pr_seg_end p)
                  ltac:(lia)) as Has.
    destruct (apodosis_span _ _ _ _ _) as [as_ ae]. cbn [fst snd] in Has.
    intros [-> | [-> | H]%elem_of_cons]%elem_of_cons;
      [span_goal | span_goal | by apply elem_of_nil in H].
  - intros [-> | H]%elem_of_cons; [span_goal | by apply elem_of_nil in H].
Qed.

Lemma omap_enumerate_span (tokens : list token) (f : Z → token → option tag)
    (P : tag → Prop) (tg : tag) :
  (∀ i t tg, 0 ≤ i < len tokens → f i t = Some tg → P tg) →
  tg ∈ omap (λ '(i, t), f i t) (enumerate tokens) → P tg.
Proof.
  intros Hf Hin. apply list_elem_of_omap in Hin as ([i t] & Hen & Hat).
  apply enumerate_pos in Hen. by eapply Hf.
Qed.

Lemma omap_range_span (n : Z) (f : Z → option tag) (P : tag → Prop) (tg : tag) :
  (∀ i tg, 0 ≤ i < n → f i = Some tg → P tg) →
  tg ∈ omap f (range 0 n) → P tg.
Proof.
  intros Hf Hin. apply list_elem_of_omap in Hin as (i & Hi & Hat).
  apply elem_of_range in Hi. eapply Hf; [|done]. lia.
Qed.

Lemma dedup_tags_subset (l : list tag) (tg : tag) : tg ∈ dedup_tags l → tg ∈ l.
Proof.
  unfold dedup_tags.
  apply (foldl_invariant
           (λ acc : list tag_key * list tag, tg ∈ acc.2 → tg ∈ l)).
  - simpl. intros H. by apply elem_of_nil in H.
  - intros [seen out] t Ht IH. unfold dedup_step. simpl in *.
    case_if; simpl; [done|].
    rewrite elem_of_app, list_elem_of_singleton. intros [H | ->]; auto.
Qed.

(** X1: every tag the sentence driver emits has its start, its end and all
    its highlight indices among the token positions; and it satisfies the full
    invariant [start <= end] as well, unless it is a cum_clause tag whose
    verb precedes its marker. *)
Theorem sentence_tags_positions (tokens : list token) (tg : tag) :
  tg ∈ sentence_tags tokens →
  positions_ok (len tokens) tg
  ∧ (span_ok (len tokens) tg
     ∨ ∃ i v, tg_type tg = "cum_clause" ∧ tg_trigger tg = cum_trigger i v ∧ v < i).
Proof.
  intros Hin. apply dedup_tags_subset in Hin.
  unfold positions_ok.
  assert (Hok : span_ok (len tokens) tg →
     ((0 ≤ tg_start tg < len tokens) ∧ (0 ≤ tg_end tg < len tokens)
      ∧ ∀ a b, (a, b) ∈ tg_highlight_spans tg → (0 ≤ a < len tokens) ∧ (0 ≤ b < len tokens))
     ∧ (span_ok (len tokens) tg
        ∨ ∃ i v, tg_type tg = "cum_clause" ∧ tg_trigger tg = cum_trigger i v ∧ v < i)).
  { intros Hs. split; [|by left]. destruct Hs as (H0 & H1 & H2 & H3).
    repeat split; try lia; apply (H3 a b H). }
  rewrite !elem_of_app in Hin.
  destruct Hin as [Hin | [Hin | [Hin | [Hin | [Hin | [Hin | [Hin | Hin]]]]]]].
  - unfold tag_cum_clauses in Hin.
    apply list_elem_of_omap in Hin as ([i t] & Hen & Hat).
    apply enumerate_pos in Hen.
    apply cum_clause_span in Hat as (v & Hty & Htr & Hhl & Hst & Hv & He); [|done].
    split.
    + rewrite Hhl, Hst. repeat split; try lia; by apply elem_of_nil in H.
    + destruct (Z_lt_le_dec v i) as [Hlt | Hle].
      * right. exists i, v. done.
      * left. unfold span_ok. rewrite Hhl, Hst.
        repeat split; try lia; by apply elem_of_nil in H.
  - apply Hok. unfold tag_ablative_absolutes in Hin.
    eapply omap_enumerate_span; [|exact Hin]. apply abl_abs_span.
  - apply Hok. unfold tag_indirect_statements in Hin.
    eapply omap_enumerate_span; [|exact Hin]. apply indirect_statement_span.
  - apply Hok. unfold tag_purpose_clauses in Hin. rewrite !elem_of_app in Hin.
    destruct Hin as [Hin | [Hin | Hin]].
    + eapply omap_enumerate_span; [|exact Hin]. apply purpose_mark_span.
    + eapply omap_enumerate_span; [|exact Hin]. apply purpose_ad_span.
    + eapply omap_enumerate_span; [|exact Hin]. apply purpose_relative_span.
  - apply Hok. unfold tag_relative_clauses in Hin.
    eapply omap_enumerate_span; [|exact Hin]. apply relative_clause_span.
  - apply Hok. unfold tag_gerunds_and_gerundives in Hin.
    eapply omap_range_span; [|exact Hin].
    intros i tg' Hi. cbv beta. case_if; [intros [= <-]; span_goal|].
    case_if; [intros [= <-]; span_goal | discriminate].
  - apply Hok. unfold tag_gerund_gerundive_flip in Hin. rewrite elem_of_app in Hin.
    destruct Hin as [Hin | Hin].
    + eapply omap_range_span; [|exact Hin]. apply flip_gerund_span.
    + eapply omap_enumerate_span; [|exact Hin]. apply flip_ad_span.
  - apply Hok. unfold tag_conditionals in Hin.
    pose proof (collect_protases_ok tokens) as Hps.
    destruct (collect_protases tokens) as [protases info]. simpl in Hps.
    apply list_elem_of_In, in_flat_map in Hin as (p & Hp & Htg).
    eapply conditional_tags_span; [apply Hps; by apply list_elem_of_In|].
    by apply list_elem_of_In.
Qed.

(** ** Deduplicator *)

Lemma dedup_tags_fold (l : list tag) : dedup_tags l = (foldl dedup_step ([], []) l).2.
Proof. reflexivity. Qed.

Lemma dedup_fresh (l : list tag) (seen : list tag_key) (out : list tag) :
  NoDup (dedup_key <$> l) →
  (∀ t, t ∈ l → dedup_key t ∉ seen) →
  foldl dedup_step (seen, out) l = ((rev (dedup_key <$> l) ++ seen)%list, (out ++ l)%list).
Proof.
  revert seen out. induction l as [|x l IH]; intros seen out Hnd Hfresh.
  - simpl. by rewrite app_nil_r.
  - rewrite fmap_cons in Hnd. apply NoDup_cons in Hnd as [Hx Hnd].
    assert (Hstep : dedup_step (seen, out) x
                    = (dedup_key x :: seen, (out ++ [x])%list)).
    { unfold dedup_step. cbv beta iota zeta.
      rewrite bool_decide_eq_false_2; [done|]. apply Hfresh. left. }
    cbn [foldl]. rewrite Hstep. rewrite IH; [| done |].
    + rewrite fmap_cons. cbn [rev]. rewrite <- !app_assoc. reflexivity.
    + intros t Ht [Heq | Hin]%elem_of_cons.
      * apply Hx. rewrite <- Heq. rewrite list_elem_of_fmap. eauto.
      * eapply Hfresh; [by right | done].
Qed.

Lemma dedup_keys_distinct (l : list tag) : NoDup (dedup_key <$> dedup_tags l).
Proof.
  rewrite dedup_tags_fold.
  apply (foldl_invariant
           (λ acc : list tag_key * list tag,
              NoDup (dedup_key <$> acc.2) ∧ ∀ k, k ∈ acc.1 ↔ k ∈ dedup_key <$> acc.2)
           dedup_step l ([], [])).
  - simpl. split; [constructor | done].
  - intros [seen out] t _ [Hnd Hiff]. unfold dedup_step. simpl in *.
    case_bool_decide as Hk; simpl; [done|].
    rewrite fmap_app. simpl. split.
    + apply NoDup_app. split; [done|]. split; [|apply NoDup_singleton].
      intros k Hk' ->%list_elem_of_singleton. apply Hk. by apply Hiff.
    + intros k. rewrite elem_of_cons, elem_of_app, list_elem_of_singleton, Hiff. tauto.
Qed.

(** X2: running the deduplicator on its own output changes nothing. *)
Theorem dedup_tags_idempotent (l : list tag) : dedup_tags (dedup_tags l) = dedup_tags l.
Proof.
  rewrite (dedup_tags_fold (dedup_tags l)).
  rewrite dedup_fresh; [done | apply dedup_keys_distinct |].
  intros t _ H. by apply elem_of_nil in H.
Qed.

Lemma sentence_tags_positions_witness :
  positions_ok (len cum_after_verb)
    (Tag "cum_clause" None 2 0 [] None 90 None (cum_trigger 2 0)).
Proof.
  apply (sentence_tags_positions cum_after_verb).
  change (sentence_tags cum_after_verb)
    with [Tag "cum_clause" None 2 0 [] None 90 None (cum_trigger 2 0)].
  apply list_elem_of_here.
Defined.

(** ** Tree index: what the children lists hold *)

Lemma foldl_pointwise {A B : Type} (f g : A → B → A) (l : list B) (a : A) :
  (∀ a x, f a x = g a x) → foldl f a l = foldl g a l.
Proof.
  intros H. revert a. induction l as [|x l IH]; intros a; simpl; [done|].
  by rewrite H, IH.
Qed.

Lemma build_children_fold (tokens : list token) :
  build_children tokens
  = foldl (build_step tokens)
          (list_to_map ((λ i, (i, [])) <$> range 0 (len tokens))) (enumerate tokens).
Proof.
  unfold build_children. apply foldl_pointwise. intros ch [i t]. unfold build_step, head_index.
  simpl. destruct (tk_head t) as [hd|]; [|done].
  destruct (hd <=? 0); [done|]. destruct (in_range tokens (hd - 1)); done.
Qed.

Lemma initial_lookup (l : list Z) (h : Z) :
  h ∈ l → (list_to_map ((λ i, (i, [])) <$> l) : gmap Z (list Z)) !! h = Some [].
Proof.
  induction l as [|x l IH]; [intros H; by apply elem_of_nil in H|].
  intros Hin. simpl. destruct (decide (x = h)) as [->|Hne].
  - by rewrite lookup_insert_eq.
  - rewrite lookup_insert_ne by done. apply IH. apply elem_of_cons in Hin as [?|?]; [congruence|done].
Qed.

Lemma enumerate_lookup (tokens : list token) (k : nat) (t : token) :
  tokens !! k = Some t → enumerate tokens !! k = Some (Z.of_nat k, t).
Proof.
  intros Ht. unfold enumerate. apply lookup_zip_with_Some. exists (Z.of_nat k), t.
  split; [done|]. split; [|done]. apply lookup_seqZ. split; [lia|].
  pose proof (lookup_lt_Some _ _ _ Ht). unfold len. lia.
Qed.

Lemma range_snoc (k : Z) : 0 ≤ k → range 0 (k + 1) = (range 0 k ++ [k])%list.
Proof.
  intros Hk. unfold range. replace (k + 1 - 0) with (k + 1) by lia.
  rewrite seqZ_app by lia. replace (k - 0) with k by lia.
  reflexivity.
Qed.

Lemma build_prefix (tokens : list token) (k : nat) :
  (k ≤ length tokens)%nat →
  ∀ h, let ch := foldl (build_step tokens)
                   (list_to_map ((λ i, (i, [])) <$> range 0 (len tokens)))
                   (take k (enumerate tokens)) in
       (0 ≤ h < len tokens → is_Some (ch !! h))
       ∧ children_get ch h = List.filter (points_to tokens h) (range 0 (Z.of_nat k)).
Proof.
  induction k as [|k IH]; intros Hk h; cbv zeta.
  - simpl. split.
    + intros Hh. rewrite initial_lookup; [done|]. apply elem_of_range. lia.
    + by rewrite children_get_initial.
  - destruct (lookup_lt_is_Some_2 tokens k) as [t Ht]; [lia|].
    pose proof (enumerate_lookup _ _ _ Ht) as Hen.
    rewrite (take_S_r _ _ _ Hen), foldl_app. cbn [foldl].
    set (ch := foldl _ _ (take k (enumerate tokens))) in *.
    assert (IHk : ∀ h, (0 ≤ h < len tokens → is_Some (ch !! h))
                       ∧ children_get ch h
                         = List.filter (points_to tokens h) (range 0 (Z.of_nat k)))
      by (intros h'; apply IH; lia).
    destruct (tok_lookup _ _ _ Ht) as [_ Htok].
    replace (Z.of_nat (S k)) with (Z.of_nat k + 1) by lia.
    rewrite range_snoc by lia. rewrite List.filter_app. cbn [List.filter].
    unfold points_to at 2. rewrite Htok.
    unfold build_step. cbn [fst snd].
    destruct (head_index tokens t) as [h'|] eqn:Eh.
    + pose proof (head_index_in_range _ _ _ Eh) as Hh'.
      destruct (IHk h') as [Hsome' _]. specialize (Hsome' Hh').
      split.
      * intros Hh. destruct (decide (h' = h)) as [->|Hne].
        -- rewrite lookup_alter_eq. destruct Hsome' as [cs ->]. by eexists.
        -- rewrite lookup_alter_ne by done. by apply IHk.
      * unfold children_get. destruct (decide (h' = h)) as [->|Hne].
        -- rewrite lookup_alter_eq. rewrite bool_decide_eq_true_2 by done.
           destruct Hsome' as [cs Hcs]. destruct (IHk h) as [_ Hf].
           unfold children_get in Hf. rewrite Hcs in *. simpl in *. by rewrite Hf.
        -- rewrite lookup_alter_ne by done.
           rewrite bool_decide_eq_false_2 by congruence.
           rewrite app_nil_r. apply IHk.
    + split; [apply IHk|]. rewrite bool_decide_eq_false_2 by done.
      rewrite app_nil_r. apply IHk.
Qed.

Lemma build_children_filter (tokens : list token) (h : Z) :
  children_get (build_children tokens) h
  = List.filter (points_to tokens h) (range 0 (len tokens)).
Proof.
  rewrite build_children_fold.
  pose proof (build_prefix tokens (length tokens) ltac:(lia) h) as [_ H].
  rewrite firstn_all2 in H; [exact H|].
  unfold enumerate. rewrite length_zip_with, length_seqZ. unfold len. lia.
Qed.

Lemma build_children_mem (tokens : list token) (h c : Z) :
  c ∈ children_get (build_children tokens) h ↔ head_of tokens h c.
Proof.
  rewrite build_children_filter, list_elem_of_In, filter_In, <- list_elem_of_In, elem_of_range.
  unfold points_to, head_of. rewrite bool_decide_eq_true. tauto.
Qed.

(** X3: the children list that [build_children] stores for [h] is exactly the
    list of positions whose token names [h] as its head, in sentence order;
    so a position is a child of [h] iff it is a token position with head [h],
    and no position is the child of two heads. *)
Theorem build_children_characterised (tokens : list token) (h : Z) :
  children_get (build_children tokens) h
  = List.filter (points_to tokens h) (range 0 (len tokens))
  ∧ (∀ c, c ∈ children_get (build_children tokens) h
          ↔ (0 ≤ c < len tokens) ∧ head_index tokens (tok tokens c) = Some h)
  ∧ (∀ c h', c ∈ children_get (build_children tokens) h →
             c ∈ children_get (build_children tokens) h' → h = h').
Proof.
  split; [apply build_children_filter|]. split; [apply build_children_mem|].
  intros c h' [_ H1]%build_children_mem [_ H2]%build_children_mem. congruence.
Qed.

(** ** Subtree walk: what it decides *)

Lemma elem_of_rev (x : Z) (l : list Z) : x ∈ rev l ↔ x ∈ l.
Proof. rewrite !list_elem_of_In. symmetry. apply in_rev. Qed.

Section Reach.
Variable children : gmap Z (list Z).

Lemma reach_avoiding_start (seen : gset Z) (a b : Z) :
  reach_avoiding children seen a b → a ∉ seen.
Proof. by destruct 1. Qed.

Lemma reach_avoiding_rtc (seen : gset Z) (a b : Z) :
  reach_avoiding children seen a b → rtc (child_of children) a b.
Proof.
  induction 1 as [a Ha | a c b Ha Hc _ IH]; [apply rtc_refl|].
  by eapply rtc_l.
Qed.

Lemma rtc_reach_avoiding (a b : Z) :
  rtc (child_of children) a b → reach_avoiding children ∅ a b.
Proof.
  induction 1 as [a | a c b Hc _ IH]; [apply reach_here, not_elem_of_empty|].
  eapply reach_child; [apply not_elem_of_empty | exact Hc | exact IH].
Qed.

Lemma reach_avoiding_expand (seen : gset Z) (cur a b : Z) :
  cur ≠ b →
  reach_avoiding children seen a b →
  reach_avoiding children ({[cur]} ∪ seen) a b
  ∨ ∃ c, c ∈ children_get children cur ∧ reach_avoiding children ({[cur]} ∪ seen) c b.
Proof.
  intros Hne. induction 1 as [a Ha | a c b Ha Hc _ IH].
  - left. apply reach_here. rewrite elem_of_union, elem_of_singleton. intros [-> | ?]; done.
  - destruct (IH Hne) as [Hr | Hr]; [|by right].
    destruct (decide (a = cur)) as [-> | Hac].
    + right. by exists c.
    + left. eapply reach_child; [| exact Hc | exact Hr].
      rewrite elem_of_union, elem_of_singleton. intros [? | ?]; done.
Qed.

Lemma in_subtree_loop_sound (query_i : Z) (fuel : nat) (stack : list Z) (seen : gset Z) :
  in_subtree_loop fuel children query_i stack seen = Some true →
  ∃ s, s ∈ stack ∧ rtc (child_of children) s query_i.
Proof.
  revert stack seen. induction fuel as [|fuel IH]; intros stack seen; [discriminate|].
  simpl. destruct stack as [|cur rest]; [discriminate|].
  destruct (cur =? query_i) eqn:E.
  - apply Z.eqb_eq in E as ->. intros _. exists query_i. split; [left | apply rtc_refl].
  - case_bool_decide.
    + intros (s & Hs & Hr)%IH. exists s. split; [by right | done].
    + intros (s & Hs & Hr)%IH. apply elem_of_app in Hs as [Hs | Hs].
      * exists cur. split; [left|]. eapply rtc_l; [|exact Hr].
        unfold child_of. by apply elem_of_rev.
      * exists s. split; [by right | done].
Qed.

Lemma in_subtree_loop_complete (query_i : Z) (fuel : nat) (stack : list Z) (seen : gset Z) :
  in_subtree_loop fuel children query_i stack seen = Some false →
  ∀ s, s ∈ stack → ¬ reach_avoiding children seen s query_i.
Proof.
  revert stack seen. induction fuel as [|fuel IH]; intros stack seen; [discriminate|].
  simpl. destruct stack as [|cur rest]; [intros _ s Hs; by apply elem_of_nil in Hs|].
  destruct (cur =? query_i) eqn:E; [discriminate|]. apply Z.eqb_neq in E.
  case_bool_decide as Hseen.
  - intros Hloop s [-> | Hs]%elem_of_cons Hr.
    + by apply reach_avoiding_start in Hr.
    + by eapply IH.
  - intros Hloop s Hs Hr.
    destruct (reach_avoiding_expand seen cur s query_i E Hr) as [Hr' | (c & Hc & Hr')].
    + apply elem_of_cons in Hs as [-> | Hs].
      * apply reach_avoiding_start in Hr'. apply Hr', elem_of_union_l, elem_of_singleton. done.
      * eapply IH; [exact Hloop | | exact Hr']. apply elem_of_app. by right.
    + eapply IH; [exact Hloop | | exact Hr']. apply elem_of_app. left. by apply elem_of_rev.
Qed.
End Reach.

Lemma in_subtree_rtc (tokens : list token) (children : gmap Z (list Z)) (root_i query_i : Z) :
  in_subtree tokens children root_i query_i = true
  ↔ rtc (child_of children) root_i query_i.
Proof.
  unfold in_subtree.
  destruct (in_subtree_loop_returns children query_i (in_subtree_fuel children)
              [root_i] ∅) as [b Hb].
  { unfold in_subtree_fuel. simpl. lia. }
  rewrite Hb. simpl. destruct b.
  - split; [intros _ | done].
    apply in_subtree_loop_sound in Hb as (s & Hs & Hr).
    apply list_elem_of_singleton in Hs as ->. exact Hr.
  - split; [discriminate|]. intros Hr. exfalso.
    eapply (in_subtree_loop_complete children query_i _ _ _ Hb root_i); [left|].
    by apply rtc_reach_avoiding.
Qed.

(** X4: for every children map, cyclic or not, [in_subtree] answers True
    exactly when the query position is the root or can be reached from it by
    following children lists, and False exactly when it cannot. *)
Theorem in_subtree_decides_reachability (tokens : list token) (children : gmap Z (list Z))
    (root_i query_i : Z) :
  (in_subtree tokens children root_i query_i = true
   ↔ rtc (child_of children) root_i query_i)
  ∧ (in_subtree tokens children root_i query_i = false
     ↔ ¬ rtc (child_of children) root_i query_i).
Proof.
  split; [apply in_subtree_rtc|].
  rewrite <- (in_subtree_rtc tokens). destruct (in_subtree _ _ _ _); split; congruence.
Qed.

Lemma rtc_head_of_in_range (tokens : list token) (a b : Z) :
  rtc (head_of tokens) a b → a = b ∨ 0 ≤ b < len tokens.
Proof.
  induction 1 as [a | a c b [Hc _] _ IH]; [by left|].
  destruct IH as [<- | ?]; by right.
Qed.

(** X5: on the tree index of a sentence, [in_subtree] holds exactly when the
    query token is the root or descends from it through the tokens' head
    references; a query other than the root that is found is a token
    position. *)
Theorem in_subtree_follows_heads (tokens : list token) (root_i query_i : Z) :
  (in_subtree tokens (build_children tokens) root_i query_i = true
   ↔ rtc (head_of tokens) root_i query_i)
  ∧ (in_subtree tokens (build_children tokens) root_i query_i = true →
     root_i = query_i ∨ 0 ≤ query_i < len tokens).
Proof.
  assert (H : in_subtree tokens (build_children tokens) root_i query_i = true
              ↔ rtc (head_of tokens) root_i query_i).
  { rewrite in_subtree_rtc. split; apply rtc_subrel; intros a c;
      unfold child_of; by rewrite build_children_mem. }
  split; [exact H|]. intros Ht%H. by apply rtc_head_of_in_range.
Qed.

(** ** Segments and sentence units *)

Lemma scan_left_spec (boundary : token → bool) (tokens : list token) (fuel : nat) (l : Z) :
  0 ≤ l → (Z.to_nat l ≤ fuel)%nat →
  (∀ k, scan_left boundary tokens fuel l ≤ k < l → boundary (tok tokens k) = false)
  ∧ (scan_left boundary tokens fuel l = 0
     ∨ boundary (tok tokens (scan_left boundary tokens fuel l - 1)) = true).
Proof.
  revert l. induction fuel as [|fuel IH]; intros l Hl Hf; simpl.
  - split; [lia|]. left. lia.
  - destruct (0 <? l) eqn:E; [apply Z.ltb_lt in E | apply Z.ltb_ge in E].
    + destruct (boundary (tok tokens (l - 1))) eqn:Eb.
      * split; [lia | by right].
      * destruct (IH (l - 1)) as [Hk Hend]; [lia | lia |]. split; [|exact Hend].
        intros k Hk'. destruct (decide (k = l - 1)) as [-> | Hne]; [exact Eb|].
        apply Hk. lia.
    + split; [lia|]. left. lia.
Qed.

Lemma scan_right_spec (boundary : token → bool) (tokens : list token) (fuel : nat) (r : Z) :
  r ≤ len tokens - 1 → (Z.to_nat (len tokens - 1 - r) ≤ fuel)%nat →
  (∀ k, r < k ≤ scan_right boundary tokens fuel r → boundary (tok tokens k) = false)
  ∧ (scan_right boundary tokens fuel r = len tokens - 1
     ∨ boundary (tok tokens (scan_right boundary tokens fuel r + 1)) = true).
Proof.
  revert r. induction fuel as [|fuel IH]; intros r Hr Hf; simpl.
  - split; [lia|]. left. lia.
  - destruct (r <? len tokens - 1) eqn:E; [apply Z.ltb_lt in E | apply Z.ltb_ge in E].
    + destruct (boundary (tok tokens (r + 1))) eqn:Eb.
      * split; [lia | by right].
      * destruct (IH (r + 1)) as [Hk Hend]; [lia | lia |]. split; [|exact Hend].
        intros k Hk'. destruct (decide (k = r + 1)) as [-> | Hne]; [exact Eb|].
        apply Hk. lia.
    + split; [lia|]. left. lia.
Qed.

Lemma scans_maximal_run (boundary : token → bool) (tokens : list token) (i : Z) :
  0 ≤ i < len tokens →
  maximal_run boundary tokens i
    (scan_left boundary tokens (Z.to_nat i) i,
     scan_right boundary tokens (Z.to_nat (len tokens - 1 - i)) i).
Proof.
  intros Hi. unfold maximal_run. cbn [fst snd].
  pose proof (scan_left_bounds boundary tokens (Z.to_nat i) i ltac:(lia)) as Hl.
  pose proof (scan_right_bounds boundary tokens (Z.to_nat (len tokens - 1 - i)) i
                ltac:(lia)) as Hr.
  destruct (scan_left_spec boundary tokens (Z.to_nat i) i) as [Hlk Hle]; [lia | lia |].
  destruct (scan_right_spec boundary tokens (Z.to_nat (len tokens - 1 - i)) i)
    as [Hrk Hre]; [lia | lia |].
  split; [lia|]. split; [|by split].
  intros k Hk Hne. destruct (decide (k < i)); [apply Hlk | apply Hrk]; lia.
Qed.

(** X6: for a token position [i], [segment_bounds] returns the maximal run
    around [i] without strong punctuation and [sentence_bounds] the maximal
    run without sentence-end punctuation: each lies inside the sentence,
    contains [i], holds no boundary token other than possibly [i] itself, and
    is closed on each side by a boundary token or the edge of the sentence. *)
Theorem bounds_are_maximal_runs (tokens : list token) (i : Z) :
  0 ≤ i < len tokens →
  maximal_run is_strong_boundary tokens i (segment_bounds tokens i)
  ∧ maximal_run is_sentence_end_boundary tokens i (sentence_bounds tokens i).
Proof.
  intros Hi. split; apply scans_maximal_run; exact Hi.
Qed.

Lemma bounds_are_maximal_runs_witness :
  maximal_run is_strong_boundary venit_vidit_vicit 2 (2, 2)
  ∧ maximal_run is_sentence_end_boundary venit_vidit_vicit 2 (0, 4).
Proof.
  apply (bounds_are_maximal_runs venit_vidit_vicit 2). vm_compute. split; [discriminate | reflexivity].
Defined.

Lemma sentence_end_is_strong (t : token) :
  is_sentence_end_boundary t = true → is_strong_boundary t = true.
Proof.
  unfold is_sentence_end_boundary, is_strong_boundary, SENTENCE_END_PUNCT, STRONG_PUNCT.
  destruct (String.eqb (tk_upos t) "PUNCT"); [|done].
  unfold PyStr.among. cbn [existsb].
  destruct (String.eqb (tok_text t) "."), (String.eqb (tok_text t) "?"),
    (String.eqb (tok_text t) "!"); simpl; try done; by rewrite ?orb_true_r.
Qed.

Lemma has_strong_boundary_between_spec (tokens : list token) (a b : Z) :
  has_strong_boundary_between tokens a b = true
  ↔ ∃ k, Z.min a b < k < Z.max a b ∧ is_strong_boundary (tok tokens k) = true.
Proof.
  unfold has_strong_boundary_between.
  destruct (a <=? b) eqn:E; [apply Z.leb_le in E | apply Z.leb_gt in E];
    rewrite existsb_exists; split.
  - intros (k & Hk & Hb). exists k. apply list_elem_of_In, elem_of_range in Hk. split; [lia | done].
  - intros (k & Hk & Hb). exists k. split; [|done]. apply list_elem_of_In, elem_of_range. lia.
  - intros (k & Hk & Hb). exists k. apply list_elem_of_In, elem_of_range in Hk. split; [lia | done].
  - intros (k & Hk & Hb). exists k. split; [|done]. apply list_elem_of_In, elem_of_range. lia.
Qed.

(** X7: the strong-boundary test between two positions is symmetric, and
    for a token position [i] it agrees with [segment_bounds]: a position [j]
    is separated from [i] by strong punctuation exactly when it lies beyond
    the token that closes the segment of [i]; the sentence unit of [i]
    contains its segment. *)
Theorem strong_boundary_between_segment (tokens : list token) (i : Z) :
  0 ≤ i < len tokens →
  (∀ j, has_strong_boundary_between tokens i j = has_strong_boundary_between tokens j i)
  ∧ (∀ j, 0 ≤ j < len tokens →
          (has_strong_boundary_between tokens i j = true
           ↔ j < (segment_bounds tokens i).1 - 1 ∨ (segment_bounds tokens i).2 + 1 < j))
  ∧ (sentence_bounds tokens i).1 ≤ (segment_bounds tokens i).1
  ∧ (segment_bounds tokens i).2 ≤ (sentence_bounds tokens i).2.
Proof.
  intros Hi.
  destruct (scans_maximal_run is_strong_boundary tokens i Hi) as (Hb & Hin & Hl & Hr).
  destruct (scans_maximal_run is_sentence_end_boundary tokens i Hi) as (Hb' & Hin' & Hl' & Hr').
  fold (segment_bounds tokens i) in Hb, Hin, Hl, Hr.
  fold (sentence_bounds tokens i) in Hb', Hin', Hl', Hr'.
  set (l := (segment_bounds tokens i).1) in *. set (r := (segment_bounds tokens i).2) in *.
  set (l' := (sentence_bounds tokens i).1) in *. set (r' := (sentence_bounds tokens i).2) in *.
  split; [|split; [|split]].
  - intros j. apply eq_true_iff_eq. rewrite !has_strong_boundary_between_spec.
    by rewrite Z.min_comm, Z.max_comm.
  - intros j Hj. rewrite has_strong_boundary_between_spec. split.
    + intros (k & Hk & Hs).
      destruct (decide (j < l - 1)); [by left|]. destruct (decide (r + 1 < j)); [by right|].
      rewrite Hin in Hs; [done | lia | lia].
    + intros [Hlt | Hgt].
      * destruct Hl as [Hl | Hl]; [lia|]. exists (l - 1). split; [lia | done].
      * destruct Hr as [Hr | Hr]; [lia|]. exists (r + 1). split; [lia | done].
  - destruct (decide (l' ≤ l)) as [|Hn]; [done|]. exfalso.
    destruct Hl' as [Hl' | Hl']; [lia|].
    apply sentence_end_is_strong in Hl'. rewrite Hin in Hl'; [done | lia | lia].
  - destruct (decide (r ≤ r')) as [|Hn]; [done|]. exfalso.
    destruct Hr' as [Hr' | Hr']; [lia|].
    apply sentence_end_is_strong in Hr'. rewrite Hin in Hr'; [done | lia | lia].
Qed.

Lemma strong_boundary_between_segment_witness :
  has_strong_boundary_between venit_vidit_vicit 0 4 = true.
Proof.
  destruct (strong_boundary_between_segment venit_vidit_vicit 0) as (_ & H & _).
  - vm_compute. split; [discriminate | reflexivity].
  - apply (H 4).
    + vm_compute. split; [discriminate | reflexivity].
    + right. vm_compute. reflexivity.
Defined.

(** ** Clause ends: what the scan stops at *)

Lemma range_cons (a b : Z) : a < b → range a b = a :: range (a + 1) b.
Proof.
  intros H. unfold range. rewrite seqZ_cons by lia. f_equal.
  replace (Z.succ a) with (a + 1) by lia. f_equal. lia.
Qed.

Lemma range_empty (a b : Z) : b ≤ a → range a b = [].
Proof. intros H. unfold range. apply seqZ_nil. lia. Qed.

Lemma find_next_boundary_from_spec (tokens : list token) (s : Z) (m : nat) (a : Z) :
  0 ≤ s < len tokens → s ≤ a ≤ len tokens → Z.to_nat (len tokens - a) = m →
  (∀ k, s ≤ k < a → clause_stop tokens s k = false) →
  let r := find_next_boundary_from tokens s (range a (len tokens)) in
  (∀ k, s < k ≤ r → clause_stop tokens s k = false)
  ∧ (r = len tokens - 1 ∨ clause_stop tokens s (r + 1) = true
     ∨ (r = s ∧ is_punct (tok tokens s) = true)).
Proof.
  intros Hs. revert a. induction m as [|m IH]; intros a Ha Hm Hpre; cbv zeta.
  - rewrite range_empty by lia. simpl. split; [|by left].
    intros k Hk. apply Hpre. lia.
  - rewrite range_cons by lia. cbn [find_next_boundary_from].
    destruct (is_punct (tok tokens a)) eqn:Ep.
    + destruct (decide (a = s)) as [-> | Hne].
      * replace (Z.max s (s - 1)) with s by lia. split; [lia|]. right. right. done.
      * replace (Z.max s (a - 1)) with (a - 1) by lia. split.
        -- intros k Hk. apply Hpre. lia.
        -- right. left. replace (a - 1 + 1) with a by lia. unfold clause_stop. by rewrite Ep.
    + destruct (PyStr.among (tk_deprel (tok tokens a)) ["parataxis"; "root"]
                && negb (a =? s)) eqn:Er.
      * split.
        -- intros k Hk. apply Hpre. lia.
        -- right. left. replace (a - 1 + 1) with a by lia. unfold clause_stop.
           by rewrite Er, orb_true_r.
      * apply (IH (a + 1)); [lia | lia |].
        intros k Hk. destruct (decide (k = a)) as [-> | Hne]; [|apply Hpre; lia].
        unfold clause_stop. by rewrite Ep, Er.
Qed.

Lemma find_next_boundary_spec (tokens : list token) (s : Z) :
  0 ≤ s < len tokens →
  (∀ k, s < k ≤ find_next_boundary tokens s → clause_stop tokens s k = false)
  ∧ (find_next_boundary tokens s = len tokens - 1
     ∨ clause_stop tokens s (find_next_boundary tokens s + 1) = true
     ∨ (find_next_boundary tokens s = s ∧ is_punct (tok tokens s) = true)).
Proof.
  intros Hs. unfold find_next_boundary.
  apply (find_next_boundary_from_spec tokens s (Z.to_nat (len tokens - s)) s);
    [done | lia | done | intros; lia].
Qed.

Lemma strong_boundary_is_punct (t : token) :
  is_strong_boundary t = true → is_punct t = true.
Proof.
  unfold is_strong_boundary, is_punct. destruct (String.eqb (tk_upos t) "PUNCT"); done.
Qed.

Lemma clause_stop_strong (tokens : list token) (s k : Z) :
  clause_stop tokens s k = false → is_strong_boundary (tok tokens k) = false.
Proof.
  unfold clause_stop. intros [Hp _]%orb_false_iff.
  destruct (is_strong_boundary (tok tokens k)) eqn:E; [|done].
  apply strong_boundary_is_punct in E. congruence.
Qed.

Lemma find_next_boundary_no_strong (tokens : list token) (s : Z) :
  0 ≤ s < len tokens →
  ∀ k, s < k ≤ find_next_boundary tokens s → is_strong_boundary (tok tokens k) = false.
Proof.
  intros Hs k Hk. eapply clause_stop_strong. by apply find_next_boundary_spec.
Qed.

(** X8: from a token position [s], [find_next_boundary] returns the last
    position of the longest stretch after [s] with no punctuation and no
    [parataxis] / [root] token: it lies in [s .. n-1], no position after [s]
    up to it is a stop, and it is the last token, or the next token is a
    stop, or [s] itself is punctuation and the result is [s]; so the stretch
    never reaches over strong punctuation. *)
Theorem find_next_boundary_characterised (tokens : list token) (s : Z) :
  0 ≤ s < len tokens →
  s ≤ find_next_boundary tokens s ≤ len tokens - 1
  ∧ (∀ k, s < k ≤ find_next_boundary tokens s → clause_stop tokens s k = false)
  ∧ (find_next_boundary tokens s = len tokens - 1
     ∨ clause_stop tokens s (find_next_boundary tokens s + 1) = true
     ∨ (find_next_boundary tokens s = s ∧ is_punct (tok tokens s) = true))
  ∧ has_strong_boundary_between tokens s (find_next_boundary tokens s) = false
  ∧ find_next_boundary tokens s ≤ (segment_bounds tokens s).2.
Proof.
  intros Hs.
  pose proof (find_next_boundary_bounds tokens s (proj2 (in_range_bounds _ _) Hs)) as Hb.
  destruct (find_next_boundary_spec tokens s Hs) as [Hno Hstop].
  split; [exact Hb|]. split; [exact Hno|]. split; [exact Hstop|]. split.
  - apply not_true_is_false. intros (k & Hk & Hstrong)%has_strong_boundary_between_spec.
    rewrite (find_next_boundary_no_strong tokens s Hs k) in Hstrong by lia. done.
  - destruct (scans_maximal_run is_strong_boundary tokens s Hs) as (Hr & _ & _ & Hend).
    fold (segment_bounds tokens s) in Hr, Hend.
    destruct (decide (find_next_boundary tokens s ≤ (segment_bounds tokens s).2)) as [|Hn];
      [done|]. exfalso. destruct Hend as [Hend | Hend]; [lia|].
    rewrite (find_next_boundary_no_strong tokens s Hs) in Hend by lia. done.
Qed.

Lemma find_next_boundary_characterised_witness :
  find_next_boundary si_sentence 0 = 2
  ∧ clause_stop si_sentence 0 3 = true.
Proof.
  destruct (find_next_boundary_characterised si_sentence 0) as (_ & _ & Hstop & _).
  - vm_compute. split; [discriminate | reflexivity].
  - split; [reflexivity|]. destruct Hstop as [H | [H | [_ H]]]; [discriminate H | exact H | discriminate H].
Defined.

(** ** The hard-boundary rule *)

Lemma verbal_not_strong (t : token) :
  PyStr.among (tk_upos t) ["VERB"; "AUX"] = true → is_strong_boundary t = false.
Proof.
  intros [H | H]%verbal_upos; unfold is_strong_boundary; by rewrite H.
Qed.

Lemma finite_verb_not_strong (t : token) :
  is_finite_verb t = true → is_strong_boundary t = false.
Proof.
  intros [H _]%is_finite_verb_spec. by apply verbal_not_strong, verbal_upos.
Qed.

Lemma has_strong_boundary_between_false (tokens : list token) (a b : Z) :
  has_strong_boundary_between tokens a b = false
  ↔ ∀ k, Z.min a b < k < Z.max a b → is_strong_boundary (tok tokens k) = false.
Proof.
  rewrite <- not_true_iff_false, has_strong_boundary_between_spec. split.
  - intros Hn k Hk. apply not_true_is_false. intros Hs. apply Hn. by exists k.
  - intros H (k & Hk & Hs). by rewrite H in Hs.
Qed.

Lemma has_strong_boundary_between_sym (tokens : list token) (a b : Z) :
  has_strong_boundary_between tokens a b = has_strong_boundary_between tokens b a.
Proof.
  apply eq_true_iff_eq. rewrite !has_strong_boundary_between_spec.
  by rewrite Z.min_comm, Z.max_comm.
Qed.

Lemma has_strong_boundary_between_min_max (tokens : list token) (a b : Z) :
  has_strong_boundary_between tokens (Z.min a b) (Z.max a b)
  = has_strong_boundary_between tokens a b.
Proof.
  apply eq_true_iff_eq. rewrite !has_strong_boundary_between_spec.
  replace (Z.min (Z.min a b) (Z.max a b)) with (Z.min a b) by lia.
  replace (Z.max (Z.min a b) (Z.max a b)) with (Z.max a b) by lia. done.
Qed.

(** A stretch free of strong punctuation from [i] to [v] extends over the
    clause that [find_next_boundary] resolves from [v], when [v] itself is
    not strong punctuation. *)
Lemma no_strong_up_to_clause_end (tokens : list token) (i v : Z) :
  0 ≤ v < len tokens →
  has_strong_boundary_between tokens i v = false →
  is_strong_boundary (tok tokens v) = false →
  has_strong_boundary_between tokens i (find_next_boundary tokens v) = false.
Proof.
  intros Hv Hiv Hsv. rewrite has_strong_boundary_between_false in Hiv |- *.
  pose proof (find_next_boundary_bounds tokens v (proj2 (in_range_bounds _ _) Hv)) as Hb.
  intros k Hk.
  destruct (decide (k = v)) as [-> | Hne]; [done|].
  destruct (decide (v < k ≤ find_next_boundary tokens v)) as [Hin | Hout].
  - by apply (find_next_boundary_no_strong tokens v).
  - apply Hiv. lia.
Qed.

Lemma enumerate_at (tokens : list token) (i : Z) :
  0 ≤ i < len tokens → (i, tok tokens i) ∈ enumerate tokens.
Proof.
  intros Hi. apply enumerate_elem. split; [lia|].
  destruct (lookup_lt_is_Some_2 tokens (Z.to_nat i)) as [t Ht]; [unfold len in Hi; lia|].
  destruct (tok_lookup _ _ _ Ht) as [_ Htok]. rewrite Z2Nat.id in Htok by lia.
  by rewrite Htok.
Qed.

Lemma cum_clause_at_spec (tokens : list token) (i : Z) (tg : tag) :
  0 ≤ i < len tokens →
  cum_clause_at tokens i (tok tokens i) = Some tg
  ↔ ∃ v, cum_guards tokens i v
         ∧ tg = Tag "cum_clause" None i (find_next_boundary tokens v) [] None 90 None
                    (cum_trigger i v).
Proof.
  intros Hi. unfold cum_clause_at, cum_guards.
  destruct (String.eqb (PyStr.lower (tok_lemma (tok tokens i))) "cum") eqn:E1; cbn [negb];
    [apply String.eqb_eq in E1 | apply String.eqb_neq in E1];
    [|split; [done | intros (v & (_ & ? & _) & _); done]].
  destruct (PyStr.among (tk_upos (tok tokens i)) ["SCONJ"; "ADP"]) eqn:E2; cbn [negb];
    [|split; [done | intros (v & (_ & _ & ? & _) & _); done]].
  destruct (PyStr.among (tk_deprel (tok tokens i)) ["mark"; "case"]) eqn:E3; cbn [negb];
    [|split; [done | intros (v & (_ & _ & _ & ? & _) & _); done]].
  destruct (head_index tokens (tok tokens i)) as [v|] eqn:E4;
    [|split; [done | intros (v & (_ & _ & _ & _ & ? & _) & _); done]].
  pose proof (head_index_in_range _ _ _ E4) as Hv.
  destruct (has_strong_boundary_between tokens i v) eqn:E5;
    [split; [done | intros (v' & (_ & _ & _ & _ & Hh & ? & _) & _); congruence]|].
  destruct (feats_has (feats_or_empty (tk_feats (tok tokens v))) "Mood" "Sub") eqn:E6;
    cbn [andb];
    [|split; [done | intros (v' & (_ & _ & _ & _ & Hh & _ & ? & _) & _); congruence]].
  destruct (is_finite_verb (tok tokens v)) eqn:E7;
    [|split; [done | intros (v' & (_ & _ & _ & _ & Hh & _ & _ & ?) & _); congruence]].
  cbv zeta.
  rewrite (no_strong_up_to_clause_end tokens i v Hv E5 (finite_verb_not_strong _ E7)).
  split.
  - intros [= <-]. exists v. done.
  - intros (v' & (_ & _ & _ & _ & Hh & _) & ->). by injection Hh as <-.
Qed.

Lemma omap_key_sublist {A B : Type} (f : Z * A → option B) (g : B → Z) (l : list (Z * A)) :
  (∀ x y, f x = Some y → g y = x.1) →
  sublist (g <$> omap f l) (fst <$> l).
Proof.
  intros Hf. induction l as [|x l IH]; simpl; [constructor|].
  destruct (f x) as [y|] eqn:E; simpl.
  - rewrite (Hf _ _ E). by constructor.
  - by constructor.
Qed.

Lemma fst_enumerate (tokens : list token) :
  fst <$> enumerate tokens = range 0 (len tokens).
Proof.
  unfold enumerate, range. rewrite Z.sub_0_r. apply fst_zip.
  rewrite length_seqZ. unfold len. lia.
Qed.

(** X9: the cum-clause detector, read as a specification.  A tag is emitted
    exactly for a marker position [i] and verb position [v] that pass the
    guards of the loop, and it is then the tag from [i] to the clause end
    that [find_next_boundary] resolves from [v]: the clamp to the verb's
    segment never changes that end.  No strong punctuation separates start
    and end, and the tags come in sentence order, at most one per marker. *)
Theorem cum_clause_tags_characterised (tokens : list token) :
  (∀ tg, tg ∈ tag_cum_clauses tokens
         ↔ ∃ i v, cum_guards tokens i v
                  ∧ tg = Tag "cum_clause" None i (find_next_boundary tokens v) []
                             None 90 None (cum_trigger i v))
  ∧ (∀ tg, tg ∈ tag_cum_clauses tokens →
           has_strong_boundary_between tokens (tg_start tg) (tg_end tg) = false)
  ∧ sublist (tg_start <$> tag_cum_clauses tokens) (range 0 (len tokens)).
Proof.
  assert (Hchar : ∀ tg, tg ∈ tag_cum_clauses tokens
         ↔ ∃ i v, cum_guards tokens i v
                  ∧ tg = Tag "cum_clause" None i (find_next_boundary tokens v) []
                             None 90 None (cum_trigger i v)).
  { intros tg. unfold tag_cum_clauses. rewrite list_elem_of_omap. split.
    - intros ([i t] & Hen & Hat). pose proof (enumerate_pos _ _ _ Hen) as Hi.
      apply enumerate_tok in Hen as [_ <-].
      apply cum_clause_at_spec in Hat as (v & Hg & ->); [|done]. by exists i, v.
    - intros (i & v & Hg & ->). exists (i, tok tokens i).
      pose proof Hg as (Hi & _). split.
      + by apply enumerate_at.
      + apply cum_clause_at_spec; [done|]. by exists v. }
  split; [exact Hchar|]. split.
  - intros tg (i & v & Hg & ->)%Hchar. cbn [tg_start tg_end].
    destruct Hg as (Hi & _ & _ & _ & Hh & Hs & _ & Hf).
    apply no_strong_up_to_clause_end;
      [by eapply head_index_in_range | done | by apply finite_verb_not_strong].
  - rewrite <- fst_enumerate. apply omap_key_sublist.
    intros [i t] tg Hat. cbn [fst].
    unfold cum_clause_at in Hat. repeat case_match; try discriminate;
      by injection Hat as <-.
Qed.

Lemma has_strong_boundary_between_same (tokens : list token) (i : Z) :
  has_strong_boundary_between tokens i i = false.
Proof.
  apply has_strong_boundary_between_false. intros k Hk. lia.
Qed.

Lemma nounish_not_strong (t : token) :
  is_nounish t = true → is_strong_boundary t = false.
Proof.
  unfold is_nounish, is_strong_boundary, PyStr.among. cbn [existsb].
  destruct (String.eqb (tk_upos t) "PUNCT") eqn:E; [|done].
  apply String.eqb_eq in E. rewrite E. done.
Qed.

Lemma purpose_mark_boundary (tokens : list token) (i : Z) (t : token) (tg : tag) :
  purpose_mark_at tokens i t = Some tg →
  has_strong_boundary_between tokens (tg_start tg) (tg_end tg) = false.
Proof.
  unfold purpose_mark_at. cbv zeta.
  case_if; [discriminate|].
  destruct (head_index tokens t) as [vi|]; [|discriminate].
  destruct (has_strong_boundary_between tokens i vi) eqn:E; [discriminate|].
  case_if; [discriminate|].
  destruct (if _ : bool then has_result_correlative tokens i else _) as [[] c];
    intros [= <-]; cbn [tg_start tg_end]; by rewrite has_strong_boundary_between_min_max.
Qed.

Lemma purpose_ad_boundary (tokens : list token) (children : gmap Z (list Z)) (i : Z)
    (t : token) (tg : tag) :
  purpose_ad_at tokens children i t = Some tg →
  has_strong_boundary_between tokens (tg_start tg) (tg_end tg) = false.
Proof.
  unfold purpose_ad_at. cbv zeta.
  case_if; [discriminate|].
  destruct (head_index tokens t) as [hi|]; [|discriminate].
  case_if.
  - destruct (has_strong_boundary_between tokens i hi) eqn:E; [discriminate|].
    intros [= <-]; cbn [tg_start tg_end]; by rewrite has_strong_boundary_between_min_max.
  - case_if; [|discriminate].
    destruct (nearest_to _ _) as [g|]; [|discriminate].
    destruct (has_strong_boundary_between tokens i g) eqn:E; [discriminate|].
    intros [= <-]; cbn [tg_start tg_end]; by rewrite has_strong_boundary_between_min_max.
Qed.

Lemma purpose_relative_boundary (tokens : list token) (i : Z) (t : token) (tg : tag) :
  purpose_relative_at tokens i t = Some tg →
  has_strong_boundary_between tokens (tg_start tg) (tg_end tg) = false.
Proof.
  unfold purpose_relative_at.
  case_if; [discriminate|].
  destruct (relative_verb_walk _ _ _ _ _ _) as [vi|]; [|discriminate].
  case_if; [discriminate|].
  destruct (has_strong_boundary_between tokens i vi) eqn:E; [discriminate|].
  intros [= <-]; cbn [tg_start tg_end]; by rewrite has_strong_boundary_between_min_max.
Qed.

Lemma relative_clause_boundary (tokens : list token) (i : Z) (t : token) (tg : tag) :
  relative_clause_at tokens i t = Some tg →
  has_strong_boundary_between tokens (tg_start tg) (tg_end tg) = false.
Proof.
  unfold relative_clause_at. cbv zeta.
  case_if; [discriminate|].
  destruct (relative_verb_walk _ _ _ _ _ _) as [vi|]; [|discriminate].
  destruct (has_strong_boundary_between tokens i vi) eqn:E; [discriminate|].
  case_if; [|case_if; [|discriminate]];
    intros [= <-]; cbn [tg_start tg_end]; by rewrite has_strong_boundary_between_min_max.
Qed.

Lemma find_elem_of (p : Z → bool) (l : list Z) (x : Z) :
  List.find p l = Some x → x ∈ l ∧ p x = true.
Proof. intros [H1 H2]%find_some. by apply list_elem_of_In in H1. Qed.

Lemma in_subtree_heads (tokens : list token) (root_i query_i : Z) :
  in_subtree tokens (build_children tokens) root_i query_i = true
  ↔ rtc (head_of tokens) root_i query_i.
Proof.
  rewrite in_subtree_rtc. split; apply rtc_subrel; intros a c;
    unfold child_of; by rewrite build_children_mem.
Qed.

Lemma indirect_statement_at_sound (tokens : list token) (i : Z) (t : token) (tg : tag) :
  indirect_statement_at tokens (build_children tokens) i t = Some tg →
  ∃ inf_i acc_i,
    indirect_guards tokens i t inf_i acc_i
    ∧ tg = indirect_tag tokens i inf_i acc_i
    ∧ has_strong_boundary_between tokens (tg_start tg) (tg_end tg) = false.
Proof.
  unfold indirect_statement_at, indirect_guards. cbv zeta.
  destruct (PyStr.among (tk_upos t) ["VERB"; "AUX"]) eqn:E1; cbn [negb]; [|discriminate].
  destruct (PyStr.among (PyStr.lower (tok_lemma t)) SPEECH_LEMMAS) eqn:E2; cbn [negb];
    [|discriminate].
  destruct (List.find _ (children_get (build_children tokens) i)) as [inf_i|] eqn:Einf;
    [|discriminate].
  apply find_elem_of in Einf as [Hchild Hp]. cbv beta zeta in Hp.
  apply andb_true_iff in Hp as [Hverbal Hinf].
  apply build_children_mem in Hchild. pose proof Hchild as [Hir _].
  match goal with
  | |- context [match ?d with Some ci => Some ci | None => ?f end] =>
      set (direct := d); set (fallback := f)
  end.
  assert (Hacc : ∀ a, match direct with Some ci => Some ci | None => fallback end = Some a →
            0 ≤ a < len tokens
            ∧ rtc (head_of tokens) inf_i a
            ∧ is_nounish (tok tokens a) = true
            ∧ feats_has (feats_or_empty (tk_feats (tok tokens a))) "Case" "Acc" = true).
  { intros a. destruct direct as [ci|] eqn:Ed.
    - intros [= ->]. subst direct.
      apply find_elem_of in Ed as [Hc Hp]. cbv beta zeta in Hp.
      apply andb_true_iff in Hp as [Hn Hp]. apply andb_true_iff in Hp as [Hcase _].
      apply build_children_mem in Hc. pose proof Hc as [Ha _].
      repeat split; try done; try lia. by apply rtc_once.
    - intros Hf. subst fallback.
      apply find_elem_of in Hf as [Hr Hp]. cbv beta zeta in Hp.
      apply andb_true_iff in Hp as [Hsub Hp]. apply andb_true_iff in Hp as [Hn Hcase].
      apply elem_of_range in Hr. apply in_subtree_heads in Hsub. done. }
  destruct (match direct with Some ci => Some ci | None => fallback end) as [acc_i|];
    [|discriminate].
  destruct (Hacc acc_i eq_refl) as (Ha & Hreach & Hnoun & Hcase). clear Hacc.
  destruct (has_strong_boundary_between tokens acc_i inf_i) eqn:Eb; [discriminate|].
  assert (Hns : has_strong_boundary_between tokens (Z.min acc_i inf_i)
                  (find_next_boundary tokens (Z.max acc_i inf_i)) = false).
  { apply no_strong_up_to_clause_end; [lia | |].
    - rewrite has_strong_boundary_between_false in Eb |- *. intros k Hk. apply Eb. lia.
    - destruct (Z.max_spec acc_i inf_i) as [[_ ->] | [_ ->]];
        [by apply verbal_not_strong | by apply nounish_not_strong]. }
  rewrite Hns. cbn [andb].
  intros [= <-]. exists inf_i, acc_i. cbn [tg_start tg_end].
  split; [done|]. split; [|done]. unfold indirect_tag. cbv zeta. f_equal.
  destruct (String.eqb (tk_deprel (tok tokens acc_i)) "nsubj"),
    (Z.abs (acc_i - inf_i) <=? 6); reflexivity.
Qed.

Lemma segment_no_strong (tokens : list token) (pv a b : Z) :
  0 ≤ pv < len tokens →
  is_strong_boundary (tok tokens pv) = false →
  (segment_bounds tokens pv).1 ≤ a → a ≤ b → b ≤ (segment_bounds tokens pv).2 →
  has_strong_boundary_between tokens a b = false.
Proof.
  intros Hpv Hs Ha Hab Hb.
  destruct (scans_maximal_run is_strong_boundary tokens pv Hpv) as (_ & Hin & _).
  fold (segment_bounds tokens pv) in Hin.
  apply has_strong_boundary_between_false. intros k Hk.
  destruct (decide (k = pv)) as [-> | Hne]; [done|]. apply Hin; [lia | done].
Qed.

Lemma protasis_at_verbal (tokens : list token) (i : Z) (t : token) (p : protasis) (r : Z) :
  protasis_at tokens i t = Some (p, r) → protasis_verbal tokens p.
Proof.
  unfold protasis_at, protasis_verbal.
  case_if; [discriminate|]. case_if; [discriminate|].
  destruct (head_index tokens t) as [pv|] eqn:Eh; [|discriminate].
  case_if; [discriminate|].
  destruct (PyStr.among (tk_upos (tok tokens pv)) ["VERB"; "AUX"]) eqn:Ev; cbn [negb];
    [|discriminate].
  destruct (segment_bounds tokens pv) as [ss se] eqn:Es.
  destruct (comma_clause_bounds tokens pv ss se true) as [l0 r0].
  intros [= <- <-]. done.
Qed.

Lemma collect_protases_verbal (tokens : list token) (p : protasis) :
  p ∈ (collect_protases tokens).1 → protasis_verbal tokens p.
Proof.
  unfold collect_protases. revert p.
  apply (foldl_invariant
           (λ acc : list protasis * gmap (Z * Z) seg_info,
              ∀ p, p ∈ acc.1 → protasis_verbal tokens p)).
  - intros p H. by apply elem_of_nil in H.
  - intros [ps m] [i t] _ IH p. simpl in IH.
    destruct (protasis_at tokens i t) as [[q r]|] eqn:E; simpl; [|apply IH].
    rewrite elem_of_app, list_elem_of_singleton. intros [Hp | ->]; [by apply IH|].
    by eapply protasis_at_verbal.
Qed.

Lemma conditional_tags_boundary (tokens : list token) (children : gmap Z (list Z))
    (info : gmap (Z * Z) seg_info) (p : protasis) (tg : tag) :
  protasis_ok tokens p → protasis_verbal tokens p →
  tg ∈ conditional_tags_of tokens children info p →
  has_strong_boundary_between tokens (tg_start tg) (tg_end tg) = false.
Proof.
  intros [Hpv Hseg] Hverbal. unfold conditional_tags_of. cbv zeta.
  apply verbal_not_strong in Hverbal.
  pose proof (segment_no_strong tokens (pr_pv_i p)) as Hno.
  destruct (segment_bounds_spec tokens (pr_pv_i p) Hpv) as [Hl Hr].
  rewrite <- Hseg in Hl, Hr, Hno. cbn [fst snd] in Hl, Hr, Hno.
  match goal with
  | |- context [choose_apodosis ?t ?c ?pv ?ss ?se ?pn ?bn ?pa] =>
      pose proof (choose_apodosis_in_segment t c pv ss se pn bn pa) as Hap;
      destruct (choose_apodosis t c pv ss se pn bn pa) as [ap disc]
  end.
  cbn [fst snd] in Hap. rewrite <- Hseg in Hap. cbn [fst snd] in Hap.
  pose proof (protasis_span_spec (pr_si_index p) (pr_pv_i p) (pr_seg_start p)
                (pr_seg_end p) (pr_protasis_nodes p) ltac:(lia)) as Hps.
  destruct (protasis_span _ _ _ _ _) as [ps pe]. cbn [fst snd] in Hps.
  destruct ap as [a|].
  - specialize (Hap a eq_refl).
    pose proof (apodosis_span_spec tokens children a (pr_seg_start p) (pr_seg_end p)
                  ltac:(lia)) as Has.
    destruct (apodosis_span _ _ _ _ _) as [as_ ae]. cbn [fst snd] in Has.
    intros [-> | [-> | H]%elem_of_cons]%elem_of_cons;
      [| | by apply elem_of_nil in H]; cbn [tg_start tg_end]; apply Hno; (done || lia).
  - intros [-> | H]%elem_of_cons; [| by apply elem_of_nil in H].
    cbn [tg_start tg_end]; apply Hno; (done || lia).
Qed.

(** The type names the detectors write. *)
Lemma abl_abs_type (tokens : list token) (children : gmap Z (list Z)) (i : Z) (t : token)
    (tg : tag) :
  abl_abs_at tokens children i t = Some tg → tg_type tg = "abl_abs".
Proof.
  unfold abl_abs_at. cbv zeta. repeat case_match; try discriminate; by intros [= <-].
Qed.

Lemma flip_gerund_type (tokens : list token) (children : gmap Z (list Z)) (i : Z) (tg : tag) :
  flip_gerund_at tokens children i = Some tg → tg_type tg = "gerund_gerundive_flip".
Proof.
  unfold flip_gerund_at. cbv zeta. repeat case_match; try discriminate; by intros [= <-].
Qed.

Lemma flip_ad_type (tokens : list token) (children : gmap Z (list Z)) (i : Z) (t : token)
    (tg : tag) :
  flip_ad_at tokens children i t = Some tg → tg_type tg = "gerund_gerundive_flip".
Proof.
  unfold flip_ad_at. cbv zeta. repeat case_match; try discriminate; by intros [= <-].
Qed.

Lemma omap_enumerate_elem (tokens : list token) (f : Z → token → option tag) (tg : tag) :
  tg ∈ omap (λ '(i, t), f i t) (enumerate tokens)
  ↔ ∃ i, 0 ≤ i < len tokens ∧ f i (tok tokens i) = Some tg.
Proof.
  rewrite list_elem_of_omap. split.
  - intros ([i t] & Hen & Hat). exists i. split; [by eapply enumerate_pos|].
    by apply enumerate_tok in Hen as [_ ->].
  - intros (i & Hi & Hat). exists (i, tok tokens i). split; [by apply enumerate_at | done].
Qed.

(** X10: the hard-boundary rule.  No tag of the sentence driver reaches over
    strong punctuation (. ; : ? !), apart from ablative absolutes and
    gerund/gerundive flips, whose detectors do not test the whole span: for
    every other tag no token strictly between start and end is a strong
    boundary. *)
Theorem hard_boundary_rule (tokens : list token) (tg : tag) :
  tg ∈ sentence_tags tokens →
  tg_type tg ≠ "abl_abs" → tg_type tg ≠ "gerund_gerundive_flip" →
  has_strong_boundary_between tokens (tg_start tg) (tg_end tg) = false.
Proof.
  intros Hin Habl Hflip. apply dedup_tags_subset in Hin.
  rewrite !elem_of_app in Hin.
  destruct Hin as [Hin | [Hin | [Hin | [Hin | [Hin | [Hin | [Hin | Hin]]]]]]].
  - unfold tag_cum_clauses in Hin. apply omap_enumerate_elem in Hin as (i & Hi & Hat).
    apply cum_clause_at_spec in Hat as (v & Hg & ->); [|done]. cbn [tg_start tg_end].
    destruct Hg as (_ & _ & _ & _ & Hh & Hs & _ & Hf).
    apply no_strong_up_to_clause_end;
      [by eapply head_index_in_range | done | by apply finite_verb_not_strong].
  - exfalso. apply Habl. unfold tag_ablative_absolutes in Hin.
    apply omap_enumerate_elem in Hin as (i & Hi & Hat). by eapply abl_abs_type.
  - unfold tag_indirect_statements in Hin.
    apply omap_enumerate_elem in Hin as (i & Hi & Hat).
    by apply indirect_statement_at_sound in Hat as (? & ? & _ & _ & ?).
  - unfold tag_purpose_clauses in Hin. rewrite !elem_of_app in Hin.
    destruct Hin as [Hin | [Hin | Hin]];
      apply omap_enumerate_elem in Hin as (i & Hi & Hat).
    + by eapply purpose_mark_boundary.
    + by eapply purpose_ad_boundary.
    + by eapply purpose_relative_boundary.
  - unfold tag_relative_clauses in Hin.
    apply omap_enumerate_elem in Hin as (i & Hi & Hat). by eapply relative_clause_boundary.
  - unfold tag_gerunds_and_gerundives in Hin.
    apply list_elem_of_omap in Hin as (i & Hi & Hat).
    repeat case_match; try discriminate; injection Hat as <-;
      apply has_strong_boundary_between_same.
  - exfalso. apply Hflip. unfold tag_gerund_gerundive_flip in Hin.
    rewrite elem_of_app in Hin. destruct Hin as [Hin | Hin].
    + apply list_elem_of_omap in Hin as (i & Hi & Hat). by eapply flip_gerund_type.
    + apply omap_enumerate_elem in Hin as (i & Hi & Hat). by eapply flip_ad_type.
  - unfold tag_conditionals in Hin.
    pose proof (collect_protases_ok tokens) as Hps.
    pose proof (collect_protases_verbal tokens) as Hpv.
    destruct (collect_protases tokens) as [protases info]. simpl in Hps, Hpv.
    apply list_elem_of_In, in_flat_map in Hin as (p & Hp & Htg).
    apply list_elem_of_In in Hp, Htg.
    eapply conditional_tags_boundary; [by apply Hps | by apply Hpv | done].
Qed.

Lemma hard_boundary_rule_witness :
  has_strong_boundary_between cum_sentence 0 5 = false.
Proof.
  apply (hard_boundary_rule cum_sentence
           (Tag "cum_clause" None 0 5 [] None 90 None (cum_trigger 0 5))).
  - change (sentence_tags cum_sentence)
      with [Tag "cum_clause" None 0 5 [] None 90 None (cum_trigger 0 5)].
    apply list_elem_of_here.
  - discriminate.
  - discriminate.
Defined.

(** X11: what an indirect-statement tag guarantees.  Every tag of the
    detector comes from a speech verb [i] with an infinitive child [inf_i]
    and an accusative noun-like token [acc_i] below that infinitive, not
    separated from it by strong punctuation; the tag runs from the earlier of
    the two to the clause end resolved after the later one, its [full_span]
    repeats that span, and the clamp to the infinitive's segment never
    changes it. *)
Theorem indirect_statement_tags_sound (tokens : list token) (tg : tag) :
  tg ∈ tag_indirect_statements tokens →
  ∃ i inf_i acc_i,
    0 ≤ i < len tokens
    ∧ indirect_guards tokens i (tok tokens i) inf_i acc_i
    ∧ tg = indirect_tag tokens i inf_i acc_i
    ∧ tg_start tg ≤ tg_end tg
    ∧ has_strong_boundary_between tokens (tg_start tg) (tg_end tg) = false.
Proof.
  unfold tag_indirect_statements. intros (i & Hi & Hat)%omap_enumerate_elem.
  pose proof (indirect_statement_span _ _ _ _ Hi Hat) as (_ & Hle & _).
  apply indirect_statement_at_sound in Hat as (inf_i & acc_i & Hg & -> & Hs).
  by exists i, inf_i, acc_i.
Qed.

Lemma indirect_statement_tags_sound_witness :
  ∃ i inf_i acc_i,
    0 ≤ i < len dicit_caesarem_venire
    ∧ indirect_guards dicit_caesarem_venire i (tok dicit_caesarem_venire i) inf_i acc_i
    ∧ indirect_tag dicit_caesarem_venire 0 2 1 = indirect_tag dicit_caesarem_venire i inf_i acc_i
    ∧ tg_start (indirect_tag dicit_caesarem_venire 0 2 1)
      ≤ tg_end (indirect_tag dicit_caesarem_venire 0 2 1)
    ∧ has_strong_boundary_between dicit_caesarem_venire
        (tg_start (indirect_tag dicit_caesarem_venire 0 2 1))
        (tg_end (indirect_tag dicit_caesarem_venire 0 2 1)) = false.
Proof.
  apply (indirect_statement_tags_sound dicit_caesarem_venire).
  vm_compute. left.
Defined.

(** ** Deduplicator: what is kept *)

Lemma dedup_fold_from (l : list tag) (seen : list tag_key) (out : list tag) :
  (foldl dedup_step (seen, out) l).2 = (out ++ dedup_from seen l)%list.
Proof.
  revert seen out. induction l as [|t l IH]; intros seen out; simpl.
  - by rewrite app_nil_r.
  - case_bool_decide; rewrite IH; [done|]. by rewrite <- app_assoc.
Qed.

Lemma dedup_tags_from (l : list tag) : dedup_tags l = dedup_from [] l.
Proof. unfold dedup_tags. apply (dedup_fold_from l [] []). Qed.

Lemma dedup_from_sublist (seen : list tag_key) (l : list tag) :
  sublist (dedup_from seen l) l.
Proof.
  revert seen. induction l as [|t l IH]; intros seen; simpl; [constructor|].
  case_bool_decide; by constructor.
Qed.

Lemma dedup_from_keys (seen : list tag_key) (l : list tag) (k : tag_key) :
  k ∈ dedup_key <$> dedup_from seen l ↔ k ∈ dedup_key <$> l ∧ k ∉ seen.
Proof.
  revert seen. induction l as [|t l IH]; intros seen; cbn [dedup_from].
  - rewrite fmap_nil. split; [intros H; by apply elem_of_nil in H|].
    intros [H _]; by apply elem_of_nil in H.
  - rewrite (fmap_cons dedup_key t l). case_bool_decide as Hs.
    + rewrite IH, elem_of_cons. split; [tauto|]. intros [[-> | H] Hn]; [done | tauto].
    + rewrite fmap_cons, !elem_of_cons, IH, elem_of_cons.
      destruct (decide (k = dedup_key t)) as [-> | Hne]; tauto.
Qed.

Lemma dedup_from_NoDup (seen : list tag_key) (l : list tag) :
  NoDup (dedup_key <$> dedup_from seen l).
Proof.
  revert seen. induction l as [|t l IH]; intros seen; cbn [dedup_from]; [constructor|].
  case_bool_decide; [apply IH|]. rewrite fmap_cons. constructor; [|apply IH].
  rewrite dedup_from_keys, elem_of_cons. tauto.
Qed.

Lemma dedup_from_first (seen : list tag_key) (l : list tag) (t : tag) :
  t ∈ dedup_from seen l
  ↔ ∃ l1 l2, l = (l1 ++ t :: l2)%list ∧ (dedup_key t ∉ seen)
             ∧ dedup_key t ∉ (dedup_key <$> l1).
Proof.
  revert seen. induction l as [|x l IH]; intros seen; cbn [dedup_from].
  - split; [intros H; by apply elem_of_nil in H|].
    intros (l1 & l2 & H & _). by destruct l1.
  - case_bool_decide as Hs.
    + rewrite IH. split.
      * intros (l1 & l2 & -> & Hn & Hl1). exists (x :: l1), l2. split; [done|].
        split; [done|]. rewrite fmap_cons, elem_of_cons. intros [Heq | ?]; [|done].
        rewrite Heq in Hn. done.
      * intros (l1 & l2 & Heq & Hn & Hl1). destruct l1 as [|y l1].
        -- cbn [app] in Heq. injection Heq as -> ->. done.
        -- cbn [app] in Heq. injection Heq as -> ->. exists l1, l2. split; [done|].
           split; [done|]. rewrite fmap_cons, elem_of_cons in Hl1. tauto.
    + rewrite elem_of_cons, IH. split.
      * intros [-> | (l1 & l2 & -> & Hn & Hl1)].
        -- exists [], l. split; [done|]. split; [done|]. rewrite fmap_nil.
           apply not_elem_of_nil.
        -- exists (x :: l1), l2. split; [done|]. rewrite elem_of_cons in Hn.
           split; [tauto|]. rewrite fmap_cons, elem_of_cons. tauto.
      * intros (l1 & l2 & Heq & Hn & Hl1). destruct l1 as [|y l1].
        -- cbn [app] in Heq. injection Heq as -> ->. by left.
        -- cbn [app] in Heq. injection Heq as -> ->. right. exists l1, l2. split; [done|].
           rewrite fmap_cons, elem_of_cons in Hl1. rewrite elem_of_cons. tauto.
Qed.

(** X12: what the deduplicator keeps.  The output is a sublist of the input
    (same order), its keys are pairwise distinct, it has the same set of
    keys as the input, and a tag is kept exactly when it stands at the first
    occurrence of its key; an input whose keys are already distinct is
    returned unchanged. *)
Theorem dedup_tags_keeps_first (l : list tag) :
  sublist (dedup_tags l) l
  ∧ NoDup (dedup_key <$> dedup_tags l)
  ∧ (∀ k, k ∈ dedup_key <$> dedup_tags l ↔ k ∈ dedup_key <$> l)
  ∧ (∀ t, t ∈ dedup_tags l
          ↔ ∃ l1 l2, l = (l1 ++ t :: l2)%list ∧ dedup_key t ∉ (dedup_key <$> l1))
  ∧ (NoDup (dedup_key <$> l) → dedup_tags l = l).
Proof.
  rewrite dedup_tags_from. split; [apply dedup_from_sublist|].
  split; [apply dedup_from_NoDup|]. split; [|split].
  - intros k. rewrite dedup_from_keys. split; [tauto|]. intros H. split; [done|].
    apply not_elem_of_nil.
  - intros t. rewrite dedup_from_first. split.
    + intros (l1 & l2 & H & _ & H'). by exists l1, l2.
    + intros (l1 & l2 & H & H'). exists l1, l2. split; [done|]. split; [|done].
      apply not_elem_of_nil.
  - intros Hnd. rewrite <- dedup_tags_from, dedup_tags_fold.
    rewrite dedup_fresh; [done | done |]. intros t _ H. by apply elem_of_nil in H.
Qed.

(** ** Choice of the apodosis *)

Lemma item_gt_irrefl (a : Z * Z) : item_gt a a = false.
Proof. unfold item_gt. destruct a as [s j]. simpl. lia. Qed.

Lemma item_gt_trans (a b c : Z * Z) :
  item_gt a b = false → item_gt b c = false → item_gt a c = false.
Proof. unfold item_gt. destruct a, b, c. simpl. lia. Qed.

Lemma item_gt_total (a b : Z * Z) : item_gt a b = false → item_gt b a = false → a = b.
Proof.
  unfold item_gt. destruct a as [s j], b as [s' j']. simpl. intros H1 H2.
  f_equal; lia.
Qed.

Lemma item_gt_asym (a b : Z * Z) : item_gt a b = true → item_gt b a = false.
Proof. unfold item_gt. destruct a, b. simpl. lia. Qed.

Lemma greatest_fold_max (l : list (Z * Z)) (x : Z * Z) :
  let m := foldl (λ best it, if item_gt it best then it else best) x l in
  item_gt x m = false ∧ ∀ y, y ∈ l → item_gt y m = false.
Proof.
  revert x. induction l as [|z l IH]; intros x; cbv zeta; cbn [foldl].
  - split; [apply item_gt_irrefl|]. intros y H. by apply elem_of_nil in H.
  - destruct (item_gt z x) eqn:E.
    + destruct (IH z) as [Hz Hl]. cbv zeta in Hz, Hl. split.
      * eapply item_gt_trans; [|exact Hz]. by apply item_gt_asym.
      * intros y [-> | Hy]%elem_of_cons; [exact Hz | by apply Hl].
    + destruct (IH x) as [Hx Hl]. cbv zeta in Hx, Hl. split; [exact Hx|].
      intros y [-> | Hy]%elem_of_cons; [|by apply Hl].
      eapply item_gt_trans; [exact E | exact Hx].
Qed.

Lemma greatest_item_max (l : list (Z * Z)) (it : Z * Z) :
  greatest_item l = Some it → it ∈ l ∧ ∀ y, y ∈ l → item_gt y it = false.
Proof.
  intros H. split; [by apply greatest_item_elem|].
  destruct l as [|x l]; [discriminate|]. injection H as <-.
  destruct (greatest_fold_max l x) as [Hx Hl]. cbv zeta in Hx, Hl.
  intros y [-> | Hy]%elem_of_cons; [exact Hx | by apply Hl].
Qed.

Lemma greatest_item_none (l : list (Z * Z)) : greatest_item l = None ↔ l = [].
Proof. destruct l; simpl; split; done. Qed.

Lemma elem_of_filter_list (p : Z → bool) (l : list Z) (x : Z) :
  x ∈ List.filter p l ↔ x ∈ l ∧ p x = true.
Proof. by rewrite !list_elem_of_In, filter_In. Qed.

Lemma pick_apodosis_spec (tokens : list token) (children : gmap Z (list Z))
    (pv_i : Z) (pn bn : gset Z) (pa : Z) (fb : gset Z) :
  (pick_apodosis tokens children pv_i pn bn pa fb = None
   ↔ ∀ j, ¬ eligible_apodosis tokens pv_i pn bn fb j)
  ∧ ∀ a, pick_apodosis tokens children pv_i pn bn pa fb = Some a →
         eligible_apodosis tokens pv_i pn bn fb a
         ∧ ∀ j, eligible_apodosis tokens pv_i pn bn fb j →
                (pa ≤ j → pa ≤ a)
                ∧ ((pa ≤ j ↔ pa ≤ a) →
                   item_gt (apodosis_score tokens children pa j, j)
                           (apodosis_score tokens children pa a, a) = false).
Proof.
  unfold pick_apodosis, eligible_apodosis.
  destruct (segment_bounds tokens pv_i) as [ss se]. cbv zeta. cbn [fst snd].
  set (elig := List.filter _ (range ss (se + 1))).
  assert (Helig : ∀ j, j ∈ elig ↔ (ss ≤ j ≤ se) ∧ (j ∉ pn) ∧ (j ∉ bn) ∧ (j ∉ fb)
                                   ∧ is_candidate (tok tokens j) = true).
  { intros j. unfold elig. rewrite elem_of_filter_list, elem_of_range, andb_true_iff,
      negb_true_iff, !orb_false_iff, !bool_decide_eq_false.
    split; intros [H1 H2]; (split; [lia | tauto]). }
  set (item := λ j : Z, (apodosis_score tokens children pa j, j)).
  set (after := List.filter (λ j, pa <=? j) elig).
  set (before := List.filter (λ j, negb (pa <=? j)) elig).
  assert (Hafter : ∀ j, j ∈ after ↔ j ∈ elig ∧ pa ≤ j).
  { intros j. unfold after. rewrite elem_of_filter_list, Z.leb_le. done. }
  assert (Hbefore : ∀ j, j ∈ before ↔ j ∈ elig ∧ ¬ pa ≤ j).
  { intros j. unfold before. rewrite elem_of_filter_list, negb_true_iff, Z.leb_gt. 
    split; intros [? ?]; split; (done || lia). }
  destruct (greatest_item (item <$> after)) as [ita|] eqn:Ea.
  - apply greatest_item_max in Ea as [Hin Hmax].
    apply list_elem_of_fmap in Hin as (a & -> & Ha).
    apply Hafter in Ha as [Ha Hpa]. split.
    + split; [discriminate|]. intros Hn. exfalso. apply (Hn a). by apply Helig.
    + intros a' [= <-]. cbn [snd item]. split; [by apply Helig|].
      intros j Hj. split; [done|]. intros Hiff.
      apply (Hmax (item j)). apply list_elem_of_fmap. exists j. split; [done|].
      apply Hafter. split; [by apply Helig | tauto].
  - apply greatest_item_none, fmap_nil_inv in Ea.
    assert (Hnoafter : ∀ j, j ∈ elig → ¬ pa ≤ j).
    { intros j Hj Hpa. assert (j ∈ after) as Hin by (by apply Hafter).
      rewrite Ea in Hin. by apply elem_of_nil in Hin. }
    destruct (greatest_item (item <$> before)) as [itb|] eqn:Eb.
    + apply greatest_item_max in Eb as [Hin Hmax].
      apply list_elem_of_fmap in Hin as (a & -> & Ha).
      apply Hbefore in Ha as [Ha Hpa]. split.
      * split; [discriminate|]. intros Hn. exfalso. apply (Hn a). by apply Helig.
      * intros a' [= <-]. cbn [snd item]. split; [by apply Helig|].
        intros j Hj%Helig. split; [intros ?; by apply Hnoafter in Hj|]. intros Hiff.
        apply (Hmax (item j)). apply list_elem_of_fmap. exists j. split; [done|].
        apply Hbefore. split; [done | by apply Hnoafter].
    + apply greatest_item_none, fmap_nil_inv in Eb. split; [|discriminate].
      split; [|done]. intros _ j Hj%Helig.
      assert (j ∈ before) as Hin by (apply Hbefore; split; [done | by apply Hnoafter]).
      rewrite Eb in Hin. by apply elem_of_nil in Hin.
Qed.

(** X13: the choice of the apodosis verb, for a protasis verb [pv_i] of
    the sentence.  [pick_apodosis] answers None exactly when the protasis
    verb's segment holds no eligible verb (finite or infinitive, outside the
    protasis, the blocked nodes and the forbidden set); otherwise it returns
    an eligible verb, one at or after [prefer_after_i] whenever such a verb
    exists, and among the eligible verbs on its side of [prefer_after_i] one
    of greatest (score, position). *)
Theorem pick_apodosis_chooses_best (tokens : list token) (children : gmap Z (list Z))
    (pv_i : Z) (protasis_nodes blocked_nodes : gset Z) (prefer_after_i : Z)
    (forbidden : gset Z) :
  0 ≤ pv_i < len tokens →
  best_apodosis tokens children pv_i protasis_nodes blocked_nodes prefer_after_i forbidden
    (pick_apodosis tokens children pv_i protasis_nodes blocked_nodes prefer_after_i
                   forbidden).
Proof. intros _. apply pick_apodosis_spec. Qed.

Lemma pick_apodosis_chooses_best_witness :
  best_apodosis si_sentence (build_children si_sentence) 2
    (list_to_set [0; 1; 2; 3]) ∅ 3 ∅
    (pick_apodosis si_sentence (build_children si_sentence) 2
                   (list_to_set [0; 1; 2; 3]) ∅ 3 ∅).
Proof.
  apply (pick_apodosis_chooses_best si_sentence). vm_compute.
  split; [discriminate | reflexivity].
Defined.

(** ** Conditional labels *)

Ltac solve_elem_of :=
  repeat first [apply list_elem_of_here | apply list_elem_of_further].

Lemma protasis_only_label_in (pm pt pa : option string) :
  protasis_only_label pm pt pa ∈ CONDITIONAL_LABELS.
Proof.
  unfold protasis_only_label, CONDITIONAL_LABELS. repeat case_if; solve_elem_of.
Qed.

Lemma classify_conditional_in (tokens : list token) (children : gmap Z (list Z))
    (pv_i ap_i : option Z) (discourse : option discourse_info) :
  valid_index tokens pv_i = true →
  classify_conditional tokens children pv_i ap_i discourse ∈ CONDITIONAL_LABELS.
Proof.
  intros Hv. unfold classify_conditional. cbv zeta. rewrite Hv. cbn [negb].
  destruct ap_i as [ap|]; [|apply protasis_only_label_in].
  case_if; [apply protasis_only_label_in|].
  unfold CONDITIONAL_LABELS. repeat case_if; solve_elem_of.
Qed.

Lemma classify_conditional_unknown (tokens : list token) (children : gmap Z (list Z))
    (pv_i ap_i : option Z) (discourse : option discourse_info) :
  classify_conditional tokens children pv_i ap_i discourse = "unknown"
  ↔ valid_index tokens pv_i = false.
Proof.
  destruct (valid_index tokens pv_i) eqn:Hv.
  - split; [|discriminate]. intros Heq.
    pose proof (classify_conditional_in tokens children pv_i ap_i discourse Hv) as Hin.
    rewrite Heq in Hin. unfold CONDITIONAL_LABELS in Hin.
    repeat (apply elem_of_cons in Hin as [Hin | Hin]; [discriminate|]).
    by apply elem_of_nil in Hin.
  - split; [done|]. intros _. unfold classify_conditional. by rewrite Hv.
Qed.

Lemma infer_discourse_values (tokens : list token) (pv_i : Z) (ap_i : option Z)
    (seg_start seg_end : Z) :
  ds_discourse (infer_discourse tokens pv_i ap_i seg_start seg_end) ∈ DISCOURSE_VALUES.
Proof.
  unfold infer_discourse, mk_discourse, infer_sequence_from_head, DISCOURSE_VALUES.
  cbv zeta. repeat case_match; cbn; solve_elem_of.
Qed.

Lemma ancestors_local_in_range (tokens : list token) (hops : nat) (cur x : Z) :
  x ∈ ancestors_local tokens hops cur → 0 ≤ x < len tokens.
Proof.
  revert cur. induction hops as [|hops IH]; intros cur; cbn [ancestors_local].
  - intros H. by apply elem_of_nil in H.
  - destruct (head_index tokens (tok tokens cur)) as [up|] eqn:E.
    + intros [-> | H]%elem_of_cons; [by eapply head_index_in_range | by eapply IH].
    + intros H. by apply elem_of_nil in H.
Qed.

Lemma infer_discourse_spec (tokens : list token) (pv_i : Z) (ap_i : option Z)
    (seg_start seg_end : Z) :
  0 ≤ pv_i < len tokens →
  let d := infer_discourse tokens pv_i ap_i seg_start seg_end in
  (ds_discourse d = "direct" ↔ ds_statement d = "direct")
  ∧ (ds_statement d = "direct" ∨ ds_statement d = "indirect")
  ∧ (∀ h, ds_head_verb_index d = Some h →
          0 ≤ h < len tokens
          ∧ is_indirect_head (tok tokens h) = true
          ∧ ds_statement d = "indirect"
          ∧ ds_sequence d = infer_sequence_from_head tokens h
          ∧ ds_head_verb_tense d = get_tense (tok tokens h))
  ∧ (ds_head_verb_index d = None → ds_statement d = "indirect" →
     ds_head_verb_tense d = None
     ∧ ∃ a, ap_i = Some a ∧ is_infinitive (tok tokens a) = true).
Proof.
  intros Hpv. cbv zeta. unfold infer_discourse. cbv zeta.
  assert (Hmk : ∀ seq h r,
            (seq = None ∨ seq = Some "primary" ∨ seq = Some "secondary") →
            (ds_discourse (mk_discourse tokens "indirect" seq h r) = "direct"
             ↔ ds_statement (mk_discourse tokens "indirect" seq h r) = "direct")).
  { intros seq h r [-> | [-> | ->]]; cbn; split; discriminate. }
  assert (Hseq : ∀ h, infer_sequence_from_head tokens h = None
                      ∨ infer_sequence_from_head tokens h = Some "primary"
                      ∨ infer_sequence_from_head tokens h = Some "secondary").
  { intros h. unfold infer_sequence_from_head. repeat case_if; auto. }
  destruct (List.find _ (ancestors_local tokens 30 pv_i ++ _)%list) as [anc|] eqn:Ef.
  - apply find_elem_of in Ef as [Hin Hhead]. cbv beta in Hhead.
    assert (0 ≤ anc < len tokens) as Hanc.
    { apply elem_of_app in Hin as [Hin | Hin]; [by eapply ancestors_local_in_range|].
      destruct ap_i as [a|]; [by eapply ancestors_local_in_range | by apply elem_of_nil in Hin]. }
    split; [apply Hmk, Hseq|]. split; [by right|]. split; [|discriminate].
    intros h [= <-]. done.
  - destruct (sentence_bounds tokens pv_i) as [sb_start sb_end] eqn:Esb.
    destruct (min_by_distance pv_i _) as [head_i|] eqn:Em.
    + apply min_by_distance_elem, elem_of_filter_list in Em as [Hr Hhead].
      apply elem_of_range in Hr.
      destruct (scans_maximal_run is_sentence_end_boundary tokens pv_i Hpv) as (Hb & _).
      fold (sentence_bounds tokens pv_i) in Hb. rewrite Esb in Hb. cbn [fst snd] in Hb.
      split; [apply Hmk, Hseq|]. split; [by right|]. split; [|discriminate].
      intros h [= <-]. split; [lia | done].
    + case_if.
      * split; [apply Hmk; repeat case_if; auto|]. split; [by right|]. split; [discriminate|].
        intros _ _. split; [done|].
        destruct ap_i as [a|]; [|done]. exists a. split; [done|].
        match goal with H : _ && _ = true |- _ => by apply andb_true_iff in H as [? _] end.
      * cbn. split; [done|]. split; [by left|]. split; [discriminate|]. discriminate.
Qed.

Lemma conditional_meta_fields (tokens : list token) (children : gmap Z (list Z))
    (pv_i : Z) (ap_i : option Z) (disc : discourse_info) :
  let meta := conditional_meta tokens children pv_i ap_i disc in
  cm_label meta = classify_conditional tokens children (Some pv_i) ap_i (Some disc)
  ∧ cm_discourse meta = ds_discourse disc
  ∧ cm_protasis_verb_index meta = pv_i
  ∧ cm_apodosis_verb_index meta = ap_i.
Proof.
  cbv zeta. unfold conditional_meta. cbv zeta.
  destruct ap_i as [a|]; [|done]. repeat case_if; done.
Qed.

Lemma apodosis_span_contains (tokens : list token) (children : gmap Z (list Z))
    (a ss se : Z) :
  ss ≤ a ≤ se →
  (apodosis_span tokens children a ss se).1 ≤ a
  ∧ a ≤ (apodosis_span tokens children a ss se).2.
Proof.
  intros Ha. unfold apodosis_span.
  pose proof (comma_clause_bounds_spec tokens a ss se true Ha) as Hc.
  destruct (comma_clause_bounds tokens a ss se true) as [l r]. simpl in Hc.
  case_if; [|simpl; lia].
  assert (Hin : a ∈ List.filter (λ j, in_subtree tokens children a j) (range l (r + 1))).
  { apply elem_of_filter_list. split; [apply elem_of_range; lia|].
    apply in_subtree_rtc. apply rtc_refl. }
  destruct (List.filter _ _) as [|x rest] eqn:Ef; [simpl; lia|].
  pose proof (py_min_le _ _ Hin). pose proof (py_max_ge _ _ Hin). cbn [fst snd]. lia.
Qed.

Lemma protasis_at_covers (tokens : list token) (i : Z) (t : token) (p : protasis) (r : Z) :
  protasis_at tokens i t = Some (p, r) → pr_pv_i p ∈ pr_protasis_nodes p.
Proof.
  unfold protasis_at.
  case_if; [discriminate|]. case_if; [discriminate|].
  destruct (head_index tokens t) as [pv|] eqn:Eh; [|discriminate].
  pose proof (head_index_in_range _ _ _ Eh) as Hv.
  case_if; [discriminate|]. case_if; [discriminate|].
  destruct (segment_bounds_spec tokens pv Hv) as [Hl Hr].
  destruct (segment_bounds tokens pv) as [ss se] eqn:Es. cbn [fst snd] in Hl, Hr.
  pose proof (comma_clause_bounds_spec tokens pv ss se true ltac:(lia)) as Hc.
  destruct (comma_clause_bounds tokens pv ss se true) as [l0 r0]. cbn [fst snd] in Hc.
  intros [= <- <-]. cbn [pr_pv_i pr_protasis_nodes].
  apply elem_of_list_to_set, elem_of_range. lia.
Qed.

Lemma collect_protases_covers (tokens : list token) (p : protasis) :
  p ∈ (collect_protases tokens).1 → pr_pv_i p ∈ pr_protasis_nodes p.
Proof.
  unfold collect_protases. revert p.
  apply (foldl_invariant
           (λ acc : list protasis * gmap (Z * Z) seg_info,
              ∀ p, p ∈ acc.1 → pr_pv_i p ∈ pr_protasis_nodes p)).
  - intros p H. by apply elem_of_nil in H.
  - intros [ps m] [i t] _ IH p. simpl in IH.
    destruct (protasis_at tokens i t) as [[q r]|] eqn:E; simpl; [|apply IH].
    rewrite elem_of_app, list_elem_of_singleton. intros [Hp | ->]; [by apply IH|].
    by eapply protasis_at_covers.
Qed.

Lemma choose_apodosis_spec (tokens : list token) (children : gmap Z (list Z))
    (pv ss se : Z) (pn bn : gset Z) (pa : Z) :
  (∀ a, (choose_apodosis tokens children pv ss se pn bn pa).1 = Some a →
        eligible_apodosis tokens pv pn bn ∅ a)
  ∧ ds_discourse (choose_apodosis tokens children pv ss se pn bn pa).2 ∈ DISCOURSE_VALUES.
Proof.
  unfold choose_apodosis. cbv zeta.
  destruct (pick_apodosis tokens children pv pn bn pa ∅) as [a0|] eqn:E0.
  - apply pick_apodosis_spec in E0 as [E0 _]. case_if.
    + match goal with
      | |- context [pick_apodosis tokens children pv pn bn pa ?f] =>
          destruct (pick_apodosis tokens children pv pn bn pa f) as [alt|] eqn:E1
      end; cbn [fst snd]; (split; [|apply infer_discourse_values]).
      * intros a [= <-]. apply pick_apodosis_spec in E1 as [E1 _].
        unfold eligible_apodosis in *. split; [tauto|]. split; [tauto|]. split; [tauto|].
        split; [apply not_elem_of_empty | tauto].
      * by intros a [= <-].
    + cbn [fst snd]. split; [by intros a [= <-] | apply infer_discourse_values].
  - cbn [fst snd]. split; [discriminate | apply infer_discourse_values].
Qed.

Lemma conditional_tags_anatomy_of (tokens : list token) (children : gmap Z (list Z))
    (info : gmap (Z * Z) seg_info) (p : protasis) (tg : tag) :
  protasis_ok tokens p → protasis_verbal tokens p → pr_pv_i p ∈ pr_protasis_nodes p →
  tg ∈ conditional_tags_of tokens children info p →
  ∃ meta, tg_conditional tg = Some meta ∧ conditional_anatomy tokens tg meta.
Proof.
  intros [Hpv Hseg] Hverbal Hcov. unfold conditional_tags_of. cbv zeta.
  destruct (segment_bounds_spec tokens (pr_pv_i p) Hpv) as [Hl Hr].
  match goal with
  | |- context [choose_apodosis ?t ?c ?pv ?ss ?se ?pn ?bn ?pa] =>
      pose proof (choose_apodosis_in_segment t c pv ss se pn bn pa) as Hap;
      pose proof (choose_apodosis_spec t c pv ss se pn bn pa) as [Hel Hdisc];
      destruct (choose_apodosis t c pv ss se pn bn pa) as [ap disc]
  end.
  cbn [fst snd] in Hap, Hel, Hdisc.
  pose proof (conditional_meta_fields tokens children (pr_pv_i p) ap disc)
    as (Hlab & Hdis & Hpvi & Hapi).
  cbv zeta in Hlab, Hdis, Hpvi, Hapi.
  set (meta := conditional_meta tokens children (pr_pv_i p) ap disc) in *.
  assert (Hin : cm_label meta ∈ CONDITIONAL_LABELS).
  { rewrite Hlab. apply classify_conditional_in. cbn [valid_index].
    by apply in_range_bounds. }
  assert (Hsub : label_or_unknown (cm_label meta) = Some (cm_label meta)).
  { unfold label_or_unknown. destruct (String.eqb (cm_label meta) "") eqn:E; [|done].
    apply String.eqb_eq in E. rewrite E in Hin. unfold CONDITIONAL_LABELS in Hin.
    repeat (apply elem_of_cons in Hin as [Hin | Hin]; [discriminate|]).
    by apply elem_of_nil in Hin. }
  rewrite Hsub.
  pose proof (protasis_span_spec (pr_si_index p) (pr_pv_i p) (pr_seg_start p)
                (pr_seg_end p) (pr_protasis_nodes p)) as Hps.
  rewrite <- Hseg in Hl, Hr, Hap. cbn [fst snd] in Hl, Hr, Hap.
  specialize (Hps ltac:(lia)).
  destruct (protasis_span _ _ _ _ _) as [ps pe]. cbn [fst snd] in Hps.
  assert (Hprot : ∀ tr, conditional_anatomy tokens
            (Tag "conditional_protasis" (Some (cm_label meta)) ps pe [(ps, pe)] None 83
                 (Some meta) tr) meta).
  { intros tr. unfold conditional_anatomy. cbv zeta.
    cbn [tg_subtype tg_start tg_end tg_type tg_highlight_spans].
    rewrite Hpvi, Hdis, <- Hseg. cbn [fst snd].
    repeat (split; [done || lia|]). left. split; [done | lia]. }
  destruct ap as [a|].
  - specialize (Hap a eq_refl). specialize (Hel a eq_refl).
    pose proof (apodosis_span_spec tokens children a (pr_seg_start p) (pr_seg_end p)
                  ltac:(lia)) as Has.
    pose proof (apodosis_span_contains tokens children a (pr_seg_start p) (pr_seg_end p)
                  ltac:(lia)) as Hac.
    destruct (apodosis_span _ _ _ _ _) as [as_ ae]. cbn [fst snd] in Has, Hac.
    intros [-> | [-> | H]%elem_of_cons]%elem_of_cons; [| | by apply elem_of_nil in H];
      exists meta; (split; [done|]); [apply Hprot|].
    unfold conditional_anatomy. cbv zeta.
    cbn [tg_subtype tg_start tg_end tg_type tg_highlight_spans].
    rewrite Hpvi, Hdis, Hapi, <- Hseg. cbn [fst snd].
    repeat (split; [done || lia|]). right. split; [done|]. exists a.
    destruct Hel as (_ & Hnp & _ & _ & Hcand).
    split; [done|]. split; [|split; [done | lia]].
    intros ->. done.
  - intros [-> | H]%elem_of_cons; [| by apply elem_of_nil in H].
    exists meta. split; [done | apply Hprot].
Qed.

(** X14: the anatomy of a conditional pair.  Every tag of [tag_conditionals]
    carries a metadata record; its subtype is the record's label, one of
    the nine labels of the classifier and never "unknown"; the discourse is
    one of direct, indirect, indirect_primary, indirect_secondary; the
    protasis verb is a VERB or AUX token; the span lies in the protasis
    verb's segment and is the tag's only highlight; a protasis tag contains
    the protasis verb, and an apodosis tag contains its apodosis verb, a
    finite or infinitive verb other than the protasis verb. *)
Theorem conditional_tags_anatomy (tokens : list token) (tg : tag) :
  tg ∈ tag_conditionals tokens →
  ∃ meta, tg_conditional tg = Some meta ∧ conditional_anatomy tokens tg meta.
Proof.
  unfold tag_conditionals. intros Hin.
  pose proof (collect_protases_ok tokens) as Hps.
  pose proof (collect_protases_verbal tokens) as Hpv.
  pose proof (collect_protases_covers tokens) as Hpc.
  destruct (collect_protases tokens) as [protases info]. simpl in Hps, Hpv, Hpc.
  apply list_elem_of_In, in_flat_map in Hin as (p & Hp & Htg).
  apply list_elem_of_In in Hp, Htg.
  eapply conditional_tags_anatomy_of; [by apply Hps | by apply Hpv | by apply Hpc | done].
Qed.

Lemma conditional_tags_anatomy_witness :
  ∃ meta, tg_conditional (default (Tag "" None 0 0 [] None 0 None [])
                            (head (tag_conditionals si_sentence))) = Some meta
          ∧ conditional_anatomy si_sentence
              (default (Tag "" None 0 0 [] None 0 None [])
                 (head (tag_conditionals si_sentence))) meta.
Proof.
  apply (conditional_tags_anatomy si_sentence). vm_compute. left.
Defined.

(** X15: what [infer_discourse] returns when its arguments are positions of
    the sentence.  The statement is direct or indirect and the discourse
    string is "direct" exactly for a direct statement; a reported governing
    verb is a token of the sentence, finite, with a lemma of
    INDIRECT_HEAD_LEMMAS, and the sequence and head tense are read from it;
    an indirect statement without a governing verb arises only from an
    infinitive apodosis. *)
Theorem infer_discourse_wellformed (tokens : list token) (pv_i : Z) (ap_i : option Z)
    (seg_start seg_end : Z) :
  0 ≤ pv_i < len tokens →
  (∀ a, ap_i = Some a → 0 ≤ a < len tokens) →
  0 ≤ seg_start → seg_end < len tokens →
  discourse_wellformed tokens ap_i (infer_discourse tokens pv_i ap_i seg_start seg_end).
Proof.
  intros Hpv _ _ _. split; [apply infer_discourse_values|].
  by apply infer_discourse_spec.
Qed.

Lemma infer_discourse_wellformed_witness :
  discourse_wellformed dixit_sentence (Some 4) (infer_discourse dixit_sentence 2 (Some 4) 0 4).
Proof.
  apply (infer_discourse_wellformed dixit_sentence 2 (Some 4) 0 4).
  - vm_compute. split; [discriminate | reflexivity].
  - intros a [= <-]. vm_compute. split; [discriminate | reflexivity].
  - lia.
  - vm_compute. reflexivity.
Defined.

(** ** Declared tag types *)

Ltac solve_shape :=
  unfold declared_shape;
  cbn [tg_type tg_subtype tg_confidence tg_conditional tg_full_span];
  split; [unfold DECLARED_TAGS; solve_elem_of|];
  split; [vm_compute; solve_elem_of|];
  split; [lia|];
  split; (split; [intros [? ?]; discriminate | intros; intuition discriminate]).

Lemma cum_clause_shape (tokens : list token) (i : Z) (t : token) (tg : tag) :
  cum_clause_at tokens i t = Some tg → declared_shape tg.
Proof.
  unfold cum_clause_at. cbv zeta. repeat case_match; try discriminate;
    intros [= <-]; solve_shape.
Qed.

Lemma abl_abs_shape (tokens : list token) (children : gmap Z (list Z)) (i : Z) (t : token)
    (tg : tag) :
  abl_abs_at tokens children i t = Some tg → declared_shape tg.
Proof.
  unfold abl_abs_at. cbv zeta. repeat case_match; try discriminate;
    intros [= <-]; solve_shape.
Qed.

Lemma purpose_mark_shape (tokens : list token) (i : Z) (t : token) (tg : tag) :
  purpose_mark_at tokens i t = Some tg → declared_shape tg.
Proof.
  unfold purpose_mark_at. cbv zeta. repeat case_match; try discriminate;
    intros [= <-]; solve_shape.
Qed.

Lemma purpose_ad_shape (tokens : list token) (children : gmap Z (list Z)) (i : Z) (t : token)
    (tg : tag) :
  purpose_ad_at tokens children i t = Some tg → declared_shape tg.
Proof.
  unfold purpose_ad_at. cbv zeta. repeat case_match; try discriminate;
    intros [= <-]; solve_shape.
Qed.

Lemma purpose_relative_shape (tokens : list token) (i : Z) (t : token) (tg : tag) :
  purpose_relative_at tokens i t = Some tg → declared_shape tg.
Proof.
  unfold purpose_relative_at. cbv zeta. repeat case_match; try discriminate;
    intros [= <-]; solve_shape.
Qed.

Lemma relative_clause_shape (tokens : list token) (i : Z) (t : token) (tg : tag) :
  relative_clause_at tokens i t = Some tg → declared_shape tg.
Proof.
  unfold relative_clause_at. cbv zeta. repeat case_match; try discriminate;
    intros [= <-]; solve_shape.
Qed.

Lemma flip_gerund_shape (tokens : list token) (children : gmap Z (list Z)) (i : Z) (tg : tag) :
  flip_gerund_at tokens children i = Some tg → declared_shape tg.
Proof.
  unfold flip_gerund_at. cbv zeta. repeat case_match; try discriminate;
    intros [= <-]; solve_shape.
Qed.

Lemma flip_ad_shape (tokens : list token) (children : gmap Z (list Z)) (i : Z) (t : token)
    (tg : tag) :
  flip_ad_at tokens children i t = Some tg → declared_shape tg.
Proof.
  unfold flip_ad_at. cbv zeta. repeat case_match; try discriminate;
    intros [= <-]; solve_shape.
Qed.

Lemma indirect_statement_shape (tokens : list token) (i : Z) (t : token) (tg : tag) :
  indirect_statement_at tokens (build_children tokens) i t = Some tg → declared_shape tg.
Proof.
  intros (inf_i & acc_i & _ & -> & _)%indirect_statement_at_sound.
  unfold indirect_tag, declared_shape. cbv zeta.
  cbn [tg_type tg_subtype tg_confidence tg_conditional tg_full_span].
  split; [unfold DECLARED_TAGS; solve_elem_of|].
  split; [vm_compute; solve_elem_of|].
  split; [repeat case_match; lia|].
  split.
  - split; [intros [? ?]; discriminate | intros; intuition discriminate].
  - split; [done | by eexists].
Qed.

Lemma conditional_tags_shape (tokens : list token) (children : gmap Z (list Z))
    (info : gmap (Z * Z) seg_info) (p : protasis) (tg : tag) :
  protasis_ok tokens p → protasis_verbal tokens p → pr_pv_i p ∈ pr_protasis_nodes p →
  tg ∈ conditional_tags_of tokens children info p → declared_shape tg.
Proof.
  intros Hok Hv Hc Hin.
  destruct (conditional_tags_anatomy_of _ _ _ _ _ Hok Hv Hc Hin)
    as (meta & Hmeta & Hsub & Hlab & _ & _ & _ & _ & _ & Hty).
  assert (Hrest : (tg_type tg = "conditional_protasis" ∨ tg_type tg = "conditional_apodosis")
                  → (tg_confidence tg = 83 ∨ tg_confidence tg = 80)
                    ∧ tg_full_span tg = None).
  { intros _. revert Hin. unfold conditional_tags_of. cbv zeta.
    destruct (choose_apodosis _ _ _ _ _ _ _ _) as [ap disc].
    destruct (protasis_span _ _ _ _ _) as [ps pe].
    destruct ap as [a|]; [destruct (apodosis_span _ _ _ _ _) as [as_ ae]|].
    - intros [-> | [-> | H]%elem_of_cons]%elem_of_cons;
        [| | by apply elem_of_nil in H]; cbn; auto.
    - intros [-> | H]%elem_of_cons; [| by apply elem_of_nil in H]; cbn; auto. }
  assert (Hty' : tg_type tg = "conditional_protasis" ∨ tg_type tg = "conditional_apodosis")
    by (destruct Hty as [[Ht _] | [Ht _]]; [left | right]; exact Ht).
  destruct (Hrest Hty') as [Hconf Hfs].
  unfold declared_shape. rewrite Hsub, Hmeta, Hfs.
  split; [destruct Hty' as [-> | ->]; unfold DECLARED_TAGS; solve_elem_of|].
  split.
  { destruct Hty' as [-> | ->];
      [change (SUBTYPES_OF "conditional_protasis") with (Some <$> CONDITIONAL_LABELS)
      |change (SUBTYPES_OF "conditional_apodosis") with (Some <$> CONDITIONAL_LABELS)];
      apply list_elem_of_fmap; by exists (cm_label meta). }
  split; [lia|]. split.
  - split; [done | by eexists].
  - split; [intros [? ?]; discriminate|].
    destruct Hty' as [-> | ->]; discriminate.
Qed.

(** X16: the tags the driver writes have a declared shape.  The type of
    every tag is one of the twelve names the script lists in its metadata;
    the subtype is one of the subtypes of that type (None for the types
    without subtypes); the confidence lies between 0.72 and 0.94; exactly
    the conditional tags carry a "conditional" record and exactly the
    indirect statements a "full_span". *)
Theorem sentence_tags_declared (tokens : list token) (tg : tag) :
  tg ∈ sentence_tags tokens → declared_shape tg.
Proof.
  intros Hin. apply dedup_tags_subset in Hin.
  rewrite !elem_of_app in Hin.
  destruct Hin as [Hin | [Hin | [Hin | [Hin | [Hin | [Hin | [Hin | Hin]]]]]]].
  - unfold tag_cum_clauses in Hin. apply omap_enumerate_elem in Hin as (i & Hi & Hat).
    by eapply cum_clause_shape.
  - unfold tag_ablative_absolutes in Hin.
    apply omap_enumerate_elem in Hin as (i & Hi & Hat). by eapply abl_abs_shape.
  - unfold tag_indirect_statements in Hin.
    apply omap_enumerate_elem in Hin as (i & Hi & Hat). by eapply indirect_statement_shape.
  - unfold tag_purpose_clauses in Hin. rewrite !elem_of_app in Hin.
    destruct Hin as [Hin | [Hin | Hin]];
      apply omap_enumerate_elem in Hin as (i & Hi & Hat).
    + by eapply purpose_mark_shape.
    + by eapply purpose_ad_shape.
    + by eapply purpose_relative_shape.
  - unfold tag_relative_clauses in Hin.
    apply omap_enumerate_elem in Hin as (i & Hi & Hat). by eapply relative_clause_shape.
  - unfold tag_gerunds_and_gerundives in Hin.
    apply list_elem_of_omap in Hin as (i & Hi & Hat).
    repeat case_match; try discriminate; injection Hat as <-; solve_shape.
  - unfold tag_gerund_gerundive_flip in Hin.
    rewrite elem_of_app in Hin. destruct Hin as [Hin | Hin].
    + apply list_elem_of_omap in Hin as (i & Hi & Hat). by eapply flip_gerund_shape.
    + apply omap_enumerate_elem in Hin as (i & Hi & Hat). by eapply flip_ad_shape.
  - unfold tag_conditionals in Hin.
    pose proof (collect_protases_ok tokens) as Hps.
    pose proof (collect_protases_verbal tokens) as Hpv.
    pose proof (collect_protases_covers tokens) as Hpc.
    destruct (collect_protases tokens) as [protases info]. simpl in Hps, Hpv, Hpc.
    apply list_elem_of_In, in_flat_map in Hin as (p & Hp & Htg).
    apply list_elem_of_In in Hp, Htg.
    eapply conditional_tags_shape; [by apply Hps | by apply Hpv | by apply Hpc | done].
Qed.

Lemma sentence_tags_declared_witness :
  declared_shape (Tag "cum_clause" None 0 5 [] None 90 None (cum_trigger 0 5)).
Proof.
  apply (sentence_tags_declared cum_sentence).
  change (sentence_tags cum_sentence)
    with [Tag "cum_clause" None 0 5 [] None 90 None (cum_trigger 0 5)].
  apply list_elem_of_here.
Defined.

(** ** The reviewer's validation *)

Lemma flat_map_nil_iff {A B : Type} (f : A → list B) (l : list A) :
  flat_map f l = [] ↔ ∀ x, x ∈ l → f x = [].
Proof.
  induction l as [|y l IH]; simpl.
  - split; [intros _ x H; by apply elem_of_nil in H | done].
  - split.
    + intros [Hy Hl]%app_eq_nil x [-> | Hx]%elem_of_cons; [done | by apply IH].
    + intros H. rewrite (H y) by left. simpl. apply IH. intros x Hx. apply H. by right.
Qed.

Lemma validate_tag_nil (tokens : list token) (tg : tag) :
  Review.validate_tag tokens tg = []
  ↔ span_ok (len tokens) tg ∧ highlights_ordered tg.
Proof.
  unfold Review.validate_tag, span_ok, highlights_ordered. cbv zeta.
  split.
  - intros (H1 & (H2 & (H3 & H4)%app_eq_nil)%app_eq_nil)%app_eq_nil.
    destruct ((tg_start tg <? 0) || (len tokens <=? tg_start tg)) eqn:E1; [discriminate|].
    destruct ((tg_end tg <? 0) || (len tokens <=? tg_end tg)) eqn:E2; [discriminate|].
    destruct (tg_end tg <? tg_start tg) eqn:E3; [discriminate|].
    assert (Hh : ∀ a b, (a, b) ∈ tg_highlight_spans tg →
                        (0 ≤ a < len tokens) ∧ (0 ≤ b < len tokens) ∧ a ≤ b).
    { intros a b Hab. pose proof (proj1 (flat_map_nil_iff _ _) H4 _ Hab) as Hp.
      unfold Review.highlight_problems in Hp. apply app_eq_nil in Hp as [Hp1 Hp2].
      destruct ((a <? 0) || (len tokens <=? a) || (b <? 0) || (len tokens <=? b)) eqn:E4;
        [discriminate|].
      destruct (b <? a) eqn:E5; [discriminate|]. lia. }
    split; [|intros a b Hab; by apply Hh].
    split; [lia|]. split; [lia|]. split; [lia|]. intros a b Hab.
    destruct (Hh a b Hab) as (? & ? & _). done.
  - intros [(H0 & H1 & H2 & H3) Hord].
    replace ((tg_start tg <? 0) || (len tokens <=? tg_start tg)) with false by lia.
    replace ((tg_end tg <? 0) || (len tokens <=? tg_end tg)) with false by lia.
    replace (tg_end tg <? tg_start tg) with false by lia.
    cbn [app]. apply flat_map_nil_iff. intros [a b] Hab.
    destruct (H3 a b Hab) as [Ha Hb]. specialize (Hord a b Hab).
    unfold Review.highlight_problems.
    replace ((a <? 0) || (len tokens <=? a) || (b <? 0) || (len tokens <=? b))
      with false by lia.
    replace (b <? a) with false by lia. done.
Qed.

(** X17: the reviewer's validator accepts a tag, i.e. reports no problem,
    exactly when the tag satisfies the invariant of the data model
    [0 <= start <= end < n] with every highlight index a token position, and
    every highlight span reads left to right. *)
Theorem validate_tag_accepts (tokens : list token) (tg : tag) :
  Review.validate_tag tokens tg = []
  ↔ (0 ≤ tg_start tg ∧ tg_start tg ≤ tg_end tg ∧ tg_end tg < len tokens)
    ∧ ∀ a b, (a, b) ∈ tg_highlight_spans tg →
             0 ≤ a ∧ a ≤ b ∧ b < len tokens.
Proof.
  rewrite validate_tag_nil. unfold span_ok, highlights_ordered. split.
  - intros [(H0 & H1 & H2 & H3) Hord]. split; [done|]. intros a b Hab.
    destruct (H3 a b Hab). specialize (Hord a b Hab). lia.
  - intros [(H0 & H1 & H2) Hh]. split.
    + repeat (split; [done|]). intros a b Hab. destruct (Hh a b Hab) as (? & ? & ?). lia.
    + intros a b Hab. destruct (Hh a b Hab) as (? & ? & ?). lia.
Qed.

Ltac solve_ordered :=
  unfold highlights_ordered; cbn [tg_highlight_spans];
  let a := fresh "a" in
  let b := fresh "b" in
  let H := fresh "Hab" in
  intros a b H;
  repeat (apply elem_of_cons in H as [[= -> ->] | H]; [lia|]);
  by apply elem_of_nil in H.

Lemma abl_abs_ordered (tokens : list token) (children : gmap Z (list Z)) (i : Z) (t : token)
    (tg : tag) :
  abl_abs_at tokens children i t = Some tg → highlights_ordered tg.
Proof.
  unfold abl_abs_at. cbv zeta. repeat case_match; try discriminate;
    intros [= <-]; solve_ordered.
Qed.

Lemma purpose_mark_ordered (tokens : list token) (i : Z) (t : token) (tg : tag) :
  purpose_mark_at tokens i t = Some tg → highlights_ordered tg.
Proof.
  unfold purpose_mark_at. cbv zeta. repeat case_match; try discriminate;
    intros [= <-]; solve_ordered.
Qed.

Lemma purpose_ad_ordered (tokens : list token) (children : gmap Z (list Z)) (i : Z)
    (t : token) (tg : tag) :
  purpose_ad_at tokens children i t = Some tg → highlights_ordered tg.
Proof.
  unfold purpose_ad_at. cbv zeta. repeat case_match; try discriminate;
    intros [= <-]; solve_ordered.
Qed.

Lemma purpose_relative_ordered (tokens : list token) (i : Z) (t : token) (tg : tag) :
  purpose_relative_at tokens i t = Some tg → highlights_ordered tg.
Proof.
  unfold purpose_relative_at. cbv zeta. repeat case_match; try discriminate;
    intros [= <-]; solve_ordered.
Qed.

Lemma relative_clause_ordered (tokens : list token) (i : Z) (t : token) (tg : tag) :
  relative_clause_at tokens i t = Some tg → highlights_ordered tg.
Proof.
  unfold relative_clause_at. cbv zeta. repeat case_match; try discriminate;
    intros [= <-]; solve_ordered.
Qed.

Lemma flip_gerund_ordered (tokens : list token) (children : gmap Z (list Z)) (i : Z)
    (tg : tag) :
  flip_gerund_at tokens children i = Some tg → highlights_ordered tg.
Proof.
  unfold flip_gerund_at. cbv zeta. repeat case_match; try discriminate;
    intros [= <-]; solve_ordered.
Qed.

Lemma flip_ad_ordered (tokens : list token) (children : gmap Z (list Z)) (i : Z) (t : token)
    (tg : tag) :
  flip_ad_at tokens children i t = Some tg → highlights_ordered tg.
Proof.
  unfold flip_ad_at. cbv zeta. repeat case_match; try discriminate;
    intros [= <-]; solve_ordered.
Qed.

(** X18: the tagger's output under the reviewer's validation.  For every tag
    the sentence driver writes, [validate_tag] reports nothing, except for a
    cum_clause tag whose end precedes its start, for which it reports the
    single problem "start > end (s > e)": no tag has an index out of range or
    a reversed highlight span. *)
Theorem sentence_tags_validate (tokens : list token) (tg : tag) :
  tg ∈ sentence_tags tokens →
  Review.validate_tag tokens tg = []
  ∨ (tg_type tg = "cum_clause" ∧ tg_end tg < tg_start tg
     ∧ Review.validate_tag tokens tg
       = ["start > end (" +:+ pretty (tg_start tg) +:+ " > " +:+ pretty (tg_end tg) +:+ ")"]).
Proof.
  intros Hin. apply dedup_tags_subset in Hin.
  rewrite !elem_of_app in Hin.
  destruct Hin as [Hin | [Hin | [Hin | [Hin | [Hin | [Hin | [Hin | Hin]]]]]]].
  - unfold tag_cum_clauses in Hin. apply omap_enumerate_elem in Hin as (i & Hi & Hat).
    apply cum_clause_at_spec in Hat as (v & Hg & ->); [|done].
    destruct Hg as (_ & _ & _ & _ & Hh & _).
    apply head_index_in_range in Hh.
    pose proof (find_next_boundary_bounds tokens v (proj2 (in_range_bounds _ _) Hh)) as Hb.
    unfold Review.validate_tag. cbv zeta. cbn [tg_type tg_start tg_end tg_highlight_spans].
    replace ((i <? 0) || (len tokens <=? i)) with false by lia.
    replace ((find_next_boundary tokens v <? 0)
             || (len tokens <=? find_next_boundary tokens v)) with false by lia.
    cbn [app flat_map].
    destruct (find_next_boundary tokens v <? i) eqn:E; [right | by left].
    split; [done|]. split; [lia | done].
  - left. apply validate_tag_nil. unfold tag_ablative_absolutes in Hin.
    apply omap_enumerate_elem in Hin as (i & Hi & Hat).
    split; [by eapply abl_abs_span | by eapply abl_abs_ordered].
  - left. apply validate_tag_nil. unfold tag_indirect_statements in Hin.
    apply omap_enumerate_elem in Hin as (i & Hi & Hat).
    split; [by eapply indirect_statement_span|].
    apply indirect_statement_at_sound in Hat as (inf_i & acc_i & _ & -> & _).
    unfold indirect_tag. solve_ordered.
  - left. apply validate_tag_nil. unfold tag_purpose_clauses in Hin.
    rewrite !elem_of_app in Hin.
    destruct Hin as [Hin | [Hin | Hin]];
      apply omap_enumerate_elem in Hin as (i & Hi & Hat).
    + split; [by eapply purpose_mark_span | by eapply purpose_mark_ordered].
    + split; [by eapply purpose_ad_span | by eapply purpose_ad_ordered].
    + split; [by eapply purpose_relative_span | by eapply purpose_relative_ordered].
  - left. apply validate_tag_nil. unfold tag_relative_clauses in Hin.
    apply omap_enumerate_elem in Hin as (i & Hi & Hat).
    split; [by eapply relative_clause_span | by eapply relative_clause_ordered].
  - left. apply validate_tag_nil. unfold tag_gerunds_and_gerundives in Hin.
    apply list_elem_of_omap in Hin as (i & Hi%elem_of_range & Hat).
    repeat case_match; try discriminate; injection Hat as <-;
      (split; [span_goal | solve_ordered]).
  - left. apply validate_tag_nil. unfold tag_gerund_gerundive_flip in Hin.
    rewrite elem_of_app in Hin. destruct Hin as [Hin | Hin].
    + apply list_elem_of_omap in Hin as (i & Hi%elem_of_range & Hat).
      split; [eapply flip_gerund_span; [|done]; lia | by eapply flip_gerund_ordered].
    + apply omap_enumerate_elem in Hin as (i & Hi & Hat).
      split; [by eapply flip_ad_span | by eapply flip_ad_ordered].
  - left. apply validate_tag_nil. unfold tag_conditionals in Hin.
    pose proof (collect_protases_ok tokens) as Hps.
    pose proof (collect_protases_verbal tokens) as Hpv.
    pose proof (collect_protases_covers tokens) as Hpc.
    destruct (collect_protases tokens) as [protases info]. simpl in Hps, Hpv, Hpc.
    apply list_elem_of_In, in_flat_map in Hin as (p & Hp & Htg).
    apply list_elem_of_In in Hp, Htg.
    split; [eapply conditional_tags_span; [by apply Hps | done]|].
    destruct (conditional_tags_anatomy_of _ _ _ _ _ (Hps p Hp) (Hpv p Hp) (Hpc p Hp) Htg)
      as (meta & _ & _ & _ & _ & _ & _ & (_ & Hle & _) & Hhl & _).
    unfold highlights_ordered. rewrite Hhl. intros a b [= -> ->]%list_elem_of_singleton.
    exact Hle.
Qed.

Lemma sentence_tags_validate_witness :
  Review.validate_tag cum_after_verb
    (Tag "cum_clause" None 2 0 [] None 90 None (cum_trigger 2 0)) = ["start > end (2 > 0)"].
Proof.
  destruct (sentence_tags_validate cum_after_verb
              (Tag "cum_clause" None 2 0 [] None 90 None (cum_trigger 2 0)))
    as [H | (_ & _ & H)].
  - change (sentence_tags cum_after_verb)
      with [Tag "cum_clause" None 2 0 [] None 90 None (cum_trigger 2 0)].
    apply list_elem_of_here.
  - discriminate H.
  - exact H.
Defined.

(** X19: [safe_slice] never fails and returns the tokens at the positions
    [max(start, 0) .. min(end, n - 1)], in order: that many tokens (none
    when the clamped range is empty), the [k]-th of them being the token at
    [max(start, 0) + k]; for a span with [0 <= start <= end < n] these are
    the [end - start + 1] tokens of the span, and the whole sentence is
    returned for [0 .. n - 1]. *)
Theorem safe_slice_clamps (tokens : list token) (start end_ : Z) :
  let lo := Z.max start 0 in
  let hi := Z.min end_ (len tokens - 1) in
  length (Review.safe_slice tokens start end_) = Z.to_nat (hi - lo + 1)
  ∧ (∀ k, (k < Z.to_nat (hi - lo + 1))%nat →
          Review.safe_slice tokens start end_ !! k = Some (tok tokens (lo + Z.of_nat k)))
  ∧ sublist (Review.safe_slice tokens start end_) tokens
  ∧ Review.safe_slice tokens 0 (len tokens - 1) = tokens.
Proof.
  cbv zeta. unfold Review.safe_slice. cbv zeta.
  assert (Hs : (if start <? 0 then 0 else start) = Z.max start 0)
    by (destruct (start <? 0) eqn:E; lia).
  assert (He : (if len tokens <=? end_ then len tokens - 1 else end_)
               = Z.min end_ (len tokens - 1))
    by (destruct (len tokens <=? end_) eqn:E; lia).
  rewrite Hs, He. clear Hs He.
  assert (Hlo : 0 ≤ Z.max start 0) by lia.
  assert (Hhi : Z.min end_ (len tokens - 1) < len tokens) by lia.
  set (lo := Z.max start 0) in *. set (hi := Z.min end_ (len tokens - 1)) in *.
  clearbody lo hi. unfold len in Hhi.
  split; [|split; [|split]].
  - destruct (hi <? lo) eqn:E; [simpl; lia|].
    rewrite length_take, length_drop. lia.
  - intros k Hk. destruct (hi <? lo) eqn:E; [lia|].
    rewrite lookup_take_lt by lia. rewrite lookup_drop.
    destruct (lookup_lt_is_Some_2 tokens (Z.to_nat lo + k)) as [t Ht]; [lia|].
    rewrite Ht. f_equal. destruct (tok_lookup _ _ _ Ht) as [_ Htok].
    rewrite <- Htok. f_equal. lia.
  - destruct (hi <? lo); [apply sublist_nil_l|].
    etrans; [apply sublist_take | apply sublist_drop].
  - replace (if 0 <? 0 then 0 else 0) with 0 by done.
    replace (if len tokens <=? len tokens - 1 then len tokens - 1 else len tokens - 1)
      with (len tokens - 1) by (destruct (len tokens <=? len tokens - 1); done).
    destruct (len tokens - 1 <? 0) eqn:E.
    + destruct tokens as [|t rest]; [done|]. unfold len in E. cbn [length] in E. apply Z.ltb_lt in E. exfalso. clear Hhi. lia.
    + rewrite drop_0. apply take_ge. unfold len in *. lia.
Qed.

(** ** The keys of a sentence's tags are distinct *)

Lemma omap_sublist_by {A B : Type} (f : A → option B) (g : B → Z) (kf : A → Z) (l : list A) :
  (∀ x y, x ∈ l → f x = Some y → g y = kf x) →
  sublist (g <$> omap f l) (kf <$> l).
Proof.
  induction l as [|x l IH]; intros Hf; simpl; [constructor|].
  assert (IH' : sublist (g <$> omap f l) (kf <$> l)).
  { apply IH. intros x' y Hx'. apply Hf. by right. }
  destruct (f x) as [y|] eqn:E; simpl.
  - rewrite (Hf x y); [by constructor | left | done].
  - by constructor.
Qed.

Lemma NoDup_range (a b : Z) : NoDup (range a b).
Proof. unfold range. apply NoDup_seqZ. Qed.

Lemma NoDup_fmap_finer {A B C : Type} (f : A → B) (g : A → C) (l : list A) :
  (∀ a b, g a = g b → f a = f b) → NoDup (f <$> l) → NoDup (g <$> l).
Proof.
  intros Hfg. induction l as [|x l IH]; simpl; [constructor|].
  rewrite !NoDup_cons. intros [Hx Hl]. split; [|by apply IH].
  intros (y & Heq & Hy)%list_elem_of_fmap. apply Hx.
  apply list_elem_of_fmap. exists y. split; [by apply Hfg | done].
Qed.

(** The tags of one loop over the positions: each records its position. *)
Lemma omap_enumerate_origins (tokens : list token) (f : Z → token → option tag) (d : Z) :
  (∀ i t tg, f i t = Some tg → (origin tg).1 = (d, Some (TInt i))) →
  NoDup (origin <$> omap (λ '(i, t), f i t) (enumerate tokens))
  ∧ ∀ tg, tg ∈ omap (λ '(i, t), f i t) (enumerate tokens) → (origin tg).1.1 = d.
Proof.
  intros Hf. split.
  - apply (NoDup_fmap_1 origin_position). rewrite <- list_fmap_compose.
    apply (sublist_NoDup _ (range 0 (len tokens))); [apply NoDup_range|].
    rewrite <- fst_enumerate. apply omap_sublist_by.
    intros [i t] tg _ Hat. cbn [compose fst]. unfold origin_position.
    by rewrite (Hf _ _ _ Hat).
  - intros tg ([i t] & _ & Hat)%list_elem_of_omap. by rewrite (Hf _ _ _ Hat).
Qed.

Lemma omap_range_origins (n : Z) (f : Z → option tag) (d : Z) :
  (∀ i tg, f i = Some tg → (origin tg).1 = (d, Some (TInt i))) →
  NoDup (origin <$> omap f (range 0 n))
  ∧ ∀ tg, tg ∈ omap f (range 0 n) → (origin tg).1.1 = d.
Proof.
  intros Hf. split.
  - apply (NoDup_fmap_1 origin_position). rewrite <- list_fmap_compose.
    apply (sublist_NoDup _ (range 0 n)); [apply NoDup_range|].
    rewrite <- (list_fmap_id (range 0 n)) at 2. apply omap_sublist_by.
    intros i tg _ Hat. cbn [compose id]. unfold origin_position.
    by rewrite (Hf _ _ Hat).
  - intros tg (i & _ & Hat)%list_elem_of_omap. by rewrite (Hf _ _ Hat).
Qed.

Ltac solve_origin :=
  cbv zeta; repeat case_match; try discriminate; intros [= <-]; reflexivity.

Lemma cum_clause_origin (tokens : list token) (i : Z) (t : token) (tg : tag) :
  cum_clause_at tokens i t = Some tg → (origin tg).1 = (0, Some (TInt i)).
Proof. unfold cum_clause_at. solve_origin. Qed.

Lemma abl_abs_origin (tokens : list token) (children : gmap Z (list Z)) (i : Z) (t : token)
    (tg : tag) :
  abl_abs_at tokens children i t = Some tg → (origin tg).1 = (1, Some (TInt i)).
Proof. unfold abl_abs_at. solve_origin. Qed.

Lemma indirect_statement_origin (tokens : list token) (children : gmap Z (list Z)) (i : Z)
    (t : token) (tg : tag) :
  indirect_statement_at tokens children i t = Some tg → (origin tg).1 = (2, Some (TInt i)).
Proof. unfold indirect_statement_at. solve_origin. Qed.

Lemma purpose_mark_origin (tokens : list token) (i : Z) (t : token) (tg : tag) :
  purpose_mark_at tokens i t = Some tg → (origin tg).1 = (3, Some (TInt i)).
Proof. unfold purpose_mark_at. solve_origin. Qed.

Lemma purpose_ad_origin (tokens : list token) (children : gmap Z (list Z)) (i : Z)
    (t : token) (tg : tag) :
  purpose_ad_at tokens children i t = Some tg → (origin tg).1 = (4, Some (TInt i)).
Proof. unfold purpose_ad_at. solve_origin. Qed.

Lemma purpose_relative_origin (tokens : list token) (i : Z) (t : token) (tg : tag) :
  purpose_relative_at tokens i t = Some tg → (origin tg).1 = (5, Some (TInt i)).
Proof. unfold purpose_relative_at. solve_origin. Qed.

Lemma relative_clause_origin (tokens : list token) (i : Z) (t : token) (tg : tag) :
  relative_clause_at tokens i t = Some tg → (origin tg).1 = (6, Some (TInt i)).
Proof. unfold relative_clause_at. solve_origin. Qed.

Lemma flip_gerund_origin (tokens : list token) (children : gmap Z (list Z)) (i : Z)
    (tg : tag) :
  flip_gerund_at tokens children i = Some tg → (origin tg).1 = (8, Some (TInt i)).
Proof. unfold flip_gerund_at. solve_origin. Qed.

Lemma flip_ad_origin (tokens : list token) (children : gmap Z (list Z)) (i : Z) (t : token)
    (tg : tag) :
  flip_ad_at tokens children i t = Some tg → (origin tg).1 = (9, Some (TInt i)).
Proof. unfold flip_ad_at. solve_origin. Qed.

Lemma collect_protases_omap (tokens : list token) :
  (collect_protases tokens).1
  = fst <$> omap (λ '(i, t), protasis_at tokens i t) (enumerate tokens).
Proof.
  unfold collect_protases.
  assert (H : ∀ (l : list (Z * token)) (ps : list protasis) (m : gmap (Z * Z) seg_info),
            (foldl (λ '(protases, seg_key_to_info) '(i, t),
                      match protasis_at tokens i t with
                      | None => (protases, seg_key_to_info)
                      | Some (p, prot_right) =>
                          let key := (pr_seg_start p, pr_seg_end p) in
                          let info := default (∅, -1) (seg_key_to_info !! key) in
                          ((protases ++ [p])%list,
                           <[key := (info.1 ∪ pr_protasis_nodes p, Z.max info.2 prot_right)]>
                             seg_key_to_info)
                      end) (ps, m) l).1
            = (ps ++ (fst <$> omap (λ '(i, t), protasis_at tokens i t) l))%list).
  { induction l as [|[i t] l IH]; intros ps m; simpl; [by rewrite app_nil_r|].
    destruct (protasis_at tokens i t) as [[p r]|]; simpl.
    - rewrite IH. by rewrite <- app_assoc.
    - apply IH. }
  apply (H (enumerate tokens) [] ∅).
Qed.

Lemma protasis_at_si (tokens : list token) (i : Z) (t : token) (p : protasis) (r : Z) :
  protasis_at tokens i t = Some (p, r) → pr_si_index p = i.
Proof.
  unfold protasis_at. cbv zeta. repeat case_match; try discriminate. by intros [= <- <-].
Qed.

Lemma collect_protases_si_NoDup (tokens : list token) :
  NoDup (pr_si_index <$> (collect_protases tokens).1).
Proof.
  rewrite collect_protases_omap, <- list_fmap_compose.
  apply (sublist_NoDup _ (range 0 (len tokens))); [apply NoDup_range|].
  rewrite <- fst_enumerate. apply omap_sublist_by.
  intros [i t] [p r] _ Hat. cbn [compose fst]. by eapply protasis_at_si.
Qed.

Lemma conditional_tags_origin (tokens : list token) (children : gmap Z (list Z))
    (info : gmap (Z * Z) seg_info) (p : protasis) :
  NoDup (origin <$> conditional_tags_of tokens children info p)
  ∧ ∀ tg, tg ∈ conditional_tags_of tokens children info p →
          (origin tg).1 = (10, Some (TInt (pr_si_index p))).
Proof.
  unfold conditional_tags_of. cbv zeta.
  destruct (choose_apodosis _ _ _ _ _ _ _ _) as [ap disc].
  destruct (protasis_span _ _ _ _ _) as [ps pe].
  destruct ap as [a|]; [destruct (apodosis_span _ _ _ _ _) as [as_ ae]|].
  - split.
    + rewrite !fmap_cons, fmap_nil. apply NoDup_cons. split; [|apply NoDup_singleton].
      intros H%list_elem_of_singleton. discriminate H.
    + intros tg [-> | [-> | H]%elem_of_cons]%elem_of_cons;
        [reflexivity | reflexivity | by apply elem_of_nil in H].
  - split.
    + rewrite fmap_cons, fmap_nil. apply NoDup_singleton.
    + intros tg [-> | H]%elem_of_cons; [reflexivity | by apply elem_of_nil in H].
Qed.

Lemma NoDup_flat_map_by {A B C : Type} (h : A → list B) (o : B → C) (k : C → Z)
    (kf : A → Z) (l : list A) :
  NoDup (kf <$> l) →
  (∀ x, x ∈ l → NoDup (o <$> h x)) →
  (∀ x y, x ∈ l → y ∈ h x → k (o y) = kf x) →
  NoDup (o <$> flat_map h l).
Proof.
  induction l as [|x l IH]; intros Hnd Hx Hk; simpl; [constructor|].
  rewrite fmap_cons in Hnd. apply NoDup_cons in Hnd as [Hnotin Hnd].
  rewrite fmap_app. apply NoDup_app. split; [apply Hx; left|]. split.
  - intros c (y & -> & Hy)%list_elem_of_fmap (y' & Heq & Hy')%list_elem_of_fmap.
    apply list_elem_of_In, in_flat_map in Hy' as (x' & Hx' & Hy').
    apply list_elem_of_In in Hx', Hy'. apply Hnotin.
    apply list_elem_of_fmap. exists x'. split; [|done].
    rewrite <- (Hk x y) by (done || left). rewrite <- (Hk x' y') by (done || by right).
    by rewrite Heq.
  - apply IH; [done | |].
    + intros x' Hx'. apply Hx. by right.
    + intros x' y Hx'. apply Hk. by right.
Qed.

Lemma tag_conditionals_origins (tokens : list token) :
  NoDup (origin <$> tag_conditionals tokens)
  ∧ ∀ tg, tg ∈ tag_conditionals tokens → (origin tg).1.1 = 10.
Proof.
  unfold tag_conditionals.
  pose proof (collect_protases_si_NoDup tokens) as Hnd.
  destruct (collect_protases tokens) as [protases info]. cbn [fst] in Hnd. split.
  - apply (NoDup_flat_map_by _ origin origin_position pr_si_index); [done | |].
    + intros p _. apply conditional_tags_origin.
    + intros p tg _ Htg. unfold origin_position.
      by rewrite (proj2 (conditional_tags_origin _ _ _ _) tg Htg).
  - intros tg Hin. apply list_elem_of_In, in_flat_map in Hin as (p & _ & Htg).
    apply list_elem_of_In in Htg.
    by rewrite (proj2 (conditional_tags_origin _ _ _ _) tg Htg).
Qed.

Lemma NoDup_concat_by_id (parts : list (Z * list tag)) :
  NoDup (fst <$> parts) →
  (∀ d l, (d, l) ∈ parts →
          NoDup (origin <$> l) ∧ ∀ tg, tg ∈ l → (origin tg).1.1 = d) →
  NoDup (origin <$> concat (snd <$> parts)).
Proof.
  induction parts as [|[d l] parts IH]; intros Hnd Hp; simpl; [constructor|].
  rewrite fmap_cons in Hnd. apply NoDup_cons in Hnd as [Hnotin Hnd].
  rewrite fmap_app. apply NoDup_app.
  destruct (Hp d l) as [Hl Hd]; [left|]. split; [done|]. split.
  - intros c (tg & -> & Htg)%list_elem_of_fmap (tg' & Heq & Htg')%list_elem_of_fmap.
    apply list_elem_of_In, in_concat in Htg' as (l' & Hl' & Htg').
    apply list_elem_of_In in Hl', Htg'.
    apply list_elem_of_fmap in Hl' as ([d' l''] & -> & Hl').
    destruct (Hp d' l'') as [_ Hd']; [by right|]. cbn [snd] in Htg'.
    apply Hnotin. apply list_elem_of_fmap. exists (d', l''). split; [|done].
    cbn [fst]. rewrite <- (Hd tg Htg), <- (Hd' tg' Htg'). by rewrite Heq.
  - apply IH; [done|]. intros d' l' Hin. apply Hp. by right.
Qed.

Lemma all_tags_concat (tokens : list token) :
  all_tags tokens = concat (snd <$> detector_parts tokens).
Proof.
  unfold all_tags, tag_purpose_clauses, tag_gerund_gerundive_flip, detector_parts.
  cbv zeta. cbn [fmap list_fmap snd concat].
  rewrite <- !app_assoc, app_nil_r. reflexivity.
Qed.

Lemma detector_parts_origins (tokens : list token) (d : Z) (l : list tag) :
  (d, l) ∈ detector_parts tokens →
  NoDup (origin <$> l) ∧ ∀ tg, tg ∈ l → (origin tg).1.1 = d.
Proof.
  intros Hin. unfold detector_parts in Hin. cbv zeta in Hin.
  repeat (apply elem_of_cons in Hin as [[= -> ->] | Hin]);
    [..|by apply elem_of_nil in Hin].
  - apply omap_enumerate_origins, cum_clause_origin.
  - apply omap_enumerate_origins. intros i t tg. apply abl_abs_origin.
  - apply omap_enumerate_origins. intros i t tg. apply indirect_statement_origin.
  - apply omap_enumerate_origins, purpose_mark_origin.
  - apply omap_enumerate_origins. intros i t tg. apply purpose_ad_origin.
  - apply omap_enumerate_origins, purpose_relative_origin.
  - apply omap_enumerate_origins, relative_clause_origin.
  - apply omap_range_origins. intros i tg.
    repeat case_match; try discriminate; intros [= <-]; reflexivity.
  - apply omap_range_origins. intros i tg. apply flip_gerund_origin.
  - apply omap_enumerate_origins. intros i t tg. apply flip_ad_origin.
  - apply tag_conditionals_origins.
Qed.

Lemma detector_parts_ids (tokens : list token) : NoDup (fst <$> detector_parts tokens).
Proof. unfold detector_parts. cbn [fmap list_fmap fst]. apply (NoDup_seqZ 0 11). Qed.

Lemma all_tags_origins_NoDup (tokens : list token) : NoDup (origin <$> all_tags tokens).
Proof.
  rewrite all_tags_concat. apply NoDup_concat_by_id.
  - apply detector_parts_ids.
  - apply detector_parts_origins.
Qed.

Lemma all_tags_elem (tokens : list token) (tg : tag) :
  tg ∈ all_tags tokens ↔ ∃ d l, (d, l) ∈ detector_parts tokens ∧ tg ∈ l.
Proof.
  rewrite all_tags_concat, list_elem_of_In, in_concat. split.
  - intros (l & Hl & Htg). apply list_elem_of_In, list_elem_of_fmap in Hl as ([d l'] & -> & Hl).
    exists d, l'. split; [done | by apply list_elem_of_In].
  - intros (d & l & Hl & Htg). exists l. split; [|by apply list_elem_of_In].
    apply list_elem_of_In, list_elem_of_fmap. by exists (d, l).
Qed.

Lemma NoDup_fst_functional {A B : Type} (l : list (A * B)) (x : A) (y1 y2 : B) :
  NoDup (fst <$> l) → (x, y1) ∈ l → (x, y2) ∈ l → y1 = y2.
Proof.
  induction l as [|[a b] l IH]; intros Hnd H1 H2; [by apply elem_of_nil in H1|].
  rewrite fmap_cons in Hnd. apply NoDup_cons in Hnd as [Hnotin Hnd]. cbn [fst] in Hnotin.
  assert (Hin : ∀ y, (a, y) ∈ l → False).
  { intros y Hy. apply Hnotin. apply list_elem_of_fmap. by exists (a, y). }
  apply elem_of_cons in H1 as [H1 | H1]; apply elem_of_cons in H2 as [H2 | H2].
  - congruence.
  - injection H1 as -> ->. exfalso. by eapply Hin.
  - injection H2 as -> ->. exfalso. by eapply Hin.
  - by apply IH.
Qed.

(** A tag of the sentence was written by the loop its type and subtype
    name. *)
Lemma all_tags_in_part (tokens : list token) (tg : tag) (l : list tag) :
  ((origin tg).1.1, l) ∈ detector_parts tokens →
  tg ∈ all_tags tokens ↔ tg ∈ l.
Proof.
  intros Hl. rewrite all_tags_elem. split.
  - intros (d & l' & Hl' & Htg).
    destruct (detector_parts_origins _ _ _ Hl') as [_ Hd]. rewrite (Hd tg Htg) in Hl.
    pose proof (detector_parts_ids tokens) as Hnd.
    assert (l = l') as ->; [|done].
    by eapply (NoDup_fst_functional (detector_parts tokens)).
  - intros Htg. by exists ((origin tg).1.1), l.
Qed.

(** X20: the keys of a sentence's tags are pairwise distinct, so the
    de-duplication at the end of the driver never removes a tag: the tags
    written for a sentence are the tags of the eight detectors, in the
    driver's order. *)
Theorem sentence_tags_nothing_removed (tokens : list token) :
  NoDup (dedup_key <$> all_tags tokens)
  ∧ sentence_tags tokens = all_tags tokens.
Proof.
  assert (Hnd : NoDup (dedup_key <$> all_tags tokens)).
  { apply (NoDup_fmap_finer origin); [|apply all_tags_origins_NoDup].
    intros a b Hab. unfold origin. by rewrite Hab. }
  split; [exact Hnd|].
  change (sentence_tags tokens) with (dedup_tags (all_tags tokens)).
  rewrite dedup_tags_fold, dedup_fresh; [done | done |].
  intros t _ H. by apply elem_of_nil in H.
Qed.

Lemma sentence_tags_all (tokens : list token) : sentence_tags tokens = all_tags tokens.
Proof.
  change (sentence_tags tokens) with (dedup_tags (all_tags tokens)).
  rewrite dedup_tags_fold, dedup_fresh; [done | |].
  - apply (NoDup_fmap_finer origin); [|apply all_tags_origins_NoDup].
    intros a b Hab. unfold origin. by rewrite Hab.
  - intros t _ H. by apply elem_of_nil in H.
Qed.

Lemma feats_get_or_empty (f : feats_val) (key : string) :
  feats_get (feats_or_empty f) key = feats_get f key.
Proof.
  unfold feats_or_empty. destruct (feats_truthy f) eqn:E; [done|].
  unfold feats_get. rewrite E. reflexivity.
Qed.

Lemma is_subjunctive_mood (t : token) :
  is_subjunctive t = PyStr.is_str (get_mood t) "Sub".
Proof.
  unfold is_subjunctive, get_mood, feats_has.
  by rewrite feats_get_or_empty, opt_eqb_is_str.
Qed.

Lemma relative_tags_paired (tokens : list token) (i : Z) (t : token) :
  (∀ tg, purpose_relative_at tokens i t = Some tg →
         ∃ vi, tg = subjunctive_relative_tag i vi)
  ∧ (∀ tg, relative_clause_at tokens i t = Some tg →
           tg_subtype tg = Some "subjunctive" →
           ∃ vi, tg = relative_subjunctive_tag i vi)
  ∧ ∀ vi, purpose_relative_at tokens i t = Some (subjunctive_relative_tag i vi)
          ↔ relative_clause_at tokens i t = Some (relative_subjunctive_tag i vi).
Proof.
  unfold purpose_relative_at, relative_clause_at. cbv zeta.
  destruct (is_relative_pronoun t); cbn [negb];
    [|split; [discriminate | split; [discriminate | intros vi; split; discriminate]]].
  destruct (relative_verb_walk tokens i 6 i ∅ None) as [v|];
    [|split; [discriminate | split; [discriminate | intros vi; split; discriminate]]].
  rewrite is_subjunctive_mood.
  destruct (has_strong_boundary_between tokens i v);
    [destruct (PyStr.is_str (get_mood (tok tokens v)) "Sub"); cbn [negb];
     (split; [discriminate | split; [discriminate | intros vi; split; discriminate]])|].
  destruct (PyStr.is_str (get_mood (tok tokens v)) "Sub"); cbn [negb].
  - split; [intros tg [= <-]; by exists v|]. split; [intros tg [= <-] _; by exists v|].
    intros vi. unfold subjunctive_relative_tag, relative_subjunctive_tag.
    split; intros Heq; (assert (v = vi) as -> by congruence); reflexivity.
  - split; [discriminate|]. split.
    + intros tg. destruct (PyStr.is_str (get_mood (tok tokens v)) "Ind");
        [intros [= <-]; discriminate | discriminate].
    + intros vi. split; [discriminate|].
      destruct (PyStr.is_str (get_mood (tok tokens v)) "Ind"); discriminate.
Qed.

(** X21: a relative clause with a subjunctive verb is tagged twice.  Among
    the tags written for a sentence, the subjunctive_relative_clause tags
    and the relative_clause tags of subtype subjunctive correspond one to
    one: each is the tag of a relative pronoun [i] and its verb [vi], with
    the same span, highlights and confidence, and the one is written
    exactly when the other is. *)
Theorem subjunctive_relative_tagged_twice (tokens : list token) :
  (∀ tg, tg ∈ sentence_tags tokens → tg_type tg = "subjunctive_relative_clause" →
         ∃ i vi, tg = subjunctive_relative_tag i vi)
  ∧ (∀ tg, tg ∈ sentence_tags tokens → tg_type tg = "relative_clause" →
           tg_subtype tg = Some "subjunctive" →
           ∃ i vi, tg = relative_subjunctive_tag i vi)
  ∧ ∀ i vi, subjunctive_relative_tag i vi ∈ sentence_tags tokens
            ↔ relative_subjunctive_tag i vi ∈ sentence_tags tokens.
Proof.
  rewrite sentence_tags_all.
  assert (H5 : (5, omap (λ '(i, t), purpose_relative_at tokens i t) (enumerate tokens))
               ∈ detector_parts tokens).
  { unfold detector_parts. cbv zeta. do 5 apply list_elem_of_further. apply list_elem_of_here. }
  assert (H6 : (6, tag_relative_clauses tokens) ∈ detector_parts tokens).
  { unfold detector_parts. cbv zeta. do 6 apply list_elem_of_further. apply list_elem_of_here. }
  split; [|split].
  - intros tg Hin Hty.
    assert (Ho : (origin tg).1.1 = 5).
    { unfold origin, dedup_key, key_origin. rewrite Hty. reflexivity. }
    rewrite <- Ho in H5. apply (all_tags_in_part _ _ _ H5) in Hin.
    apply omap_enumerate_elem in Hin as (i & _ & Hat).
    apply relative_tags_paired in Hat as (vi & ->). by exists i, vi.
  - intros tg Hin Hty Hsub.
    assert (Ho : (origin tg).1.1 = 6).
    { unfold origin, dedup_key, key_origin. rewrite Hty. reflexivity. }
    rewrite <- Ho in H6. apply (all_tags_in_part _ _ _ H6) in Hin.
    unfold tag_relative_clauses in Hin.
    apply omap_enumerate_elem in Hin as (i & _ & Hat).
    apply relative_tags_paired in Hat as (vi & ->); [|done]. by exists i, vi.
  - intros i vi.
    rewrite (all_tags_in_part tokens (subjunctive_relative_tag i vi) _ H5).
    rewrite (all_tags_in_part tokens (relative_subjunctive_tag i vi) _ H6).
    unfold tag_relative_clauses. rewrite !omap_enumerate_elem. split.
    + intros (j & Hj & Hat). exists j. split; [done|].
      pose proof Hat as Hat'. apply relative_tags_paired in Hat' as (vj & Heq).
      assert (i = j) as -> by (unfold subjunctive_relative_tag in Heq; congruence).
      by apply relative_tags_paired.
    + intros (j & Hj & Hat). exists j. split; [done|].
      pose proof Hat as Hat'. apply relative_tags_paired in Hat' as (vj & Heq); [|done].
      assert (i = j) as -> by (unfold relative_subjunctive_tag in Heq; congruence).
      by apply relative_tags_paired.
Qed.

(** ** Feature bags: string against dictionary *)











Lemma tok_cases (tokens : list token) (i : Z) :
  tok tokens i = blank_token ∨ tok tokens i ∈ tokens.
Proof.
  unfold tok. destruct (in_range tokens i) eqn:E; [right | by left].
  apply in_range_bounds in E. apply list_elem_of_lookup_total_2. unfold len in E. lia.
Qed.

Lemma dict_bag_not_participle (t : token) :
  dict_bag (tk_feats t) → is_future_passive_participle t = false.
Proof.
  unfold dict_bag, is_future_passive_participle, feats_or_empty. cbv zeta.
  destruct (PyStr.among (tk_upos t) ["VERB"; "AUX"]); cbn [negb]; [|done].
  destruct (tk_feats t) as [|d|s|l]; [done | | done | done].
  intros Hd. destruct (feats_truthy (FDict d)); [|done].
  cbn [feats_contains]. destruct (d !! "VerbForm=Part") as [v|] eqn:E; [|done].
  specialize (Hd "VerbForm=Part" ltac:(by eexists)). discriminate Hd.
Qed.

Lemma dict_encoded_not_participle (tokens : list token) (i : Z) :
  dict_encoded tokens → is_future_passive_participle (tok tokens i) = false.
Proof.
  intros Hd. apply dict_bag_not_participle.
  destruct (tok_cases tokens i) as [-> | Hin]; [done | by apply Hd].
Qed.

Lemma dict_encoded_no_gerund (tokens : list token) (i : Z) :
  dict_encoded tokens → is_gerund tokens i = false ∧ is_gerundive tokens i = false.
Proof.
  intros Hd. unfold is_gerundive, is_gerund. cbv zeta.
  by rewrite (dict_encoded_not_participle tokens i Hd).
Qed.

Lemma filter_all_false (p : Z → bool) (l : list Z) :
  (∀ x, p x = false) → List.filter p l = [].
Proof. intros H. induction l as [|x l IH]; simpl; [done|]. by rewrite H. Qed.

Lemma all_tags_declared (tokens : list token) (tg : tag) :
  tg ∈ all_tags tokens → declared_shape tg.
Proof.
  intros Hin. unfold all_tags in Hin. rewrite !elem_of_app in Hin.
  destruct Hin as [Hin | [Hin | [Hin | [Hin | [Hin | [Hin | [Hin | Hin]]]]]]].
  - unfold tag_cum_clauses in Hin. apply omap_enumerate_elem in Hin as (i & Hi & Hat).
    by eapply cum_clause_shape.
  - unfold tag_ablative_absolutes in Hin.
    apply omap_enumerate_elem in Hin as (i & Hi & Hat). by eapply abl_abs_shape.
  - unfold tag_indirect_statements in Hin.
    apply omap_enumerate_elem in Hin as (i & Hi & Hat). by eapply indirect_statement_shape.
  - unfold tag_purpose_clauses in Hin. rewrite !elem_of_app in Hin.
    destruct Hin as [Hin | [Hin | Hin]];
      apply omap_enumerate_elem in Hin as (i & Hi & Hat).
    + by eapply purpose_mark_shape.
    + by eapply purpose_ad_shape.
    + by eapply purpose_relative_shape.
  - unfold tag_relative_clauses in Hin.
    apply omap_enumerate_elem in Hin as (i & Hi & Hat). by eapply relative_clause_shape.
  - unfold tag_gerunds_and_gerundives in Hin.
    apply list_elem_of_omap in Hin as (i & Hi & Hat).
    repeat case_match; try discriminate; injection Hat as <-; solve_shape.
  - unfold tag_gerund_gerundive_flip in Hin.
    rewrite elem_of_app in Hin. destruct Hin as [Hin | Hin].
    + apply list_elem_of_omap in Hin as (i & Hi & Hat). by eapply flip_gerund_shape.
    + apply omap_enumerate_elem in Hin as (i & Hi & Hat). by eapply flip_ad_shape.
  - unfold tag_conditionals in Hin.
    pose proof (collect_protases_ok tokens) as Hps.
    pose proof (collect_protases_verbal tokens) as Hpv.
    pose proof (collect_protases_covers tokens) as Hpc.
    destruct (collect_protases tokens) as [protases info]. simpl in Hps, Hpv, Hpc.
    apply list_elem_of_In, in_flat_map in Hin as (p & Hp & Htg).
    apply list_elem_of_In in Hp, Htg.
    eapply conditional_tags_shape; [by apply Hps | by apply Hpv | by apply Hpc | done].
Qed.

(** The loop that wrote a tag with one of the gerund types or ad-purpose
    subtypes. *)
Lemma gerund_tag_detector (tg : tag) :
  declared_shape tg →
  tg_type tg = "gerund" ∨ tg_type tg = "gerundive"
  ∨ tg_type tg = "gerund_gerundive_flip"
  ∨ tg_subtype tg = Some "ad_gerund" ∨ tg_subtype tg = Some "ad_noun_gerundive" →
  (origin tg).1.1 = 4 ∨ (origin tg).1.1 = 7 ∨ (origin tg).1.1 = 8 ∨ (origin tg).1.1 = 9.
Proof.
  intros (Hty & Hsub & _). unfold origin, dedup_key, key_origin.
  destruct tg as [ty sub s e hl fs cf cm tr].
  cbn [tg_type tg_subtype tg_highlight_spans tg_trigger fst] in *.
  unfold DECLARED_TAGS in Hty.
  repeat (apply elem_of_cons in Hty as [-> | Hty];
          [vm_compute in Hsub;
           repeat (apply elem_of_cons in Hsub as [-> | Hsub];
                   [vm_compute; intuition (discriminate || auto)|]);
           by apply elem_of_nil in Hsub|]).
  by apply elem_of_nil in Hty.
Qed.

(** X23: the gerund detectors read only the string encoding.  On a sentence
    whose tokens carry their features as dictionaries, no token counts as a
    future passive participle (the test looks for the text "VerbForm=Part"
    among the dictionary's keys), so the tagger writes no gerund, gerundive,
    gerund_gerundive_flip or ad-purpose tag for it, whatever the features
    say. *)
Theorem dict_encoded_no_gerund_tags (tokens : list token) :
  dict_encoded tokens →
  (∀ i, is_future_passive_participle (tok tokens i) = false)
  ∧ tag_gerunds_and_gerundives tokens = []
  ∧ tag_gerund_gerundive_flip tokens = []
  ∧ ∀ tg, tg ∈ sentence_tags tokens →
          ¬ (tg_type tg = "gerund" ∨ tg_type tg = "gerundive"
             ∨ tg_type tg = "gerund_gerundive_flip"
             ∨ tg_subtype tg = Some "ad_gerund"
             ∨ tg_subtype tg = Some "ad_noun_gerundive").
Proof.
  intros Hd.
  pose proof (λ i, dict_encoded_not_participle tokens i Hd) as Hfpp.
  pose proof (λ i, proj1 (dict_encoded_no_gerund tokens i Hd)) as Hger.
  pose proof (λ i, proj2 (dict_encoded_no_gerund tokens i Hd)) as Hgve.
  assert (Hg : tag_gerunds_and_gerundives tokens = []).
  { unfold tag_gerunds_and_gerundives. apply omap_all_none. intros i _.
    by rewrite Hger, Hgve. }
  assert (Hfg : omap (flip_gerund_at tokens (build_children tokens)) (range 0 (len tokens))
                = []).
  { apply omap_all_none. intros i _. unfold flip_gerund_at. by rewrite Hger. }
  assert (Hfa : omap (λ '(i, t), flip_ad_at tokens (build_children tokens) i t)
                     (enumerate tokens) = []).
  { apply omap_all_none. intros [i t] _. unfold flip_ad_at. cbv zeta.
    repeat case_if; try done.
    destruct (head_index tokens t) as [hi|]; [|done].
    rewrite Hgve. rewrite filter_all_false by (intros x; by rewrite Hgve).
    by case_if. }
  assert (Hpa : omap (λ '(i, t), purpose_ad_at tokens (build_children tokens) i t)
                     (enumerate tokens) = []).
  { apply omap_all_none. intros [i t] _. unfold purpose_ad_at. cbv zeta.
    case_if; [done|]. destruct (head_index tokens t) as [hi|]; [|done].
    rewrite Hger, andb_false_r.
    rewrite filter_all_false by (intros x; by rewrite Hfpp).
    by case_if. }
  split; [exact Hfpp|]. split; [exact Hg|]. split.
  { unfold tag_gerund_gerundive_flip. cbv zeta. by rewrite Hfg, Hfa. }
  intros tg Hin Hty. rewrite sentence_tags_all in Hin.
  pose proof (gerund_tag_detector tg (all_tags_declared _ _ Hin) Hty) as Hdet.
  assert (Hempty : ∀ l, ((origin tg).1.1, l) ∈ detector_parts tokens → l = []).
  { intros l Hl.
    assert (Hparts : ∀ d l', (d, l') ∈ [
              (4, omap (λ '(i, t), purpose_ad_at tokens (build_children tokens) i t)
                       (enumerate tokens));
              (7, tag_gerunds_and_gerundives tokens);
              (8, omap (flip_gerund_at tokens (build_children tokens))
                       (range 0 (len tokens)));
              (9, omap (λ '(i, t), flip_ad_at tokens (build_children tokens) i t)
                       (enumerate tokens))] →
              (d, l') ∈ detector_parts tokens ∧ l' = []).
    { intros d l' Hd'. unfold detector_parts. cbv zeta.
      repeat (apply elem_of_cons in Hd' as [[= -> ->] | Hd']);
        [..|by apply elem_of_nil in Hd']; (split; [solve_elem_of | done]). }
    assert (Hsome : ∃ l', ((origin tg).1.1, l') ∈ detector_parts tokens ∧ l' = []).
    { destruct Hdet as [Hdet | [Hdet | [Hdet | Hdet]]]; rewrite Hdet;
        eexists; apply Hparts; solve_elem_of. }
    destruct Hsome as (l' & Hl' & ->).
    by eapply (NoDup_fst_functional (detector_parts tokens)); [apply detector_parts_ids | |]. }
  apply all_tags_elem in Hin as (d & l & Hl & Htg).
  destruct (detector_parts_origins _ _ _ Hl) as [_ Hdl]. rewrite <- (Hdl tg Htg) in Hl.
  rewrite (Hempty l Hl) in Htg. by apply elem_of_nil in Htg.
Qed.

Lemma dict_encoded_no_gerund_tags_witness :
  tag_gerunds_and_gerundives ad_pacem_petendam_dict = []
  ∧ tag_gerunds_and_gerundives ad_pacem_petendam ≠ [].
Proof.
  split; [|vm_compute; discriminate].
  apply (dict_encoded_no_gerund_tags ad_pacem_petendam_dict).
  intros t Ht. unfold ad_pacem_petendam_dict in Ht.
  repeat (apply elem_of_cons in Ht as [-> | Ht]);
    [done | | | by apply elem_of_nil in Ht];
    cbn [tk_feats dict_bag]; intros k [v Hk];
    apply elem_of_list_to_map_2 in Hk;
    repeat (apply elem_of_cons in Hk as [[= -> ->] | Hk]; [reflexivity|]);
    by apply elem_of_nil in Hk.
Defined.

(** ** Gerunds and gerundives across the detectors *)

Lemma gerund_tags_elem (tokens : list token) (tg : tag) :
  tg ∈ tag_gerunds_and_gerundives tokens
  ↔ ∃ i, 0 ≤ i < len tokens
         ∧ ((is_gerund tokens i = true ∧ tg = gerund_tag i)
            ∨ (is_gerundive tokens i = true ∧ tg = gerundive_tag i)).
Proof.
  unfold tag_gerunds_and_gerundives. rewrite list_elem_of_omap. split.
  - intros (i & Hi%elem_of_range & Hat). exists i. split; [lia|].
    destruct (is_gerund tokens i) eqn:E1; [left; by injection Hat as <-|].
    destruct (is_gerundive tokens i) eqn:E2; [right; by injection Hat as <-|].
    discriminate.
  - intros (i & Hi & [[Hg ->] | [Hg ->]]); exists i; (split; [apply elem_of_range; lia|]).
    + by rewrite Hg.
    + destruct (is_gerund tokens i) eqn:E1; [|by rewrite Hg].
      unfold is_gerundive in Hg. rewrite E1 in Hg. cbv zeta in Hg.
      by destruct (is_future_passive_participle (tok tokens i)).
Qed.

Lemma agreeing_child_is_gerundive (tokens : list token) (hi c : Z) :
  c ∈ children_get (build_children tokens) hi →
  is_nounish (tok tokens hi) = true →
  is_future_passive_participle (tok tokens c) = true →
  agrees_case_number_gender (tok tokens c) (tok tokens hi) = true →
  is_gerundive tokens c = true.
Proof.
  intros [_ Hh]%build_children_mem Hn Hf Ha.
  unfold is_gerundive, is_gerund. cbv zeta. rewrite Hf, Hh, Hn, Ha. cbn [negb andb].
  by destruct (is_neuter_singular (tok tokens c)).
Qed.

Ltac no_gerund_refs :=
  cbv zeta; repeat case_match; try discriminate; intros [= <-];
  split; intros ?; cbn; discriminate.

Lemma cum_clause_refs (tokens : list token) (i : Z) (t : token) (tg : tag) :
  cum_clause_at tokens i t = Some tg → gerund_refs_ok tokens tg.
Proof. unfold cum_clause_at. no_gerund_refs. Qed.

Lemma abl_abs_refs (tokens : list token) (children : gmap Z (list Z)) (i : Z) (t : token)
    (tg : tag) :
  abl_abs_at tokens children i t = Some tg → gerund_refs_ok tokens tg.
Proof. unfold abl_abs_at. no_gerund_refs. Qed.

Lemma indirect_statement_refs (tokens : list token) (children : gmap Z (list Z)) (i : Z)
    (t : token) (tg : tag) :
  indirect_statement_at tokens children i t = Some tg → gerund_refs_ok tokens tg.
Proof. unfold indirect_statement_at. no_gerund_refs. Qed.

Lemma purpose_mark_refs (tokens : list token) (i : Z) (t : token) (tg : tag) :
  purpose_mark_at tokens i t = Some tg → gerund_refs_ok tokens tg.
Proof. unfold purpose_mark_at. no_gerund_refs. Qed.

Lemma purpose_relative_refs (tokens : list token) (i : Z) (t : token) (tg : tag) :
  purpose_relative_at tokens i t = Some tg → gerund_refs_ok tokens tg.
Proof. unfold purpose_relative_at. no_gerund_refs. Qed.

Lemma relative_clause_refs (tokens : list token) (i : Z) (t : token) (tg : tag) :
  relative_clause_at tokens i t = Some tg → gerund_refs_ok tokens tg.
Proof. unfold relative_clause_at. no_gerund_refs. Qed.

Lemma conditional_tags_refs (tokens : list token) (children : gmap Z (list Z))
    (info : gmap (Z * Z) seg_info) (p : protasis) (tg : tag) :
  tg ∈ conditional_tags_of tokens children info p → gerund_refs_ok tokens tg.
Proof.
  unfold conditional_tags_of. cbv zeta.
  destruct (choose_apodosis _ _ _ _ _ _ _ _) as [ap disc].
  destruct (protasis_span _ _ _ _ _) as [ps pe].
  destruct ap as [a|]; [destruct (apodosis_span _ _ _ _ _) as [as_ ae]|].
  - intros [-> | [-> | H]%elem_of_cons]%elem_of_cons; [| | by apply elem_of_nil in H];
      split; intros ?; cbn; discriminate.
  - intros [-> | H]%elem_of_cons; [| by apply elem_of_nil in H];
      split; intros ?; cbn; discriminate.
Qed.

Lemma purpose_ad_refs (tokens : list token) (i : Z) (t : token) (tg : tag) :
  purpose_ad_at tokens (build_children tokens) i t = Some tg → gerund_refs_ok tokens tg.
Proof.
  unfold purpose_ad_at. cbv zeta.
  case_if; [discriminate|].
  destruct (head_index tokens t) as [hi|] eqn:Eh; [|discriminate].
  pose proof (head_index_in_range _ _ _ Eh) as Hhi.
  destruct (PyStr.among (tk_upos (tok tokens hi)) ["VERB"; "AUX"] && is_gerund tokens hi)
    eqn:Eg.
  - apply andb_true_iff in Eg as [_ Eg]. case_if; [discriminate|]. intros [= <-].
    split; intros g; cbn; [intros [= <-]; done | discriminate].
  - destruct (is_nounish (tok tokens hi)) eqn:En; [|discriminate].
    destruct (nearest_to hi _) as [g|] eqn:Eb; [|discriminate].
    apply nearest_to_elem, elem_of_filter_list in Eb as [Hc Hp]. cbv beta zeta in Hp.
    apply andb_true_iff in Hp as [Hf Ha].
    case_if; [discriminate|]. intros [= <-].
    split; intros g'; cbn; [discriminate|]. intros [= <-]. split.
    + by apply build_children_mem in Hc as [? _].
    + by eapply agreeing_child_is_gerundive.
Qed.

Lemma flip_gerund_refs (tokens : list token) (children : gmap Z (list Z)) (i : Z) (tg : tag) :
  0 ≤ i < len tokens →
  flip_gerund_at tokens children i = Some tg → gerund_refs_ok tokens tg.
Proof.
  intros Hi. unfold flip_gerund_at. cbv zeta.
  destruct (is_gerund tokens i) eqn:Eg; cbn [negb]; [|discriminate].
  destruct (min_by_distance i _) as [o|]; [|discriminate]. intros [= <-].
  split; intros g; cbn; [intros [= <-]; done | discriminate].
Qed.

Lemma flip_ad_refs (tokens : list token) (i : Z) (t : token) (tg : tag) :
  flip_ad_at tokens (build_children tokens) i t = Some tg → gerund_refs_ok tokens tg.
Proof.
  unfold flip_ad_at. cbv zeta.
  case_if; [discriminate|]. case_if; [discriminate|].
  destruct (head_index tokens t) as [hi|] eqn:Eh; [|discriminate].
  pose proof (head_index_in_range _ _ _ Eh) as Hhi.
  destruct (is_nounish (tok tokens hi)) eqn:En.
  - destruct (nearest_to hi _) as [g|] eqn:Eb; [|discriminate].
    apply nearest_to_elem, elem_of_filter_list in Eb as [Hc Hp]. cbv beta in Hp.
    apply andb_true_iff in Hp as [Hg _].
    case_if; [discriminate|]. intros [= <-].
    split; intros g'; cbn; [discriminate|]. intros [= <-]. split; [|done].
    by apply build_children_mem in Hc as [? _].
  - destruct (is_gerundive tokens hi) eqn:Eg; [|discriminate].
    destruct (nearest_to hi _) as [nn|]; (case_if; [discriminate|]); intros [= <-];
      (split; intros g'; cbn; [discriminate|]); intros [= <-]; done.
Qed.

Lemma all_tags_refs (tokens : list token) (tg : tag) :
  tg ∈ all_tags tokens → gerund_refs_ok tokens tg.
Proof.
  intros Hin. unfold all_tags in Hin. rewrite !elem_of_app in Hin.
  destruct Hin as [Hin | [Hin | [Hin | [Hin | [Hin | [Hin | [Hin | Hin]]]]]]].
  - unfold tag_cum_clauses in Hin. apply omap_enumerate_elem in Hin as (i & Hi & Hat).
    by eapply cum_clause_refs.
  - unfold tag_ablative_absolutes in Hin.
    apply omap_enumerate_elem in Hin as (i & Hi & Hat). by eapply abl_abs_refs.
  - unfold tag_indirect_statements in Hin.
    apply omap_enumerate_elem in Hin as (i & Hi & Hat). by eapply indirect_statement_refs.
  - unfold tag_purpose_clauses in Hin. rewrite !elem_of_app in Hin.
    destruct Hin as [Hin | [Hin | Hin]];
      apply omap_enumerate_elem in Hin as (i & Hi & Hat).
    + by eapply purpose_mark_refs.
    + by eapply purpose_ad_refs.
    + by eapply purpose_relative_refs.
  - unfold tag_relative_clauses in Hin.
    apply omap_enumerate_elem in Hin as (i & Hi & Hat). by eapply relative_clause_refs.
  - apply gerund_tags_elem in Hin as (i & Hi & [[_ ->] | [_ ->]]);
      split; intros ?; cbn; discriminate.
  - unfold tag_gerund_gerundive_flip in Hin.
    rewrite elem_of_app in Hin. destruct Hin as [Hin | Hin].
    + apply list_elem_of_omap in Hin as (i & Hi%elem_of_range & Hat).
      eapply flip_gerund_refs; [|done]. lia.
    + apply omap_enumerate_elem in Hin as (i & Hi & Hat). by eapply flip_ad_refs.
  - unfold tag_conditionals in Hin.
    destruct (collect_protases tokens) as [protases info].
    apply list_elem_of_In, in_flat_map in Hin as (p & _ & Htg).
    apply list_elem_of_In in Htg. by eapply conditional_tags_refs.
Qed.

Lemma gerund_tag_stored (tokens : list token) (i : Z) :
  (gerund_tag i ∈ sentence_tags tokens ↔ 0 ≤ i < len tokens ∧ is_gerund tokens i = true)
  ∧ (gerundive_tag i ∈ sentence_tags tokens
     ↔ 0 ≤ i < len tokens ∧ is_gerundive tokens i = true).
Proof.
  rewrite sentence_tags_all.
  assert (H7 : (7, tag_gerunds_and_gerundives tokens) ∈ detector_parts tokens).
  { unfold detector_parts. cbv zeta. solve_elem_of. }
  rewrite (all_tags_in_part tokens (gerund_tag i) _ H7).
  rewrite (all_tags_in_part tokens (gerundive_tag i) _ H7).
  rewrite !gerund_tags_elem. split; split.
  - intros (j & Hj & [[Hg Heq] | [Hg Heq]]); [|discriminate].
    injection Heq as ->. done.
  - intros [Hi Hg]. exists i. split; [done|]. by left.
  - intros (j & Hj & [[Hg Heq] | [Hg Heq]]); [discriminate|].
    injection Heq as ->. done.
  - intros [Hi Hg]. exists i. split; [done|]. by right.
Qed.

(** X24: the detectors agree on gerunds and gerundives.  A gerund tag is
    stored for position [i] exactly when [is_gerund] holds there, a
    gerundive tag exactly when [is_gerundive] holds; and whenever any
    stored tag names a [gerund_index] or a [gerundive_index] in its trigger
    (the flips and the ad-purpose clauses do), that position carries the
    gerund, respectively gerundive, tag as well. *)
Theorem gerund_references_tagged (tokens : list token) :
  (∀ i, (gerund_tag i ∈ sentence_tags tokens
         ↔ 0 ≤ i < len tokens ∧ is_gerund tokens i = true)
        ∧ (gerundive_tag i ∈ sentence_tags tokens
           ↔ 0 ≤ i < len tokens ∧ is_gerundive tokens i = true))
  ∧ (∀ tg g, tg ∈ sentence_tags tokens →
             trigger_get "gerund_index" (tg_trigger tg) = Some (TInt g) →
             gerund_tag g ∈ sentence_tags tokens)
  ∧ (∀ tg g, tg ∈ sentence_tags tokens →
             trigger_get "gerundive_index" (tg_trigger tg) = Some (TInt g) →
             gerundive_tag g ∈ sentence_tags tokens).
Proof.
  split; [apply gerund_tag_stored|]. split.
  - intros tg g Hin Hg. apply gerund_tag_stored.
    rewrite sentence_tags_all in Hin. by apply (all_tags_refs _ _ Hin).
  - intros tg g Hin Hg. apply gerund_tag_stored.
    rewrite sentence_tags_all in Hin. by apply (all_tags_refs _ _ Hin).
Qed.

(** ** Comma-bounded clauses *)

Lemma find_range_first (p : Z → bool) (a b k : Z) :
  List.find p (range a b) = Some k →
  a ≤ k < b ∧ p k = true ∧ ∀ j, a ≤ j < k → p j = false.
Proof.
  remember (Z.to_nat (b - a)) as m eqn:Hm. revert a Hm.
  induction m as [|m IH]; intros a Hm.
  - rewrite range_empty by lia. discriminate.
  - rewrite range_cons by lia. cbn [List.find].
    destruct (p a) eqn:E.
    + intros [= <-]. split; [lia|]. split; [done|]. intros j Hj. lia.
    + intros Hf. destruct (IH (a + 1) ltac:(lia) Hf) as (Hk & Hp & Hj).
      split; [lia|]. split; [done|]. intros j Hj'.
      destruct (decide (j = a)) as [-> | Hne]; [done|]. apply Hj. lia.
Qed.

Lemma find_range_none (p : Z → bool) (a b : Z) :
  List.find p (range a b) = None → ∀ j, a ≤ j < b → p j = false.
Proof.
  intros Hf j Hj. eapply find_none; [exact Hf|].
  apply list_elem_of_In, elem_of_range. lia.
Qed.

Lemma rev_range_cons (a b : Z) : a < b → rev (range a b) = (b - 1) :: rev (range a (b - 1)).
Proof.
  intros H. replace (range a b) with (range a (b - 1) ++ [b - 1])%list.
  - by rewrite rev_unit.
  - unfold range. replace (b - a) with ((b - 1 - a) + 1) by lia.
    rewrite seqZ_app by lia. f_equal.
    rewrite seqZ_cons by lia. rewrite seqZ_nil by lia. f_equal. lia.
Qed.

Lemma find_rev_range_last (p : Z → bool) (a b k : Z) :
  List.find p (rev (range a b)) = Some k →
  a ≤ k < b ∧ p k = true ∧ ∀ j, k < j < b → p j = false.
Proof.
  remember (Z.to_nat (b - a)) as m eqn:Hm. revert b Hm.
  induction m as [|m IH]; intros b Hm.
  - rewrite range_empty by lia. discriminate.
  - rewrite rev_range_cons by lia. cbn [List.find].
    destruct (p (b - 1)) eqn:E.
    + intros [= <-]. split; [lia|]. split; [done|]. intros j Hj. lia.
    + intros Hf. destruct (IH (b - 1) ltac:(lia) Hf) as (Hk & Hp & Hj).
      split; [lia|]. split; [done|]. intros j Hj'.
      destruct (decide (j = b - 1)) as [-> | Hne]; [done|]. apply Hj. lia.
Qed.

Lemma find_rev_range_none (p : Z → bool) (a b : Z) :
  List.find p (rev (range a b)) = None → ∀ j, a ≤ j < b → p j = false.
Proof.
  intros Hf j Hj. eapply find_none; [exact Hf|].
  apply in_rev. rewrite rev_involutive. apply list_elem_of_In, elem_of_range. lia.
Qed.




(** ** Result against purpose *)

Lemma find_append (p : Z → bool) (l1 l2 : list Z) :
  List.find p (l1 ++ l2)
  = match List.find p l1 with
    | Some x => Some x
    | None => List.find p l2
    end.
Proof.
  induction l1 as [|x l1 IH]; [done|]. cbn [app List.find]. by destruct (p x).
Qed.

Lemma foldl_last_match (p : Z → bool) (l : list Z) (init : option Z) :
  foldl (λ best j, if p j then Some j else best) init l
  = match List.find p (rev l) with
    | Some j => Some j
    | None => init
    end.
Proof.
  revert init. induction l as [|x l IH]; intros init; [done|].
  cbn [foldl rev]. rewrite IH.
  rewrite find_append. destruct (List.find p (rev l)) as [j|] eqn:E; [done|].
  cbn [List.find]. by destruct (p x).
Qed.

Lemma has_result_correlative_spec (tokens : list token) (marker_i : Z) :
  last_correlative tokens marker_i (has_result_correlative tokens marker_i).
Proof.
  unfold has_result_correlative, last_correlative. cbv zeta. cbn [fst snd].
  change (λ (best : option Z) (j : Z),
            if PyStr.among (PyStr.lower (tok_text (tok tokens j))) RESULT_CORRELATIVES
               || PyStr.among (PyStr.lower (tok_lemma (tok tokens j))) RESULT_CORRELATIVES
            then Some j else best)
    with (λ (best : option Z) (j : Z), if is_correlative tokens j then Some j else best).
  rewrite foldl_last_match.
  destruct (List.find _ (rev (range _ marker_i))) as [j|] eqn:E.
  - apply find_rev_range_last in E as (Hj & Hp & Hlast).
    split; [by rewrite bool_decide_eq_true|]. split; [|discriminate].
    intros j' [= <-]. done.
  - pose proof (find_rev_range_none _ _ _ E) as Hnone.
    split; [rewrite bool_decide_eq_true; split; [intros [? ?]; discriminate | intros [? ?]; discriminate]|].
    split; [discriminate|]. intros _. exact Hnone.
Qed.

Lemma purpose_mark_at_spec (tokens : list token) (i : Z) (t : token) (tg : tag) :
  purpose_mark_at tokens i t = Some tg
  ↔ ∃ vi, purpose_guards tokens i t vi
          ∧ ((is_ut_like t = true
              ∧ ∃ j, (has_result_correlative tokens i).2 = Some j
                     ∧ tg = result_tag i vi j)
             ∨ ((is_ut_like t = false ∨ (has_result_correlative tokens i).2 = None)
                ∧ tg = purpose_ut_tag i vi)).
Proof.
  pose proof (has_result_correlative_spec tokens i) as (Hfst & _).
  unfold purpose_mark_at, purpose_guards. cbv zeta. fold (is_ut_like t).
  destruct (PyStr.among (PyStr.lower (tok_text t)) UT_MARKERS) eqn:E1;
    destruct (PyStr.among (PyStr.lower (tok_lemma t)) UT_MARKERS) eqn:E2; cbn [negb andb];
    try (split; [discriminate | intros (vi & ([? | ?] & _) & _); discriminate]).
  all: destruct (head_index tokens t) as [v|] eqn:Eh;
    [|split; [discriminate | intros (vi & (_ & ? & _) & _); discriminate]].
  all: destruct (has_strong_boundary_between tokens i v) eqn:Eb;
    [split; [discriminate | intros (vi & (_ & Hh & ? & _) & _); congruence]|].
  all: destruct (is_finite_verb (tok tokens v)) eqn:Ef; cbn [negb orb];
    [|split; [discriminate | intros (vi & (_ & Hh & _ & ? & _) & _); congruence]].
  all: destruct (is_subjunctive (tok tokens v)) eqn:Es; cbn [negb];
    [|split; [discriminate | intros (vi & (_ & Hh & _ & _ & ?) & _); congruence]].
  all: destruct (is_ut_like t) eqn:Eu.
  all: try (destruct (has_result_correlative tokens i) as [[] [j|]] eqn:Er;
            cbn [fst snd] in *).
  all: try (destruct Hfst as [Hf1 Hf2]; first [by destruct (Hf1 eq_refl)
                                               | by specialize (Hf2 ltac:(by eexists))]).
  all: split;
    [intros [= <-]; exists v; split; [by auto|];
     first [left; split; [done|]; by eexists
           | right; split; [by auto | done]]
    |intros (vi & (_ & Hh & _) & [(Hu & j' & Hj & ->) | (Hor & ->)]);
     injection Hh as <-; try discriminate; try (injection Hj as <-); try done;
     destruct Hor; discriminate].
Qed.

(** X26: result against purpose.  For a marker position [i],
    [has_result_correlative] finds the last token before [i] in the
    marker's segment whose text or lemma is a result correlative (tam, ita,
    sic, ...), and answers False exactly when there is none; the first loop
    of [tag_purpose_clauses] writes a tag for [i] exactly when the marker
    (ut, uti, ne, neve) has a finite subjunctive head verb not separated
    from it by strong punctuation, and that tag is a result clause naming
    the correlative when the marker is ut/uti and a correlative was found,
    and the purpose clause otherwise. *)
Theorem result_clause_needs_correlative (tokens : list token) (i : Z) :
  0 ≤ i < len tokens → purpose_or_result tokens i.
Proof.
  intros _. split; [apply has_result_correlative_spec|].
  intros tg. apply purpose_mark_at_spec.
Qed.

Lemma result_clause_needs_correlative_witness : purpose_or_result tam_fortis_ut 3.
Proof.
  apply (result_clause_needs_correlative tam_fortis_ut 3).
  vm_compute. split; [discriminate | reflexivity].
Defined.

(** ** Nearest candidates *)

Lemma first_nearest_least (center : Z) (l : list Z) (x y : Z) :
  first_nearest center l x → y ∈ l → Z.abs (x - center) ≤ Z.abs (y - center).
Proof.
  intros (l1 & l2 & -> & H1 & H2) [Hy | [-> | Hy]%elem_of_cons]%elem_of_app.
  - specialize (H1 y Hy). lia.
  - lia.
  - by apply H2.
Qed.

Lemma first_nearest_snoc_keep (center : Z) (l : list Z) (x y : Z) :
  first_nearest center l x → Z.abs (x - center) ≤ Z.abs (y - center) →
  first_nearest center (l ++ [y]) x.
Proof.
  intros (l1 & l2 & -> & H1 & H2) Hle. exists l1, (l2 ++ [y])%list.
  split; [by rewrite <- app_assoc|]. split; [done|].
  intros z [Hz | ->%list_elem_of_singleton]%elem_of_app; [by apply H2 | done].
Qed.

Lemma first_nearest_snoc_new (center : Z) (l : list Z) (x y : Z) :
  first_nearest center l x → Z.abs (y - center) < Z.abs (x - center) →
  first_nearest center (l ++ [y]) y.
Proof.
  intros Hx Hlt. exists l, []. split; [done|]. split.
  - intros z Hz. pose proof (first_nearest_least _ _ _ _ Hx Hz). lia.
  - intros z Hz. by apply elem_of_nil in Hz.
Qed.

Lemma nearest_to_fold (center : Z) (l : list Z) :
  (∀ y, y ∈ l → Z.abs (y - center) < 10 ^ 9) →
  let r := foldl (λ '(best, best_dist) ci,
                    let dist := Z.abs (ci - center) in
                    if dist <? best_dist then (Some ci, dist) else (best, best_dist))
                 (None, 10 ^ 9) l in
  (l = [] ∧ r = (None, 10 ^ 9))
  ∨ ∃ x, r = (Some x, Z.abs (x - center)) ∧ first_nearest center l x.
Proof.
  induction l as [|y l IH] using rev_ind; intros Hb; cbv zeta; [by left|].
  right. rewrite foldl_app. cbn [foldl].
  destruct IH as [[-> Hr] | (x & Hr & Hx)].
  { intros z Hz. apply Hb, elem_of_app. by left. }
  - cbn [foldl]. 
    assert (Hy : Z.abs (y - center) < 10 ^ 9)
      by (apply Hb, elem_of_app; right; by apply list_elem_of_singleton).
    replace (Z.abs (y - center) <? 10 ^ 9) with true by lia.
    exists y. split; [done|]. exists [], []. split; [done|].
    split; intros z Hz; by apply elem_of_nil in Hz.
  - cbv zeta in Hr. rewrite Hr.
    destruct (Z.abs (y - center) <? Z.abs (x - center)) eqn:E.
    + exists y. split; [done|]. apply (first_nearest_snoc_new _ _ x); [done | lia].
    + exists x. split; [done|]. apply first_nearest_snoc_keep; [done | lia].
Qed.

Lemma min_by_distance_fold (center : Z) (x0 : Z) (l : list Z) :
  first_nearest center (x0 :: l)
    (foldl (λ best j, if Z.abs (j - center) <? Z.abs (best - center) then j else best)
           x0 l).
Proof.
  induction l as [|y l IH] using rev_ind.
  - exists [], []. split; [done|]. split; intros z Hz; by apply elem_of_nil in Hz.
  - rewrite foldl_app. cbn [foldl]. rewrite app_comm_cons.
    set (x := foldl _ x0 l) in *.
    destruct (Z.abs (y - center) <? Z.abs (x - center)) eqn:E.
    + apply (first_nearest_snoc_new _ _ x); [done | lia].
    + apply first_nearest_snoc_keep; [done | lia].
Qed.

Lemma first_nearest_unique (center : Z) (l : list Z) (x y : Z) :
  first_nearest center l x → first_nearest center l y → x = y.
Proof.
  intros Hx Hy.
  pose proof Hx as (l1 & l2 & El & H1 & H2). pose proof Hy as (k1 & k2 & Ek & K1 & K2).
  assert (Hxl : x ∈ l) by (rewrite El; apply elem_of_app; right; left).
  assert (Hyl : y ∈ l) by (rewrite Ek; apply elem_of_app; right; left).
  pose proof (first_nearest_least _ _ _ _ Hx Hyl).
  pose proof (first_nearest_least _ _ _ _ Hy Hxl).
  rewrite El in Hyl. apply elem_of_app in Hyl as [Hyl | [-> | Hyl]%elem_of_cons];
    [specialize (H1 y Hyl); lia | done |].
  rewrite Ek in Hxl. apply elem_of_app in Hxl as [Hxl | [-> | Hxl]%elem_of_cons];
    [specialize (K1 x Hxl); lia | done |].
  (* both occur after the other: compare the decompositions *)
  assert (Hlen : length l1 = length k1 ∨ (length l1 < length k1)%nat
                 ∨ (length k1 < length l1)%nat) by lia.
  destruct Hlen as [Hlen | [Hlen | Hlen]].
  - rewrite El in Ek. apply app_inj_1 in Ek as [_ Ek]; [|done]. by injection Ek.
  - exfalso. assert (x ∈ k1) as Hin.
    { apply list_elem_of_lookup. exists (length l1).
      rewrite <- (lookup_app_l k1 (y :: k2)) by done. rewrite <- Ek, El.
      by rewrite list_lookup_middle. }
    specialize (K1 x Hin). lia.
  - exfalso. assert (y ∈ l1) as Hin.
    { apply list_elem_of_lookup. exists (length k1).
      rewrite <- (lookup_app_l l1 (x :: l2)) by done. rewrite <- El, Ek.
      by rewrite list_lookup_middle. }
    specialize (H1 y Hin). lia.
Qed.

(** X27: the two nearest-candidate searches.  [min_by_distance] returns the
    first element of the list at the least distance from the center, and
    None exactly for the empty list; the loop [nearest_to], which starts
    from the distance bound 10^9, does the same on every list whose
    elements lie closer than that bound, so the two searches agree there. *)
Theorem nearest_candidate_is_first_least (center : Z) (l : list Z) :
  (∀ y, y ∈ l → Z.abs (y - center) < 10 ^ 9) →
  (min_by_distance center l = None ↔ l = [])
  ∧ (∀ x, min_by_distance center l = Some x ↔ first_nearest center l x)
  ∧ nearest_to center l = min_by_distance center l.
Proof.
  intros Hb.
  assert (Hmin : ∀ x, min_by_distance center l = Some x ↔ first_nearest center l x).
  { intros x. destruct l as [|x0 l]; cbn [min_by_distance].
    - split; [discriminate|]. intros (l1 & l2 & H & _). by destruct l1.
    - pose proof (min_by_distance_fold center x0 l) as Hf. split.
      + by intros [= <-].
      + intros Hx. f_equal. by eapply first_nearest_unique. }
  split; [destruct l; split; done|]. split; [exact Hmin|].
  unfold nearest_to. destruct (nearest_to_fold center l Hb) as [[-> Hr] | (x & Hr & Hx)].
  - done.
  - cbv zeta in Hr. rewrite Hr. cbn [fst]. symmetry. by apply Hmin.
Qed.

Lemma nearest_candidate_is_first_least_witness :
  nearest_to 4 [1; 6; 2; 7] = Some 6 ∧ min_by_distance 4 [1; 6; 2; 7] = Some 6.
Proof.
  destruct (nearest_candidate_is_first_least 4 [1; 6; 2; 7]) as (_ & Hmin & Heq).
  - intros y Hy. repeat (apply elem_of_cons in Hy as [-> | Hy]; [vm_compute; reflexivity|]).
    by apply elem_of_nil in Hy.
  - rewrite Heq. split; reflexivity.
Defined.

(** ** Ablative absolutes: which noun is chosen *)

Lemma find_filter (p q : Z → bool) (l : list Z) :
  List.find p (List.filter q l) = List.find (λ x, q x && p x) l.
Proof.
  induction l as [|x l IH]; [done|]. cbn [List.filter List.find].
  destruct (q x); cbn [andb List.find]; [by destruct (p x) | done].
Qed.

Lemma abl_abs_at_spec (tokens : list token) (i : Z) (tg : tag) :
  0 ≤ i < len tokens →
  abl_abs_at tokens (build_children tokens) i (tok tokens i) = Some tg
  ↔ abl_participle (tok tokens i)
    ∧ ∃ n, first_abl_noun tokens i n ∧ tg = abl_abs_tag i n.
Proof.
  intros Hi. unfold abl_abs_at, abl_participle, first_abl_noun. cbv zeta.
  destruct (String.eqb (tk_upos (tok tokens i)) "VERB") eqn:E1; cbn [negb];
    [apply String.eqb_eq in E1 | apply String.eqb_neq in E1];
    [|split; [discriminate | intros [(? & _) _]; done]].
  destruct (feats_has _ "VerbForm" "Part") eqn:E2; cbn [negb];
    [|split; [discriminate | intros [(_ & ? & _) _]; done]].
  destruct (feats_has _ "Case" "Abl") eqn:E3; cbn [negb];
    [|split; [discriminate | intros [(_ & _ & ?) _]; done]].
  rewrite build_children_filter, find_filter.
  set (m := abl_noun_matches tokens _ _).
  destruct (List.find _ (range 0 (len tokens))) as [n|] eqn:Ef.
  - apply find_range_first in Ef as (Hn & Hp & Hfirst). cbv beta in Hp, Hfirst.
    apply andb_true_iff in Hp as [Hpt Hm]. unfold points_to in Hpt.
    apply bool_decide_eq_true in Hpt.
    assert (Hfn : ∀ c, c < n → head_of tokens i c → m c = false).
    { intros c Hc [Hcr Hch]. specialize (Hfirst c ltac:(lia)).
      apply andb_false_iff in Hfirst as [Hf | Hf]; [|done].
      unfold points_to in Hf. apply bool_decide_eq_false in Hf. done. }
    split.
    + intros [= <-]. split; [done|]. exists n. done.
    + intros [_ (n' & ([Hr' Hh'] & Hm' & Hfirst') & ->)].
      assert (n = n') as <-; [|done].
      destruct (Z.lt_trichotomy n n') as [Hlt | [Heq | Hgt]]; [|done|].
      * specialize (Hfirst' n Hlt ltac:(done)). congruence.
      * specialize (Hfn n' Hgt ltac:(done)). congruence.
  - pose proof (find_range_none _ _ _ Ef) as Hnone. cbv beta in Hnone.
    split; [discriminate|]. intros [_ (n' & ([Hr' Hh'] & Hm' & _) & _)].
    specialize (Hnone n' Hr'). unfold points_to in Hnone.
    rewrite bool_decide_eq_true_2 in Hnone by done. cbn [andb] in Hnone. congruence.
Qed.

(** X28: which noun an ablative absolute takes.  A tag is written exactly
    for a participle [i] (upos VERB, VerbForm=Part, Case=Abl) that has a
    matching child, and it pairs [i] with the first matching child [n] in
    sentence order: an ablative noun-like token whose Gender and Number are
    present and equal to the participle's.  The tag spans the two
    positions, which are different, so it covers at least two tokens. *)
Theorem abl_abs_takes_first_noun (tokens : list token) :
  (∀ tg, tg ∈ tag_ablative_absolutes tokens
         ↔ ∃ i n, 0 ≤ i < len tokens
                  ∧ abl_participle (tok tokens i)
                  ∧ first_abl_noun tokens i n
                  ∧ tg = abl_abs_tag i n)
  ∧ (∀ tg, tg ∈ tag_ablative_absolutes tokens → tg_start tg < tg_end tg).
Proof.
  assert (Hchar : ∀ tg, tg ∈ tag_ablative_absolutes tokens
         ↔ ∃ i n, 0 ≤ i < len tokens
                  ∧ abl_participle (tok tokens i)
                  ∧ first_abl_noun tokens i n
                  ∧ tg = abl_abs_tag i n).
  { intros tg. unfold tag_ablative_absolutes. cbv zeta. rewrite omap_enumerate_elem. split.
    - intros (i & Hi & Hat). apply abl_abs_at_spec in Hat as (Hp & n & Hn & ->); [|done].
      by exists i, n.
    - intros (i & n & Hi & Hp & Hn & ->). exists i. split; [done|].
      apply abl_abs_at_spec; [done|]. split; [done|]. by exists n. }
  split; [exact Hchar|].
  intros tg (i & n & Hi & (Hu & _) & (_ & Hm & _) & ->)%Hchar.
  cbv zeta in Hm. apply abl_noun_matches_agree in Hm as (g & m & _ & _ & _ & _ & Hn & _).
  cbn [tg_start tg_end abl_abs_tag].
  assert (i ≠ n); [|lia]. intros ->.
  unfold is_nounish in Hn. rewrite Hu in Hn. vm_compute in Hn. discriminate Hn.
Qed.

(** ** Relative clauses: the verb of the pronoun *)

Lemma relative_verb_walk_sound (tokens : list token) (i : Z) (hops : nat)
    (cur : Z) (seen : gset Z) (vi : option Z) (v : Z) :
  0 ≤ cur < len tokens →
  relative_verb_walk tokens i hops cur seen vi = Some v →
  vi = Some v
  ∨ ((0 ≤ v < len tokens)
     ∧ is_finite_verb (tok tokens v) = true
     ∧ has_strong_boundary_between tokens i v = false
     ∧ rtc (head_of tokens) v cur).
Proof.
  revert cur seen vi. induction hops as [|hops IH]; intros cur seen vi Hcur;
    cbn [relative_verb_walk]; [auto|].
  destruct (tk_head (tok tokens cur)) as [hd|] eqn:Eh; [|auto].
  destruct (hd <=? 0) eqn:Ehd; [auto|]. cbv zeta.
  destruct (bool_decide (hd - 1 ∈ seen) || negb (in_range tokens (hd - 1))) eqn:E; [auto|].
  apply orb_false_iff in E as [_ E]. apply negb_false_iff in E.
  assert (Hstep : head_of tokens (hd - 1) cur).
  { split; [done|]. unfold head_index. by rewrite Eh, Ehd, E. }
  apply in_range_bounds in E.
  destruct (has_strong_boundary_between tokens i (hd - 1)) eqn:Eb; [auto|].
  destruct (PyStr.among (tk_upos (tok tokens (hd - 1))) ["VERB"; "AUX"]
            && is_finite_verb (tok tokens (hd - 1))) eqn:Ev.
  - apply andb_true_iff in Ev as [_ Ev].
    assert (Hhere : (0 ≤ hd - 1 < len tokens)
                    ∧ is_finite_verb (tok tokens (hd - 1)) = true
                    ∧ has_strong_boundary_between tokens i (hd - 1) = false
                    ∧ rtc (head_of tokens) (hd - 1) cur)
      by (repeat (split; [done|]); by apply rtc_once).
    destruct (String.eqb (tk_deprel (tok tokens (hd - 1))) "acl:relcl").
    + intros [= <-]. by right.
    + intros H. apply IH in H as [[= <-] | (Hv & Hf & Hs & Hr)]; [by right | | done].
      right. repeat (split; [done|]). eapply rtc_r; [exact Hr | exact Hstep].
  - intros H. apply IH in H as [H | (Hv & Hf & Hs & Hr)]; [by left | | done].
    right. repeat (split; [done|]). eapply rtc_r; [exact Hr | exact Hstep].
Qed.

Lemma relative_clause_at_sound (tokens : list token) (i : Z) (tg : tag) :
  0 ≤ i < len tokens →
  relative_clause_at tokens i (tok tokens i) = Some tg →
  is_relative_pronoun (tok tokens i) = true
  ∧ ∃ v, relative_verb tokens i v
         ∧ ((get_mood (tok tokens v) = Some "Sub" ∧ tg = relative_tag i v "subjunctive" 90)
            ∨ (get_mood (tok tokens v) = Some "Ind" ∧ tg = relative_tag i v "indicative" 91)).
Proof.
  intros Hi. unfold relative_clause_at. cbv zeta.
  destruct (is_relative_pronoun (tok tokens i)) eqn:Ep; cbn [negb]; [|discriminate].
  destruct (relative_verb_walk tokens i 6 i ∅ None) as [v|] eqn:Ew; [|discriminate].
  apply relative_verb_walk_sound in Ew as [? | (Hv & Hf & Hs & Hr)]; [done | | done].
  rewrite Hs.
  assert (Hrv : relative_verb tokens i v).
  { repeat (split; [done|]). by apply in_subtree_heads. }
  destruct (PyStr.is_str (get_mood (tok tokens v)) "Sub") eqn:Es.
  - apply is_str_true in Es. intros [= <-]. split; [done|]. exists v. split; [done|]. by left.
  - destruct (PyStr.is_str (get_mood (tok tokens v)) "Ind") eqn:Ei; [|discriminate].
    apply is_str_true in Ei. intros [= <-]. split; [done|]. exists v. split; [done|].
    by right.
Qed.

Lemma relative_pronoun_not_verb (tokens : list token) (i v : Z) :
  is_relative_pronoun (tok tokens i) = true → is_finite_verb (tok tokens v) = true → i ≠ v.
Proof.
  intros Hp Hf ->. apply is_finite_verb_spec in Hf as [Hu _].
  unfold is_relative_pronoun in Hp.
  apply andb_true_iff in Hp as [[_ Hp]%andb_true_iff _].
  destruct Hu as [Hu | Hu]; rewrite Hu in Hp; vm_compute in Hp; discriminate.
Qed.

(** X29: the verb of a relative clause.  Every relative_clause tag pairs a
    relative pronoun [i] (PronType=Rel, upos PRON or DET, lemma other than
    cum and ut) with a finite verb [v] that the pronoun depends on, directly
    or through its heads, so that the pronoun lies in the verb's subtree;
    no strong punctuation separates the two; the subtype is the verb's
    mood, subjunctive (0.90) or indicative (0.91); the tag spans the two
    positions, which differ. *)
Theorem relative_clause_verb_governs (tokens : list token) (tg : tag) :
  tg ∈ tag_relative_clauses tokens →
  ∃ i v, (0 ≤ i < len tokens)
         ∧ is_relative_pronoun (tok tokens i) = true
         ∧ relative_verb tokens i v
         ∧ ((get_mood (tok tokens v) = Some "Sub" ∧ tg = relative_tag i v "subjunctive" 90)
            ∨ (get_mood (tok tokens v) = Some "Ind"
               ∧ tg = relative_tag i v "indicative" 91))
         ∧ tg_start tg < tg_end tg.
Proof.
  unfold tag_relative_clauses. intros (i & Hi & Hat)%omap_enumerate_elem.
  apply relative_clause_at_sound in Hat as (Hp & v & Hv & Htg); [|done].
  exists i, v. repeat (split; [done|]).
  pose proof Hv as (_ & Hf & _).
  pose proof (relative_pronoun_not_verb tokens i v Hp Hf).
  destruct Htg as [[_ ->] | [_ ->]]; cbn [tg_start tg_end relative_tag]; lia.
Qed.

Lemma relative_clause_verb_governs_witness :
  ∃ i v, (0 ≤ i < len qui_sentence_no_verbform)
         ∧ is_relative_pronoun (tok qui_sentence_no_verbform i) = true
         ∧ relative_verb qui_sentence_no_verbform i v
         ∧ ((get_mood (tok qui_sentence_no_verbform v) = Some "Sub"
             ∧ relative_tag 0 1 "indicative" 91 = relative_tag i v "subjunctive" 90)
            ∨ (get_mood (tok qui_sentence_no_verbform v) = Some "Ind"
               ∧ relative_tag 0 1 "indicative" 91 = relative_tag i v "indicative" 91))
         ∧ tg_start (relative_tag 0 1 "indicative" 91)
           < tg_end (relative_tag 0 1 "indicative" 91).
Proof.
  apply (relative_clause_verb_governs qui_sentence_no_verbform). vm_compute. left.
Defined.

(** ** Conditional labels and the form of the protasis *)

Ltac is_str_hyps :=
  repeat match goal with
         | H : _ && _ = true |- _ => apply andb_true_iff in H as [? ?]
         | H : _ || _ = true |- _ => apply orb_true_iff in H as [? | ?]
         | H : PyStr.is_str _ _ = true |- _ => apply is_str_true in H
         end.

Ltac label_cases :=
  repeat match goal with
         | |- context [if ?b then _ else _] => destruct b eqn:?
         end;
  unfold label_fits; repeat split; intros; try discriminate; is_str_hyps; auto.

Lemma protasis_only_label_fits (pm pt pa : option string) (fallback : Prop) :
  label_fits (protasis_only_label pm pt pa) pm pt pa fallback.
Proof. unfold protasis_only_label. label_cases. Qed.

(** X30: a conditional label never contradicts the form of the protasis.
    Whatever the apodosis and the discourse, the label returned by
    [classify_conditional] for a protasis verb with normalised mood,
    tense and aspect (pm, pt, pa) satisfies: present_contrafactual only
    for Sub/Past/Imp; past_contrafactual only for Sub with Pqp or Perf;
    future_more_vivid, present_simple and past_simple only for Ind with
    Fut, Pres and Past; mixed_indicative only for Ind, mixed_subjunctive
    only for Sub; future_less_vivid only for Sub, and then with tense Pres
    except in the fallback for an infinitive apodosis under indirect
    discourse, which gives that label to any subjunctive protasis. *)
Theorem conditional_label_fits_protasis (tokens : list token)
    (children : gmap Z (list Z)) (pv_i ap_i : option Z)
    (discourse : option discourse_info) :
  let pv_sig := predicate_signature tokens children pv_i in
  label_fits (classify_conditional tokens children pv_i ap_i discourse)
             (sg_mood pv_sig) (sg_tense pv_sig) (sg_aspect pv_sig)
             (indirect_infinitive tokens ap_i discourse).
Proof.
  cbv zeta. unfold classify_conditional. cbv zeta.
  generalize (predicate_signature tokens children pv_i). intros s.
  destruct (valid_index tokens pv_i); cbn [negb];
    [|unfold label_fits; repeat split; discriminate].
  destruct ap_i as [ap|]; [|apply protasis_only_label_fits].
  destruct (in_range tokens ap) eqn:Hap; cbn [negb]; [|apply protasis_only_label_fits].
  apply in_range_bounds in Hap.
  generalize (predicate_signature tokens children (Some ap)). intros a.
  generalize (infer_infinitive_time tokens children (Some ap)). intros inf_time.
  destruct (is_infinitive (tok tokens ap)) eqn:Hinf.
  - destruct discourse as [d|].
    + destruct (PyStr.startswith (ds_discourse d) "indirect") eqn:Hd.
      * assert (indirect_infinitive tokens (Some ap) (Some d)) by (by exists ap, d).
        label_cases.
      * label_cases.
    + change (PyStr.startswith "direct" "indirect") with false. cbv iota. label_cases.
  - label_cases.
Qed.
